(** * A ray tracer on IEEE-754 single precision: model and properties

    Shallow embedding of [src/CPU/Main.cpp]: a fixed stack of spheres is
    rendered with one ray per pixel, Phong shading on a hit and a
    checkerboard otherwise, and written as a plain-text PPM image.

    The C++ type [float] is IEEE-754 binary32.  It is modelled with the
    Standard Library's [spec_float] at precision 24 and maximal exponent
    128, so every arithmetic operation below rounds to nearest-even exactly
    as the hardware does, and every definition can be evaluated. *)

From Stdlib Require Import ZArith Bool List Lia String Ascii.
From Stdlib Require Import Floats.SpecFloat.
From Stdlib Require Import DecimalString.
Import ListNotations.
Local Open Scope Z_scope.

(* ================================================================== *)
(** * Binary32 arithmetic *)
(* ================================================================== *)

Module F32.

Definition prec : Z := 24.
Definition emax : Z := 128.

Definition float : Type := spec_float.

Definition add : float -> float -> float := SFadd prec emax.
Definition sub : float -> float -> float := SFsub prec emax.
Definition mul : float -> float -> float := SFmul prec emax.
Definition div : float -> float -> float := SFdiv prec emax.
Definition neg : float -> float := SFopp.
Definition ltb : float -> float -> bool := SFltb.
Definition leb : float -> float -> bool := SFleb.

(** A well-formed binary32 datum: canonical mantissa, exponent in range. *)
Definition valid (x : float) : bool := valid_binary prec emax x.

(** The mantissa fits the 24 bits of the format.  Every well-formed
    number satisfies it, and so does every rounded result. *)
Definition in_precision (x : float) : bool :=
  match x with
  | S754_finite _ m _ => Zpos m <? 2 ^ prec
  | _ => true
  end.

Definition is_nan (x : float) : bool :=
  match x with S754_nan => true | _ => false end.

Definition is_finite (x : float) : bool :=
  match x with S754_zero _ | S754_finite _ _ _ => true | _ => false end.

Definition is_zero (x : float) : bool :=
  match x with S754_zero _ => true | _ => false end.

(** Conversion [int -> float], as in [float(i)] and in mixed
    arithmetic such as [2.0f * i]. *)
Definition of_int (n : Z) : float := binary_normalize prec emax n 0 false.

(** A decimal literal [n/d] with [n] and [d] below [2^24]: both are
    exact in binary32, so the correctly rounded quotient is the binary32
    number nearest to the decimal. *)
Definition dec (n d : Z) : float := div (of_int n) (of_int d).

Definition zero : float := S754_zero false.
Definition one : float := Eval vm_compute in of_int 1.

(** The macro [INFINITY] of <cmath>. *)
Definition INFINITY : float := S754_infinity false.

Definition INT_MIN : Z := - 2 ^ 31.
Definition INT_MAX : Z := 2 ^ 31 - 1.

Definition in_int_range (n : Z) : bool := (INT_MIN <=? n) && (n <=? INT_MAX).

(** Conversion [float -> int]: truncation toward zero.  The C++ standard
    leaves the conversion undefined when the truncated value does not fit
    an [int] (NaN and the infinities included); that is [None] here. *)
Definition to_int (x : float) : option Z :=
  match x with
  | S754_zero _ => Some 0
  | S754_finite s m e =>
      let n := cond_Zopp s (Z.shiftl (Zpos m) e) in
      if in_int_range n then Some n else None
  | _ => None
  end.

(** Addition on [int]; signed overflow is undefined. *)
Definition int_add (a b : Z) : option Z :=
  if in_int_range (a + b) then Some (a + b) else None.

(** ** The <cmath> functions the program calls *)

(** [sqrtf] is correctly rounded (IEEE-754 squareRoot). *)
Definition sqrtf : float -> float := SFsqrt prec emax.

(** [fmaxf]: the larger argument; a NaN argument is treated as missing
    data and the other argument is returned. *)
Definition fmaxf (x y : float) : float :=
  match x, y with
  | S754_nan, _ => y
  | _, S754_nan => x
  | _, _ => if ltb x y then y else x
  end.

(** [floor]: the largest integral value not above the argument; zeros,
    infinities and NaN are returned unchanged. *)
Definition floor (x : float) : float :=
  match x with
  | S754_finite s m e =>
      if 0 <=? e then x
      else of_int (Z.shiftl (cond_Zopp s (Zpos m)) e)
  | _ => x
  end.

End F32.

Abbreviation float := F32.float.
Abbreviation INFINITY := F32.INFINITY.

Declare Scope f32_scope.
Delimit Scope f32_scope with f32.
Infix "+" := F32.add : f32_scope.
Infix "-" := F32.sub : f32_scope.
Infix "*" := F32.mul : f32_scope.
Infix "/" := F32.div : f32_scope.
Notation "- x" := (F32.neg x) : f32_scope.
Infix "<?" := F32.ltb : f32_scope.
Infix "<=?" := F32.leb : f32_scope.
Notation "x >? y" := (F32.ltb y x) (only parsing) : f32_scope.
Notation "x >=? y" := (F32.leb y x) (only parsing) : f32_scope.

(** The literals of the program. *)
Module Lit.
Definition f0 : float := F32.zero.
Definition f1 : float := F32.one.
Definition f2 : float := Eval vm_compute in F32.of_int 2.
Definition f5 : float := Eval vm_compute in F32.of_int 5.
Definition f10 : float := Eval vm_compute in F32.of_int 10.
Definition f32 : float := Eval vm_compute in F32.of_int 32.
Definition fm1 : float := Eval vm_compute in F32.of_int (-1).
Definition fm2 : float := Eval vm_compute in F32.of_int (-2).
Definition fm5 : float := Eval vm_compute in F32.of_int (-5).
Definition f0_5 : float := Eval vm_compute in F32.dec 5 10.
Definition f0_75 : float := Eval vm_compute in F32.dec 75 100.
Definition f0_1 : float := Eval vm_compute in F32.dec 1 10.
Definition f0_9 : float := Eval vm_compute in F32.dec 9 10.
Definition f255_999 : float := Eval vm_compute in F32.dec 255999 1000.
(** Not a literal of the program: the test value 0.999999 of the
    specification's quantization boundary. *)
Definition f0_999999 : float := Eval vm_compute in F32.dec 999999 1000000.
End Lit.

(* ================================================================== *)
(** * Vec, Ray, Sphere *)
(* ================================================================== *)

(** Modelled from the spec: [Vec.h] is not part of the sources.  A [Vec]
    holds three [float] components read by [x()], [y()], [z()]; addition,
    subtraction and scaling are componentwise, [dot(a,b)] is
    [a.x*b.x + a.y*b.y + a.z*b.z] and [norm(v)] divides [v] by
    [sqrt(dot(v,v))] without any check. *)
Module Vec.
Record t : Type := mk { x : float; y : float; z : float }.
End Vec.
Abbreviation Vec := Vec.t.

Definition vadd (a b : Vec) : Vec :=
  (Vec.mk (Vec.x a + Vec.x b) (Vec.y a + Vec.y b) (Vec.z a + Vec.z b))%f32.

Definition vsub (a b : Vec) : Vec :=
  (Vec.mk (Vec.x a - Vec.x b) (Vec.y a - Vec.y b) (Vec.z a - Vec.z b))%f32.

Definition vscale (k : float) (a : Vec) : Vec :=
  (Vec.mk (k * Vec.x a) (k * Vec.y a) (k * Vec.z a))%f32.

Definition vdiv (a : Vec) (k : float) : Vec :=
  (Vec.mk (Vec.x a / k) (Vec.y a / k) (Vec.z a / k))%f32.

Definition dot (a b : Vec) : float :=
  (Vec.x a * Vec.x b + Vec.y a * Vec.y b + Vec.z a * Vec.z b)%f32.

Definition norm (v : Vec) : Vec := vdiv v (F32.sqrtf (dot v v)).

Declare Scope vec_scope.
Delimit Scope vec_scope with vec.
Infix "+" := vadd : vec_scope.
Infix "-" := vsub : vec_scope.
Infix "*" := vscale : vec_scope.

(** Modelled from the spec: [Ray.h] is not part of the sources.  A [Ray]
    is an origin [A()] and a direction [B()]; [P(t)] is [A + t*B]. *)
Module Ray.
Record t : Type := mk { A : Vec; B : Vec }.
Definition P (r : t) (k : float) : Vec := (A r + k * B r)%vec.
End Ray.
Abbreviation Ray := Ray.t.

(** Modelled from the spec: [Sphere.h] is not part of the sources.  A
    [Sphere] is a passive record of a center [c()], a radius [r()], a base
    colour [col()] and a reflectivity scalar, in the order in which [main]
    lists them when it builds the scene. *)
Module Sphere.
Record t : Type :=
  mk { c : Vec; r : float; col : Vec; reflectivity : float }.
End Sphere.
Abbreviation Sphere := Sphere.t.

(* ================================================================== *)
(** * Intersection test *)
(* ================================================================== *)

(** [intersect_sphere]: the near root of the ray/sphere quadratic, or
    [INFINITY]. *)
Definition intersect_sphere (s : Sphere) (r : Ray) : float :=
  let Oc := (Ray.A r - Sphere.c s)%vec in
  let b := dot (Ray.B r) Oc in
  let c := (dot Oc Oc - Sphere.r s * Sphere.r s)%f32 in
  let disc := (b * b - c)%f32 in
  if (disc <? Lit.f0)%f32 then INFINITY
  else
    let t := (- b - F32.sqrtf disc)%f32 in
    if (t >? Lit.f0)%f32 then t else INFINITY.

(* ================================================================== *)
(** * Undefined behaviour, loops, output *)
(* ================================================================== *)

(** Computations that may run into undefined behaviour (a conversion to
    [int] that does not fit, an index outside the scene) live in [option];
    [None] is "undefined". *)
Definition bind {A B : Type} (m : option A) (k : A -> option B) : option B :=
  match m with
  | Some a => k a
  | None => None
  end.

Notation "x <- m ;; k" := (bind m (fun x => k))
  (at level 61, m at next level, right associativity).
Notation "' pat <- m ;; k" := (bind m (fun x => match x with pat => k end))
  (at level 61, pat pattern, m at next level, right associativity).

(** [for (int i = lo; i < lo + n; ++i) body] *)
Fixpoint for_up {S : Type} (i : Z) (n : nat)
    (body : Z -> S -> option S) (s : S) : option S :=
  match n with
  | O => Some s
  | Datatypes.S n' => s' <- body i s ;; for_up (i + 1) n' body s'
  end.

(** [for (int j = n - 1; j >= 0; --j) body] *)
Fixpoint for_down {S : Type} (n : nat)
    (body : Z -> S -> option S) (s : S) : option S :=
  match n with
  | O => Some s
  | Datatypes.S n' => s' <- body (Z.of_nat n') s ;; for_down n' body s'
  end.

Definition nl : string := String (ascii_of_nat 10) EmptyString.

(** [std::cout << n] for an [int]. *)
Definition show_int (n : Z) : string := NilZero.string_of_int (Z.to_int n).

(** The mutable globals of the program: the scene vector and the standard
    output stream (the text written so far). *)
Record State : Type := mkState { scene : list Sphere; cout : string }.

Definition emplace_back (s : Sphere) (st : State) : State :=
  mkState (scene st ++ [s]) (cout st).

Definition write (text : string) (st : State) : State :=
  mkState (scene st) (cout st ++ text).

(* ================================================================== *)
(** * The program *)
(* ================================================================== *)

Definition LIGHT : Vec := Vec.mk Lit.fm5 Lit.fm5 Lit.f10.
Definition ORIGIN : Vec := Vec.mk Lit.f0 Lit.f0 Lit.f2.

(** [clip]: quantization of a colour component. *)
Definition clip (c : float) : option Z :=
  if (c <=? Lit.f0)%f32 then Some 0
  else if (c >=? Lit.f1)%f32 then Some 255
  else F32.to_int (c * Lit.f255_999)%f32.

Section Program.

(** [powf] of <cmath>.  The C library does not promise a correctly
    rounded power, so the function is a parameter of the program. *)
Variable powf : float -> float -> float.

(** The constants [WIDTH], [HEIGHT] and [N_SPHERES]; [main] fixes them
    to 1024, 1024 and 10. *)
Variables WIDTH HEIGHT N_SPHERES : Z.

Definition phong_shade (P N V Lpos Kd Ks : Vec) (shin : float) : Vec :=
  let ambient := (Lit.f0_1 * Kd)%vec in
  let L := norm (Lpos - P)%vec in
  let diff := F32.fmaxf (dot N L) Lit.f0 in
  let diffuse := (diff * Kd)%vec in
  let R := norm ((Lit.f2 * dot N L)%f32 * N - L)%vec in
  let spec := powf (F32.fmaxf (dot R V) Lit.f0) shin in
  let specular := (spec * Ks)%vec in
  (ambient + diffuse + specular)%vec.

(** Body of the scene-building loop. *)
Definition make_sphere (i : Z) : Sphere :=
  let y := (Lit.fm1 + F32.of_int i * (Lit.f2 / F32.of_int (N_SPHERES - 1)))%f32 in
  let z := (Lit.fm2 - F32.of_int i * Lit.f0_5)%f32 in
  let t := (F32.of_int (N_SPHERES - i) / F32.of_int N_SPHERES)%f32 in
  let color := Vec.mk t Lit.f0_5 (Lit.f1 - t)%f32 in
  Sphere.mk (Vec.mk Lit.f0 y z) Lit.f0_75 color Lit.f0.

Definition build_scene (st : State) : option State :=
  for_up 0 (Z.to_nat N_SPHERES)
    (fun i st => Some (emplace_back (make_sphere i) st)) st.

(** Normalized screen coordinates of column [i] and of row [j]. *)
Definition coord_u (i : Z) : float :=
  (Lit.fm1 + Lit.f2 * F32.of_int i / F32.of_int (WIDTH - 1))%f32.

Definition coord_v (j : Z) : float :=
  (Lit.fm1 + Lit.f2 * F32.of_int j / F32.of_int (HEIGHT - 1))%f32.

Definition camera_ray (u v : float) : Ray :=
  Ray.mk ORIGIN (norm (Vec.mk u v Lit.f0 - ORIGIN)%vec).

(** Body of the "find closest sphere" loop, on the pair
    [(best_t, hit_id)]. *)
Definition scan_step (sc : list Sphere) (r : Ray) (k : Z)
    (best : float * Z) : option (float * Z) :=
  s <- nth_error sc (Z.to_nat k) ;;
  let t := intersect_sphere s r in
  Some (if (t <? fst best)%f32 then (t, k) else best).

Definition closest (sc : list Sphere) (r : Ray) : option (float * Z) :=
  for_up 0 (Z.to_nat N_SPHERES) (scan_step sc r) (INFINITY, -1).

(** The shading branch. *)
Definition shade_hit (sc : list Sphere) (r : Ray)
    (best_t : float) (hit_id : Z) : option Vec :=
  s <- nth_error sc (Z.to_nat hit_id) ;;
  let P := Ray.P r best_t in
  let N := norm (P - Sphere.c s)%vec in
  let Vc := norm (ORIGIN - P)%vec in
  let Kd := Sphere.col s in
  let Ks := Vec.mk Lit.f1 Lit.f1 Lit.f1 in
  Some (phong_shade P N Vc LIGHT Kd Ks Lit.f32).

(** The checkered background. *)
Definition checker_cell (w : float) : option Z :=
  F32.to_int (F32.floor ((w + Lit.f1) * Lit.f5)%f32).

Definition light_cell : Vec := Vec.mk Lit.f0_9 Lit.f0_9 Lit.f0_9.
Definition dark_cell : Vec := Vec.mk Lit.f0_1 Lit.f0_1 Lit.f0_1.

Definition background (u v : float) : option Vec :=
  ix <- checker_cell u ;;
  iy <- checker_cell v ;;
  sum <- F32.int_add ix iy ;;
  let white := Z.land sum 1 =? 0 in
  Some (if white then light_cell else dark_cell).

Definition pixel_color (sc : list Sphere) (u v : float) : option Vec :=
  let r := camera_ray u v in
  '(best_t, hit_id) <- closest sc r ;;
  if 0 <=? hit_id then shade_hit sc r best_t hit_id
  else background u v.

(** One line of the image: the three quantized channels. *)
Definition pixel_line (rgb : Z * Z * Z) : string :=
  let '(cr, cg, cb) := rgb in
  (show_int cr ++ " " ++ show_int cg ++ " " ++ show_int cb ++ nl)%string.

Definition quantize (color : Vec) : option (Z * Z * Z) :=
  cr <- clip (Vec.x color) ;;
  cg <- clip (Vec.y color) ;;
  cb <- clip (Vec.z color) ;;
  Some (cr, cg, cb).

(** Body of the inner pixel loop. *)
Definition pixel (i j : Z) (st : State) : option State :=
  let u := coord_u i in
  let v := coord_v j in
  pixelColor <- pixel_color (scene st) u v ;;
  rgb <- quantize pixelColor ;;
  Some (write (pixel_line rgb) st).

Definition header : string :=
  ("P3" ++ nl ++ show_int WIDTH ++ " " ++ show_int HEIGHT ++ nl
     ++ "255" ++ nl)%string.

Definition render (st : State) : option State :=
  for_down (Z.to_nat HEIGHT)
    (fun j st => for_up 0 (Z.to_nat WIDTH) (fun i st => pixel i j st) st)
    st.

(** The whole of [main], with the three constants still free. *)
Definition program (st : State) : option (Z * State) :=
  st <- build_scene st ;;
  let st := write header st in
  st <- render st ;;
  Some (0, st).

End Program.

(** [main], for a given C library [powf]. *)
Definition main (powf : float -> float -> float) (st : State)
  : option (Z * State) :=
  program powf 1024 1024 10 st.

(** The state in which [main] starts: the scene vector is empty and
    nothing has been written. *)
Definition initial_state : State := mkState [] EmptyString.

(** A reference [powf] for evaluating the model: repeated multiplication
    for a small non-negative integral exponent. *)
Definition powf_ref (x y : float) : float :=
  match F32.to_int y with
  | Some n =>
      if (0 <=? n) && (n <=? 64) && F32.is_finite (F32.floor y)
      then Nat.iter (Z.to_nat n) (fun a => (a * x)%f32) Lit.f1
      else S754_nan
  | None => S754_nan
  end.

(* ================================================================== *)
(** * Facts about binary32 comparison *)
(* ================================================================== *)

Module F32Facts.

Lemma compare_cont_Eq (p q : positive) :
  Pos.compare_cont Eq p q = Pos.compare p q.
Proof. reflexivity. Qed.

(** [t <= 0] excludes [t > 0]. *)
Lemma leb_zero_not_gt (t : float) :
  (t <=? Lit.f0)%f32 = true -> (t >? Lit.f0)%f32 = false.
Proof.
  destruct t as [s | s | | s m e]; try destruct s; simpl;
    unfold F32.leb, F32.ltb, SFleb, SFltb; simpl; congruence.
Qed.

Lemma ltb_irrefl (t : float) : (t <? t)%f32 = false.
Proof.
  destruct t as [s | s | | s m e]; try destruct s;
    unfold F32.ltb, SFltb; simpl; try reflexivity;
    rewrite Z.compare_refl, compare_cont_Eq, Pos.compare_refl; reflexivity.
Qed.

(** A hit distance: [INFINITY], or a finite strictly positive number. *)
Definition is_dist (t : float) : bool :=
  match t with
  | S754_infinity false | S754_finite false _ _ => true
  | _ => false
  end.

Lemma gt_zero_is_dist (t : float) :
  (t >? Lit.f0)%f32 = true -> is_dist t = true.
Proof.
  destruct t as [s | s | | s m e]; try destruct s;
    unfold F32.ltb, SFltb; simpl; congruence.
Qed.

Lemma is_dist_gt_zero (t : float) :
  is_dist t = true -> (t >? Lit.f0)%f32 = true.
Proof.
  destruct t as [s | s | | s m e]; try destruct s; simpl;
    unfold F32.ltb, SFltb; simpl; congruence.
Qed.

Lemma is_dist_not_nan (t : float) : is_dist t = true -> F32.is_nan t = false.
Proof. destruct t as [s | s | | s m e]; simpl; congruence. Qed.

(** Below [INFINITY] a hit distance is a finite positive number. *)
Lemma dist_lt_inf (t : float) :
  is_dist t = true ->
  (t <? INFINITY)%f32 = true ->
  exists m e, t = S754_finite false m e.
Proof.
  destruct t as [s | s | | s m e]; try destruct s; simpl;
    unfold F32.ltb, SFltb; simpl; try congruence.
  intros _ _. exists m, e. reflexivity.
Qed.

Lemma dist_not_lt_inf (t : float) :
  is_dist t = true -> (t <? INFINITY)%f32 = false -> t = INFINITY.
Proof.
  destruct t as [s | s | | s m e]; try destruct s; simpl;
    unfold F32.ltb, SFltb; simpl; intros;
    first [reflexivity | congruence].
Qed.

Lemma lt_inf_neq (t : float) : (t <? INFINITY)%f32 = true -> t <> INFINITY.
Proof. intros H E. rewrite E, ltb_irrefl in H. discriminate. Qed.

Ltac order_cases :=
  unfold F32.ltb, F32.leb, SFltb, SFleb; simpl;
  repeat match goal with
    | |- context [ Z.compare ?a ?b ] => destruct (Z.compare_spec a b)
    | |- context [ Pos.compare_cont Eq ?p ?q ] =>
        change (Pos.compare_cont Eq p q) with (Pos.compare p q);
        destruct (Pos.compare_spec p q)
    end;
  simpl; intros; first [reflexivity | congruence | lia].

Lemma dist_leb_refl (t : float) : is_dist t = true -> (t <=? t)%f32 = true.
Proof.
  destruct t as [s | s | | s m e]; try destruct s; simpl; try congruence;
    intros _; order_cases.
Qed.

(** On hit distances the order is total. *)
Lemma dist_not_lt_leb (a b : float) :
  is_dist a = true -> is_dist b = true ->
  (a <? b)%f32 = false -> (b <=? a)%f32 = true.
Proof.
  destruct a as [s | s | | s m e]; try destruct s; simpl; try congruence;
    destruct b as [s' | s' | | s' m' e']; try destruct s'; simpl;
    try congruence; intros _ _; order_cases.
Qed.

Lemma dist_lt_leb (a b : float) :
  (a <? b)%f32 = true -> (a <=? b)%f32 = true.
Proof.
  unfold F32.ltb, F32.leb, SFltb, SFleb.
  destruct (SFcompare a b) as [[ | | ] | ]; congruence.
Qed.

Lemma dist_lt_le_trans (a b c : float) :
  is_dist a = true -> is_dist b = true -> is_dist c = true ->
  (a <? b)%f32 = true -> (b <=? c)%f32 = true -> (a <? c)%f32 = true.
Proof.
  destruct a as [s | s | | s m e]; try destruct s; simpl; try congruence;
    destruct b as [s' | s' | | s' m' e']; try destruct s'; simpl;
    try congruence;
    destruct c as [s'' | s'' | | s'' m'' e'']; try destruct s''; simpl;
    try congruence; intros _ _ _; order_cases.
Qed.

Lemma dist_le_trans (a b c : float) :
  is_dist a = true -> is_dist b = true -> is_dist c = true ->
  (a <=? b)%f32 = true -> (b <=? c)%f32 = true -> (a <=? c)%f32 = true.
Proof.
  destruct a as [s | s | | s m e]; try destruct s; simpl; try congruence;
    destruct b as [s' | s' | | s' m' e']; try destruct s'; simpl;
    try congruence;
    destruct c as [s'' | s'' | | s'' m'' e'']; try destruct s''; simpl;
    try congruence; intros _ _ _; order_cases.
Qed.

Lemma dist_leb_inf (t : float) :
  is_dist t = true -> (t <=? INFINITY)%f32 = true.
Proof.
  destruct t as [s | s | | s m e]; try destruct s; simpl; try congruence;
    intros _; reflexivity.
Qed.

End F32Facts.

(* ================================================================== *)
(** * Intersection test: properties *)
(* ================================================================== *)

Lemma intersect_sphere_is_dist (s : Sphere) (r : Ray) :
  F32Facts.is_dist (intersect_sphere s r) = true.
Proof.
  unfold intersect_sphere.
  destruct (F32.ltb _ Lit.f0); [reflexivity | ].
  destruct (F32.ltb Lit.f0 _) eqn:E; [ | reflexivity].
  apply F32Facts.gt_zero_is_dist; exact E.
Qed.

(** C1. [intersect_sphere] computes [oc], [b], [c] and [disc] as the
    specification lists them; it answers [INFINITY] when [disc < 0];
    otherwise, with [t = -b - sqrt(disc)], it answers [INFINITY] when
    [t <= 0] and [t] itself when [t > 0]. *)
Theorem intersect_sphere_spec (s : Sphere) (r : Ray) :
  let oc := (Ray.A r - Sphere.c s)%vec in
  let b := dot (Ray.B r) oc in
  let c := (dot oc oc - Sphere.r s * Sphere.r s)%f32 in
  let disc := (b * b - c)%f32 in
  let t := (- b - F32.sqrtf disc)%f32 in
  ((disc <? Lit.f0)%f32 = true -> intersect_sphere s r = INFINITY) /\
  ((disc <? Lit.f0)%f32 = false -> (t <=? Lit.f0)%f32 = true ->
     intersect_sphere s r = INFINITY) /\
  ((disc <? Lit.f0)%f32 = false -> (t >? Lit.f0)%f32 = true ->
     intersect_sphere s r = t).
Proof.
  intros oc b c disc t. unfold intersect_sphere.
  fold oc. fold b. fold c. fold disc. fold t.
  repeat split.
  - intros ->. reflexivity.
  - intros -> Hle. rewrite (F32Facts.leb_zero_not_gt _ Hle). reflexivity.
  - intros -> ->. reflexivity.
Qed.

(** The tests of the specification, on a sphere of radius 0.75 centred at
    the origin. *)
Definition unit_test_sphere : Sphere :=
  Sphere.mk (Vec.mk Lit.f0 Lit.f0 Lit.f0) Lit.f0_75
    (Vec.mk Lit.f1 Lit.f1 Lit.f1) Lit.f0.

(** From (0,0,2) towards (0,0,-1): the hit is at distance 2 - 0.75. *)
Example intersect_head_on :
  intersect_sphere unit_test_sphere
    (Ray.mk (Vec.mk Lit.f0 Lit.f0 Lit.f2) (Vec.mk Lit.f0 Lit.f0 Lit.fm1))
  = F32.dec 125 100.
Proof. vm_compute. reflexivity. Qed.

(** A ray that passes at distance 2 of the centre misses. *)
Example intersect_miss :
  intersect_sphere unit_test_sphere
    (Ray.mk (Vec.mk Lit.f2 Lit.f0 Lit.f2) (Vec.mk Lit.f0 Lit.f0 Lit.fm1))
  = INFINITY.
Proof. vm_compute. reflexivity. Qed.

(** A ray that leaves the sphere behind it misses, and so does a ray that
    starts on the sphere and points inwards: its near root is 0. *)
Example intersect_behind :
  intersect_sphere unit_test_sphere
    (Ray.mk (Vec.mk Lit.f0 Lit.f0 Lit.f2) (Vec.mk Lit.f0 Lit.f0 Lit.f1))
  = INFINITY.
Proof. vm_compute. reflexivity. Qed.

Example intersect_at_origin :
  intersect_sphere unit_test_sphere
    (Ray.mk (Vec.mk Lit.f0 Lit.f0 Lit.f0_75) (Vec.mk Lit.f0 Lit.f0 Lit.fm1))
  = INFINITY.
Proof. vm_compute. reflexivity. Qed.

(* ================================================================== *)
(** * The loops *)
(* ================================================================== *)

(** A loop that keeps an invariant, and whose body is defined wherever the
    invariant holds, runs to completion and ends in the invariant. *)
Lemma for_up_invariant {St : Type} (Inv : Z -> St -> Prop)
    (body : Z -> St -> option St) :
  forall (n : nat) (lo : Z) (s : St),
    (forall k st, lo <= k < lo + Z.of_nat n -> Inv k st ->
       exists st', body k st = Some st' /\ Inv (k + 1) st') ->
    Inv lo s ->
    exists s', for_up lo n body s = Some s' /\ Inv (lo + Z.of_nat n) s'.
Proof.
  induction n as [ | n IH]; intros lo s Hstep Hinv.
  - exists s. split; [reflexivity | ].
    replace (lo + Z.of_nat 0) with lo by lia. exact Hinv.
  - destruct (Hstep lo s) as [s1 [E1 I1]]; [lia | exact Hinv | ].
    destruct (IH (lo + 1) s1) as [s2 [E2 I2]].
    + intros k st Hk. apply Hstep. lia.
    + exact I1.
    + exists s2. split.
      * simpl. rewrite E1. simpl. exact E2.
      * replace (lo + Z.of_nat (S n)) with (lo + 1 + Z.of_nat n) by lia.
        exact I2.
Qed.

Lemma nth_error_defined {A : Type} (l : list A) (k : Z) :
  0 <= k < Z.of_nat (List.length l) ->
  exists a, nth_error l (Z.to_nat k) = Some a.
Proof.
  intros Hk.
  destruct (nth_error l (Z.to_nat k)) as [a | ] eqn:E.
  - exists a. reflexivity.
  - apply nth_error_None in E. lia.
Qed.

(* ================================================================== *)
(** * The scan for the closest sphere *)
(* ================================================================== *)

Section Scan.

Variable sc : list Sphere.
Variable r : Ray.

(** What the pair [(best_t, hit_id)] records once the spheres of index
    below [k] have been tested. *)
Definition scan_inv (k : Z) (best : float * Z) : Prop :=
  let '(bt, id) := best in
  (id = -1 /\ bt = INFINITY /\
   forall j s, 0 <= j < k -> nth_error sc (Z.to_nat j) = Some s ->
     intersect_sphere s r = INFINITY)
  \/
  (0 <= id < k /\
   (exists s, nth_error sc (Z.to_nat id) = Some s /\
              bt = intersect_sphere s r) /\
   (bt <? INFINITY)%f32 = true /\
   (forall j s, 0 <= j < k -> nth_error sc (Z.to_nat j) = Some s ->
      (bt <=? intersect_sphere s r)%f32 = true) /\
   (forall j s, 0 <= j < id -> nth_error sc (Z.to_nat j) = Some s ->
      (bt <? intersect_sphere s r)%f32 = true)).

Lemma scan_inv_init : scan_inv 0 (INFINITY, -1).
Proof. left. repeat split. intros j s Hj. lia. Qed.

Lemma scan_step_inv (k : Z) (best : float * Z) :
  0 <= k < Z.of_nat (List.length sc) ->
  scan_inv k best ->
  exists best', scan_step sc r k best = Some best' /\ scan_inv (k + 1) best'.
Proof.
  intros Hk Hinv. unfold scan_step.
  destruct (nth_error_defined sc k Hk) as [s Es]. rewrite Es. simpl.
  pose proof (intersect_sphere_is_dist s r) as Dt.
  set (t := intersect_sphere s r) in *.
  destruct best as [bt id]. simpl fst.
  eexists. split; [reflexivity | ].
  destruct (F32.ltb t bt) eqn:Elt.
  - (* the sphere [k] is strictly nearer: it becomes the best *)
    right.
    assert (Hinf : (t <? INFINITY)%f32 = true).
    { destruct Hinv as [[_ [-> _]] | [_ [[s0 [_ ->]] [Hb _]]]].
      - exact Elt.
      - apply (F32Facts.dist_lt_le_trans t (intersect_sphere s0 r) INFINITY);
          [ exact Dt | apply intersect_sphere_is_dist | reflexivity
          | exact Elt | apply F32Facts.dist_lt_leb; exact Hb ]. }
    split; [lia | ]. split; [exists s; split; [exact Es | reflexivity] | ].
    split; [exact Hinf | ].
    assert (Hlt : forall j s', 0 <= j < k ->
              nth_error sc (Z.to_nat j) = Some s' ->
              (t <? intersect_sphere s' r)%f32 = true).
    { intros j s' Hj Ej.
      destruct Hinv as [[_ [_ Hall]] | [_ [[s0 [_ E0]] [_ [Hle _]]]]].
      - rewrite (Hall j s' Hj Ej). exact Hinf.
      - apply (F32Facts.dist_lt_le_trans t bt);
          [ exact Dt | rewrite E0; apply intersect_sphere_is_dist
          | apply intersect_sphere_is_dist | exact Elt
          | apply (Hle j s' Hj Ej) ]. }
    split.
    + intros j s' Hj Ej.
      destruct (Z.eq_dec j k) as [-> | Hne].
      * rewrite Es in Ej. injection Ej as <-.
        apply F32Facts.dist_leb_refl. exact Dt.
      * apply F32Facts.dist_lt_leb. apply (Hlt j s'); [lia | exact Ej].
    + exact Hlt.
  - (* the sphere [k] is not strictly nearer: the best is kept *)
    destruct Hinv as [[-> [-> Hall]] | [Hid [Hs [Hb [Hle Hfirst]]]]].
    + left. repeat split.
      intros j s' Hj Ej.
      destruct (Z.eq_dec j k) as [-> | Hne].
      * rewrite Es in Ej. injection Ej as <-.
        apply F32Facts.dist_not_lt_inf; assumption.
      * apply (Hall j s'); [lia | exact Ej].
    + right. split; [lia | ]. split; [exact Hs | ]. split; [exact Hb | ].
      split; [ | exact Hfirst].
      intros j s' Hj Ej.
      destruct (Z.eq_dec j k) as [-> | Hne].
      * rewrite Es in Ej. injection Ej as <-.
        destruct Hs as [s0 [_ E0]].
        apply F32Facts.dist_not_lt_leb;
          [ exact Dt | rewrite E0; apply intersect_sphere_is_dist
          | exact Elt ].
      * apply (Hle j s'); [lia | exact Ej].
Qed.

(** The scan over [N_SPHERES] spheres is defined as soon as the scene
    holds that many, and ends in the invariant. *)
Lemma closest_inv (N_SPHERES : Z) :
  0 <= N_SPHERES <= Z.of_nat (List.length sc) ->
  exists best, closest N_SPHERES sc r = Some best /\ scan_inv N_SPHERES best.
Proof.
  intros HN. unfold closest.
  destruct (for_up_invariant scan_inv (scan_step sc r)
              (Z.to_nat N_SPHERES) 0 (INFINITY, -1)) as [best [E I]].
  - intros k st Hk. apply scan_step_inv. lia.
  - apply scan_inv_init.
  - exists best. split; [exact E | ].
    replace (0 + Z.of_nat (Z.to_nat N_SPHERES)) with N_SPHERES in I by lia.
    exact I.
Qed.

End Scan.

(* ================================================================== *)
(** * The scene of [main] *)
(* ================================================================== *)

(** The integers [lo], [lo + 1], ..., [lo + n - 1]. *)
Fixpoint zseq (lo : Z) (n : nat) : list Z :=
  match n with
  | O => []
  | S n' => lo :: zseq (lo + 1) n'
  end.

Lemma zseq_length (lo : Z) (n : nat) : List.length (zseq lo n) = n.
Proof. revert lo. induction n; intros lo; simpl; [ | rewrite IHn]; reflexivity. Qed.

Lemma emplace_back_loop (f : Z -> Sphere) (n : nat) :
  forall (lo : Z) (st : State),
    for_up lo n (fun i st => Some (emplace_back (f i) st)) st
    = Some (mkState (scene st ++ map f (zseq lo n)) (cout st)).
Proof.
  induction n as [ | n IH]; intros lo st; simpl.
  - rewrite app_nil_r. destruct st; reflexivity.
  - rewrite IH. simpl. rewrite <- app_assoc. reflexivity.
Qed.

Lemma build_scene_eq (N_SPHERES : Z) (st : State) :
  build_scene N_SPHERES st
  = Some (mkState
            (scene st ++ map (make_sphere N_SPHERES) (zseq 0 (Z.to_nat N_SPHERES)))
            (cout st)).
Proof. unfold build_scene. apply emplace_back_loop. Qed.

(** The ten spheres that [main] stacks. *)
Definition main_scene : list Sphere :=
  Eval vm_compute in map (make_sphere 10) (zseq 0 10).

Lemma main_scene_eq : main_scene = map (make_sphere 10) (zseq 0 (Z.to_nat 10)).
Proof. vm_compute. reflexivity. Qed.

Lemma main_scene_length : List.length main_scene = 10%nat.
Proof. reflexivity. Qed.

(* ================================================================== *)
(** * Closest hit: the claims *)
(* ================================================================== *)

(** C3. With the ten spheres of the scene in place, the scan tests every
    one of them and is defined.  Either no sphere is hit, and the pair
    stays [(INFINITY, -1)]; or [hit_id] is the index of a sphere whose
    distance [best_t] is finite, positive and minimal over all ten, every
    sphere scanned before [hit_id] is strictly farther, and so a sphere
    at exactly the distance [best_t] never precedes [hit_id]. *)
Theorem closest_first_minimum (sc : list Sphere) (r : Ray) :
  List.length sc = 10%nat ->
  exists best_t hit_id,
    closest 10 sc r = Some (best_t, hit_id) /\
    ((hit_id = -1 /\ best_t = INFINITY /\
      forall k s, 0 <= k < 10 -> nth_error sc (Z.to_nat k) = Some s ->
        intersect_sphere s r = INFINITY)
     \/
     (0 <= hit_id < 10 /\
      (exists s, nth_error sc (Z.to_nat hit_id) = Some s /\
                 best_t = intersect_sphere s r) /\
      (best_t >? Lit.f0)%f32 = true /\
      (best_t <? INFINITY)%f32 = true /\
      (forall k s, 0 <= k < 10 -> nth_error sc (Z.to_nat k) = Some s ->
         (best_t <=? intersect_sphere s r)%f32 = true) /\
      (forall k s, 0 <= k < hit_id -> nth_error sc (Z.to_nat k) = Some s ->
         (best_t <? intersect_sphere s r)%f32 = true) /\
      (forall k s, 0 <= k < 10 -> nth_error sc (Z.to_nat k) = Some s ->
         intersect_sphere s r = best_t -> hit_id <= k))).
Proof.
  intros Hlen.
  destruct (closest_inv sc r 10) as [[bt id] [E I]]; [rewrite Hlen; lia | ].
  exists bt, id. split; [exact E | ].
  destruct I as [Hmiss | [Hid [Hs [Hb [Hle Hfirst]]]]]; [left; exact Hmiss | ].
  right. split; [exact Hid | ]. split; [exact Hs | ].
  split.
  { destruct Hs as [s [_ ->]].
    apply F32Facts.is_dist_gt_zero, intersect_sphere_is_dist. }
  split; [exact Hb | ]. split; [exact Hle | ]. split; [exact Hfirst | ].
  intros k s Hk Ek Eq.
  destruct (Z_lt_le_dec k id) as [Hlt | Hge]; [ | exact Hge].
  specialize (Hfirst k s (conj (proj1 Hk) Hlt) Ek).
  rewrite Eq, F32Facts.ltb_irrefl in Hfirst. discriminate.
Qed.

(** The ray through the middle of the image plane. *)
Definition axis_ray : Ray := Eval vm_compute in camera_ray Lit.f0 Lit.f0.

Lemma closest_first_minimum_witness :
  List.length main_scene = 10%nat /\
  exists best_t hit_id, closest 10 main_scene axis_ray = Some (best_t, hit_id).
Proof.
  split; [reflexivity | ].
  destruct (closest_first_minimum main_scene axis_ray eq_refl)
    as [bt [id [E _]]].
  exists bt, id. exact E.
Defined.

(** C10. After the scan over the ten spheres, [hit_id] is non-negative
    exactly when [best_t] is finite, which is exactly when some sphere
    answered something else than [INFINITY].  Whenever the shading branch
    is taken, [hit_id] is a valid index into the scene, [best_t] is the
    finite, strictly positive answer of [intersect_sphere] for the sphere
    at that index, and the point [r.P(best_t)] that is shaded is therefore
    computed from a finite parameter, never from [INFINITY]. *)
Theorem hit_id_guards_shading (powf : float -> float -> float)
    (sc : list Sphere) (r : Ray) :
  List.length sc = 10%nat ->
  exists best_t hit_id,
    closest 10 sc r = Some (best_t, hit_id) /\
    (0 <= hit_id <-> F32.is_finite best_t = true) /\
    (0 <= hit_id <-> best_t <> INFINITY) /\
    (0 <= hit_id <->
       exists k s, 0 <= k < 10 /\ nth_error sc (Z.to_nat k) = Some s /\
                   intersect_sphere s r <> INFINITY) /\
    (0 <= hit_id ->
       hit_id < 10 /\
       exists s,
         nth_error sc (Z.to_nat hit_id) = Some s /\
         best_t = intersect_sphere s r /\
         (best_t >? Lit.f0)%f32 = true /\
         (exists m e, best_t = S754_finite false m e) /\
         shade_hit powf sc r best_t hit_id
         = Some (phong_shade powf (Ray.P r best_t)
                   (norm (Ray.P r best_t - Sphere.c s)%vec)
                   (norm (ORIGIN - Ray.P r best_t)%vec)
                   LIGHT (Sphere.col s)
                   (Vec.mk Lit.f1 Lit.f1 Lit.f1) Lit.f32)) /\
    (forall u v, r = camera_ray u v ->
       pixel_color powf 10 sc u v
       = if 0 <=? hit_id then shade_hit powf sc r best_t hit_id
         else background u v).
Proof.
  intros Hlen.
  destruct (closest_inv sc r 10) as [[bt id] [E I]]; [rewrite Hlen; lia | ].
  exists bt, id. split; [exact E | ].
  assert (Hpix : forall u v, r = camera_ray u v ->
            pixel_color powf 10 sc u v
            = if 0 <=? id then shade_hit powf sc r bt id else background u v).
  { intros u v ->. unfold pixel_color. rewrite E. reflexivity. }
  destruct I as [[-> [-> Hall]] | [Hid [[s [Es Ebt]] [Hb [Hle Hfirst]]]]].
  - (* no sphere is hit *)
    split; [split; [lia | discriminate] | ].
    split; [split; [lia | congruence] | ].
    split.
    { split; [lia | ]. intros [k [s [Hk [Ek Hne]]]].
      elim Hne. apply (Hall k s Hk Ek). }
    split; [lia | exact Hpix].
  - (* the sphere [id] is hit *)
    pose proof (intersect_sphere_is_dist s r) as Ds. rewrite <- Ebt in Ds.
    destruct (F32Facts.dist_lt_inf bt Ds Hb) as [m [e Efin]].
    split; [split; [intros _; rewrite Efin; reflexivity | lia] | ].
    split; [split; [intros _; apply F32Facts.lt_inf_neq; exact Hb | lia] | ].
    split.
    { split; [ | lia]. intros _. exists id, s.
      split; [lia | ]. split; [exact Es | ].
      rewrite <- Ebt. apply F32Facts.lt_inf_neq; exact Hb. }
    split; [ | exact Hpix].
    intros _. split; [lia | ]. exists s.
    split; [exact Es | ]. split; [exact Ebt | ].
    split; [apply F32Facts.is_dist_gt_zero; exact Ds | ].
    split; [exists m, e; exact Efin | ].
    unfold shade_hit. rewrite Es. reflexivity.
Qed.

Lemma hit_id_guards_shading_witness :
  List.length main_scene = 10%nat /\
  exists best_t hit_id,
    closest 10 main_scene axis_ray = Some (best_t, hit_id) /\
    (0 <= hit_id <-> F32.is_finite best_t = true).
Proof.
  split; [reflexivity | ].
  destruct (hit_id_guards_shading (fun x _ => x) main_scene axis_ray eq_refl)
    as [bt [id [E [F _]]]].
  exists bt, id. split; [exact E | exact F].
Defined.

(* ================================================================== *)
(** * Shading *)
(* ================================================================== *)

Lemma fmaxf_negative (a : float) :
  (a <? Lit.f0)%f32 = true -> F32.fmaxf a Lit.f0 = Lit.f0.
Proof.
  destruct a as [s | s | | s m e]; try destruct s;
    unfold F32.ltb, SFltb; simpl; intros H;
    first [discriminate H | reflexivity].
Qed.

Lemma mul_zero_not_negative (k : float) :
  (Lit.f0 * k <? Lit.f0)%f32 = false.
Proof. destruct k as [s | s | | s m e]; try destruct s; reflexivity. Qed.

Lemma mul_zero_finite (k : float) :
  F32.is_finite k = true -> F32.is_zero (Lit.f0 * k)%f32 = true.
Proof.
  destruct k as [s | s | | s m e]; simpl; intros H;
    first [discriminate H | reflexivity].
Qed.

(** C2. [phong_shade] answers the componentwise sum
    [ambient + diffuse + specular] of the three terms of the
    specification, without clamping.  When [dot(N,L) < 0] the diffuse
    intensity is clamped to exactly [+0]; no component of the diffuse term
    is then negative, and each is a zero for a finite diffuse colour. *)
Theorem phong_shade_spec (powf : float -> float -> float)
    (P N V Lpos Kd Ks : Vec) (shin : float) :
  let ambient := (Lit.f0_1 * Kd)%vec in
  let L := norm (Lpos - P)%vec in
  let diff := F32.fmaxf (dot N L) Lit.f0 in
  let diffuse := (diff * Kd)%vec in
  let R := norm ((Lit.f2 * dot N L)%f32 * N - L)%vec in
  let spec := powf (F32.fmaxf (dot R V) Lit.f0) shin in
  let specular := (spec * Ks)%vec in
  let result := phong_shade powf P N V Lpos Kd Ks shin in
  result = (ambient + diffuse + specular)%vec /\
  Vec.x result
    = (Lit.f0_1 * Vec.x Kd + diff * Vec.x Kd + spec * Vec.x Ks)%f32 /\
  Vec.y result
    = (Lit.f0_1 * Vec.y Kd + diff * Vec.y Kd + spec * Vec.y Ks)%f32 /\
  Vec.z result
    = (Lit.f0_1 * Vec.z Kd + diff * Vec.z Kd + spec * Vec.z Ks)%f32 /\
  ((dot N L <? Lit.f0)%f32 = true ->
     diff = Lit.f0 /\
     (Vec.x diffuse <? Lit.f0)%f32 = false /\
     (Vec.y diffuse <? Lit.f0)%f32 = false /\
     (Vec.z diffuse <? Lit.f0)%f32 = false /\
     (F32.is_finite (Vec.x Kd) = true -> F32.is_zero (Vec.x diffuse) = true) /\
     (F32.is_finite (Vec.y Kd) = true -> F32.is_zero (Vec.y diffuse) = true) /\
     (F32.is_finite (Vec.z Kd) = true -> F32.is_zero (Vec.z diffuse) = true)).
Proof.
  intros ambient L diff diffuse R spec specular result.
  repeat (split; [reflexivity | ]).
  intros Hneg.
  assert (Hd : diff = Lit.f0) by (apply fmaxf_negative; exact Hneg).
  unfold diffuse. rewrite Hd. simpl.
  repeat split;
    first [ apply mul_zero_not_negative | apply mul_zero_finite ].
Qed.

(** A surface at the origin that faces away from the light: the diffuse
    intensity is clamped to zero. *)
Example phong_shade_facing_away :
  let N := Vec.mk Lit.f0 Lit.f0 Lit.fm1 in
  let L := norm (LIGHT - Vec.mk Lit.f0 Lit.f0 Lit.f0)%vec in
  (dot N L <? Lit.f0)%f32 = true /\
  F32.fmaxf (dot N L) Lit.f0 = Lit.f0.
Proof. split; vm_compute; reflexivity. Qed.

(** C2, the case that the wording "for every diffuse colour" overlooks: a
    surface at the origin that faces away from the light, with an infinite
    red component of the diffuse colour.  The diffuse intensity is
    clamped to [+0], but [0 * inf] is NaN in binary32: the red component
    of the diffuse term is NaN, not 0, and so is the red component of the
    colour that [phong_shade] returns. *)
Lemma phong_shade_diffuse_not_zero :
  let P := Vec.mk Lit.f0 Lit.f0 Lit.f0 in
  let N := Vec.mk Lit.f0 Lit.f0 Lit.fm1 in
  let V := Vec.mk Lit.f0 Lit.f0 Lit.f1 in
  let Kd := Vec.mk (S754_infinity false) Lit.f0_5 Lit.f0_5 in
  let Ks := Vec.mk Lit.f1 Lit.f1 Lit.f1 in
  let L := norm (LIGHT - P)%vec in
  let diffuse := (F32.fmaxf (dot N L) Lit.f0 * Kd)%vec in
  (dot N L <? Lit.f0)%f32 = true /\
  F32.fmaxf (dot N L) Lit.f0 = Lit.f0 /\
  Vec.x diffuse = S754_nan /\
  F32.is_zero (Vec.x diffuse) = false /\
  Vec.x (phong_shade powf_ref P N V LIGHT Kd Ks Lit.f32) = S754_nan.
Proof. vm_compute. repeat split. Qed.

(* ================================================================== *)
(** * Rounding: an upper bound on the rounded mantissa *)
(* ================================================================== *)

Module RoundFacts.

Lemma digits2_pos_size (p : positive) : digits2_pos p = Pos.size p.
Proof. induction p; simpl; congruence. Qed.

(** A positive number is below two to the number of its digits. *)
Lemma digits2_pos_gt (p : positive) : Zpos p < 2 ^ Zpos (digits2_pos p).
Proof.
  rewrite digits2_pos_size.
  pose proof (Pos.size_gt p) as H.
  apply Pos2Z.pos_lt_pos in H. rewrite Pos2Z.inj_pow in H. exact H.
Qed.

(** ... and at least two to that number less one. *)
Lemma digits2_pos_le (p : positive) : 2 ^ (Zpos (digits2_pos p) - 1) <= Zpos p.
Proof.
  rewrite digits2_pos_size.
  pose proof (Pos.size_le p) as H.
  apply Pos2Z.pos_le_pos in H. rewrite Pos2Z.inj_pow in H.
  replace (Zpos (Pos.size p)) with (1 + (Zpos (Pos.size p) - 1)) in H by lia.
  rewrite Z.pow_add_r in H by lia.
  change (Zpos p~0) with (2 * Zpos p) in H. lia.
Qed.

(** A number below [2^k] has at most [k] digits. *)
Lemma digits2_pos_bound (p : positive) (k : Z) :
  Zpos p < 2 ^ k -> Zpos (digits2_pos p) <= k.
Proof.
  intros H.
  destruct (Z_le_gt_dec (Zpos (digits2_pos p)) k) as [ | Hgt]; [assumption | ].
  pose proof (digits2_pos_le p) as Hle.
  assert (2 ^ k <= 2 ^ (Zpos (digits2_pos p) - 1)).
  { destruct (Z_lt_le_dec k 0) as [Hk | Hk].
    - rewrite (Z.pow_neg_r 2 k Hk). apply Z.pow_nonneg. lia.
    - apply Z.pow_le_mono_r; lia. }
  lia.
Qed.

Lemma shr_1_m (mrs : shr_record) :
  0 <= shr_m mrs -> shr_m (shr_1 mrs) = shr_m mrs / 2.
Proof.
  destruct mrs as [m r s]. cbn [shr_m]. intros Hm.
  destruct m as [ | [p | p | ] | p]; cbn [shr_1 shr_m]; try lia.
  - reflexivity.
  - apply (Z.div_unique (Zpos p~1) 2 (Zpos p) 1); lia.
  - apply (Z.div_unique (Zpos p~0) 2 (Zpos p) 0); lia.
  - reflexivity.
Qed.

Lemma iter_shr_1_nonneg_m (p : positive) :
  forall mrs, 0 <= shr_m mrs ->
    0 <= shr_m (iter_pos shr_1 p mrs) /\
    shr_m (iter_pos shr_1 p mrs) = shr_m mrs / 2 ^ Zpos p.
Proof.
  assert (Hpow : forall k, 0 < 2 ^ Zpos k)
    by (intros k; apply Z.pow_pos_nonneg; lia).
  assert (Hstep : forall mrs, 0 <= shr_m mrs -> 0 <= shr_m (shr_1 mrs)).
  { intros mrs Hm. rewrite shr_1_m by exact Hm. apply Z.div_pos; lia. }
  induction p as [p IH | p IH | ]; intros mrs Hm; cbn [iter_pos].
  - destruct (IH (shr_1 mrs) (Hstep mrs Hm)) as [Hb0 Hb].
    destruct (IH _ Hb0) as [Hc0 Hc].
    split; [exact Hc0 | ].
    rewrite Hc, Hb, shr_1_m by exact Hm.
    rewrite !Z.div_div by (pose proof (Hpow p); lia).
    f_equal.
    replace (Zpos p~1) with (1 + Zpos p + Zpos p) by lia.
    rewrite !Z.pow_add_r by lia. change (2 ^ 1) with 2. ring.
  - destruct (IH mrs Hm) as [Hb0 Hb].
    destruct (IH _ Hb0) as [Hc0 Hc].
    split; [exact Hc0 | ].
    rewrite Hc, Hb.
    rewrite Z.div_div by (pose proof (Hpow p); lia).
    f_equal.
    replace (Zpos p~0) with (Zpos p + Zpos p) by lia.
    rewrite Z.pow_add_r by lia. reflexivity.
  - split; [apply Hstep; exact Hm | ].
    rewrite shr_1_m by exact Hm. reflexivity.
Qed.

Lemma iter_shr_1_m (p : positive) (mrs : shr_record) :
  0 <= shr_m mrs ->
  shr_m (iter_pos shr_1 p mrs) = shr_m mrs / 2 ^ Zpos p.
Proof. intros Hm. apply iter_shr_1_nonneg_m. exact Hm. Qed.

(** [shr] by [n] drops [max 0 n] low bits of a non-negative mantissa. *)
Lemma shr_spec (mrs : shr_record) (e n : Z) :
  0 <= shr_m mrs ->
  shr_m (fst (shr mrs e n)) = shr_m mrs / 2 ^ Z.max 0 n /\
  snd (shr mrs e n) = e + Z.max 0 n.
Proof.
  intros Hm. destruct n as [ | p | p]; simpl.
  - rewrite Z.div_1_r. split; [reflexivity | lia].
  - rewrite iter_shr_1_m by exact Hm. split; reflexivity.
  - rewrite Z.div_1_r. split; [reflexivity | lia].
Qed.

Lemma shr_record_of_loc_m (m : Z) (l : location) :
  shr_m (shr_record_of_loc m l) = m.
Proof. destruct l as [ | [ | | ]]; reflexivity. Qed.

Lemma round_nearest_even_bounds (m : Z) (l : location) :
  m <= round_nearest_even m l <= m + 1.
Proof.
  destruct l as [ | [ | | ]]; simpl; try lia.
  destruct (Z.even m); lia.
Qed.

Section Core.

Variables prec emax : Z.

(** The mantissa and exponent that [binary_round_aux] settles on,
    before it sorts the result into zero, finite or infinite. *)
Definition round_core (m e : Z) (l : location) : Z * Z :=
  let '(mrs', e') := shr_fexp prec emax m e l in
  let '(mrs'', e'') :=
    shr_fexp prec emax
      (round_nearest_even (shr_m mrs') (loc_of_shr_record mrs')) e'
      loc_Exact in
  (shr_m mrs'', e'').

Lemma binary_round_aux_core (sx : bool) (m e : Z) (l : location) :
  binary_round_aux prec emax sx m e l
  = match fst (round_core m e l) with
    | Z0 => S754_zero sx
    | Zpos p =>
        if snd (round_core m e l) <=? emax - prec
        then S754_finite sx p (snd (round_core m e l))
        else S754_infinity sx
    | Zneg _ => S754_nan
    end.
Proof.
  unfold binary_round_aux, round_core.
  destruct (shr_fexp prec emax m e l) as [mrs' e'].
  destruct (shr_fexp prec emax _ e' loc_Exact) as [mrs'' e''].
  reflexivity.
Qed.

(** The number of low bits that rounding [m * 2^e] drops. *)
Definition dropped (m e : Z) : Z :=
  Z.max 0 (fexp prec emax (Zdigits2 m + e) - e).

(** Rounding moves the value up by at most one unit of the exponent
    it first rounds at. *)
Lemma round_core_upper (m e : Z) (l : location) :
  0 <= m ->
  let '(m3, e3) := round_core m e l in
  0 <= m3 /\ e <= e3 /\ m3 * 2 ^ (e3 - e) <= m + 2 ^ dropped m e.
Proof.
  intros Hm. unfold round_core, shr_fexp.
  set (n := fexp prec emax (Zdigits2 m + e) - e).
  assert (H0 : 0 <= shr_m (shr_record_of_loc m l))
    by (rewrite shr_record_of_loc_m; exact Hm).
  destruct (shr_spec (shr_record_of_loc m l) e n H0) as [Em1 Ee1].
  destruct (shr (shr_record_of_loc m l) e n) as [mrs' e'].
  simpl in Em1, Ee1. rewrite shr_record_of_loc_m in Em1.
  set (m2 := round_nearest_even (shr_m mrs') (loc_of_shr_record mrs')).
  pose proof (round_nearest_even_bounds (shr_m mrs')
                (loc_of_shr_record mrs')) as Hr.
  fold m2 in Hr.
  assert (Hp : 0 < 2 ^ Z.max 0 n) by (apply Z.pow_pos_nonneg; lia).
  assert (Hm1 : 0 <= shr_m mrs')
    by (rewrite Em1; apply Z.div_pos; lia).
  set (n2 := fexp prec emax (Zdigits2 m2 + e') - e').
  assert (H2 : 0 <= shr_m (shr_record_of_loc m2 loc_Exact))
    by (simpl; lia).
  destruct (shr_spec (shr_record_of_loc m2 loc_Exact) e' n2 H2)
    as [Em3 Ee3].
  destruct (shr (shr_record_of_loc m2 loc_Exact) e' n2) as [mrs'' e''].
  simpl in Em3, Ee3.
  assert (Hp2 : 0 < 2 ^ Z.max 0 n2) by (apply Z.pow_pos_nonneg; lia).
  split; [rewrite Em3; apply Z.div_pos; lia | ].
  split; [lia | ].
  unfold dropped. fold n.
  replace (e'' - e) with (Z.max 0 n2 + Z.max 0 n) by lia.
  rewrite Z.pow_add_r by lia.
  pose proof (Z.mul_div_le m2 (2 ^ Z.max 0 n2) Hp2) as L2.
  pose proof (Z.mul_div_le m (2 ^ Z.max 0 n) Hp) as L1.
  rewrite <- Em3 in L2. rewrite <- Em1 in L1.
  nia.
Qed.

End Core.

End RoundFacts.

(* ================================================================== *)
(** * Quantization *)
(* ================================================================== *)

Lemma fexp_unfold (k : Z) : fexp F32.prec F32.emax k = Z.max (k - 24) (-149).
Proof. reflexivity. Qed.

(** A positive mantissa whose value lies below [2^8] truncates to a byte. *)
Lemma shiftl_below_256 (p : positive) (e3 k : Z) :
  0 <= e3 + k ->
  Zpos p * 2 ^ (e3 + k) < 2 ^ (8 + k) ->
  e3 < 8 /\ 0 <= Z.shiftl (Zpos p) e3 <= 255.
Proof.
  intros Hk H.
  assert (He3 : e3 < 8).
  { assert (2 ^ (e3 + k) < 2 ^ (8 + k)).
    { assert (0 < 2 ^ (e3 + k)) by (apply Z.pow_pos_nonneg; lia). nia. }
    assert (0 <= 8 + k).
    { destruct (Z_lt_le_dec (8 + k) 0) as [Hn | Hn]; [ | exact Hn].
      rewrite (Z.pow_neg_r 2 (8 + k) Hn) in H0.
      assert (0 < 2 ^ (e3 + k)) by (apply Z.pow_pos_nonneg; lia). lia. }
    apply Z.pow_lt_mono_r_iff in H0; lia. }
  split; [exact He3 | ].
  destruct (Z_le_gt_dec 0 e3) as [Hpos | Hneg].
  - rewrite Z.shiftl_mul_pow2 by exact Hpos.
    assert (0 < 2 ^ e3) by (apply Z.pow_pos_nonneg; lia).
    split; [nia | ].
    assert (Hlt : Zpos p * 2 ^ e3 < 256).
    { assert (0 <= k \/ k < 0) as [Hk0 | Hk0] by lia.
      - rewrite !Z.pow_add_r in H by lia.
        assert (0 < 2 ^ k) by (apply Z.pow_pos_nonneg; lia).
        change (2 ^ 8) with 256 in H. nia.
      - replace (8 + k) with ((8 - e3) + (e3 + k)) in H by lia.
        rewrite (Z.pow_add_r 2 (8 - e3)) in H by lia.
        assert (0 < 2 ^ (e3 + k)) by (apply Z.pow_pos_nonneg; lia).
        assert (Zpos p < 2 ^ (8 - e3)) by nia.
        assert (2 ^ (8 - e3) * 2 ^ e3 = 256).
        { rewrite <- Z.pow_add_r by lia.
          replace (8 - e3 + e3) with 8 by lia. reflexivity. }
        nia. }
    lia.
  - rewrite Z.shiftl_div_pow2 by lia.
    assert (Hp : 0 < 2 ^ (- e3)) by (apply Z.pow_pos_nonneg; lia).
    split; [apply Z.div_pos; lia | ].
    replace (8 + k) with ((8 - e3) + (e3 + k)) in H by lia.
    rewrite (Z.pow_add_r 2 (8 - e3)) in H by lia.
    assert (0 < 2 ^ (e3 + k)) by (apply Z.pow_pos_nonneg; lia).
    assert (Hlt : Zpos p < 2 ^ (8 - e3)) by nia.
    replace (8 - e3) with (8 + - e3) in Hlt by lia.
    rewrite Z.pow_add_r in Hlt by lia. change (2 ^ 8) with 256 in Hlt.
    assert (Zpos p / 2 ^ (- e3) < 256).
    { apply Z.div_lt_upper_bound; [exact Hp | lia]. }
    lia.
Qed.

(** Every well-formed number fits the precision. *)
Lemma valid_in_precision (x : float) :
  F32.valid x = true -> F32.in_precision x = true.
Proof.
  destruct x as [s | s | | s m e]; try reflexivity.
  unfold F32.valid, valid_binary, bounded, canonical_mantissa, F32.in_precision.
  rewrite fexp_unfold. intros Hv.
  apply andb_prop in Hv. destruct Hv as [Hc _]. apply Z.eqb_eq in Hc.
  apply Z.ltb_lt.
  pose proof (RoundFacts.digits2_pos_gt m) as Hgt.
  assert (2 ^ Zpos (digits2_pos m) <= 2 ^ F32.prec)
    by (apply Z.pow_le_mono_r; unfold F32.prec; lia).
  lia.
Qed.

(** A positive number that fits the precision and is not [>= 1] has a
    non-positive exponent and a mantissa below [2^(-e)]: its value is
    below 1. *)
Lemma below_one_mantissa (m : positive) (e : Z) :
  F32.in_precision (S754_finite false m e) = true ->
  (Lit.f1 <=? S754_finite false m e)%f32 = false ->
  e <= 0 /\ Zpos m < 2 ^ (- e).
Proof.
  unfold F32.in_precision. intros Hp Hlt. apply Z.ltb_lt in Hp.
  change (2 ^ F32.prec) with 16777216 in Hp.
  unfold F32.leb, SFleb, SFcompare, Lit.f1, F32.one in Hlt.
  destruct (Z.compare_spec (-23) e) as [E | E | E]; try discriminate Hlt.
  - subst e.
    change (Pos.compare_cont Eq 8388608 m) with (Pos.compare 8388608 m) in Hlt.
    destruct (Pos.compare_spec 8388608 m) as [Hc' | Hc' | Hc'];
      try discriminate Hlt.
    apply Pos2Z.pos_lt_pos in Hc'.
    split; [lia | exact Hc'].
  - split; [lia | ].
    assert (2 ^ 24 <= 2 ^ (- e)) by (apply Z.pow_le_mono_r; lia).
    change (2 ^ 24) with 16777216 in H. lia.
Qed.

(** The product of a number below 1 with [255.999f] truncates to a
    byte. *)
Lemma scaled_in_byte (m : positive) (e : Z) :
  e <= 0 -> Zpos m < 2 ^ (- e) ->
  exists n, F32.to_int (S754_finite false m e * Lit.f255_999)%f32 = Some n /\
            0 <= n <= 255.
Proof.
  intros He Hm.
  unfold F32.mul, Lit.f255_999, SFmul.
  rewrite RoundFacts.binary_round_aux_core.
  pose proof (RoundFacts.round_core_upper F32.prec F32.emax
                (Zpos (m * 16777150)) (e + -16) loc_Exact) as Hup.
  destruct (RoundFacts.round_core F32.prec F32.emax
              (Zpos (m * 16777150)) (e + -16) loc_Exact) as [m3 e3].
  specialize (Hup ltac:(lia)). destruct Hup as [Hm3 [He3 Hle]].
  cbn [fst snd xorb].
  assert (Hpe : 0 < 2 ^ (- e)) by (apply Z.pow_pos_nonneg; lia).
  assert (Hdrop : 2 ^ RoundFacts.dropped F32.prec F32.emax
                        (Zpos (m * 16777150)) (e + -16) <= 2 ^ (- e)).
  { apply Z.pow_le_mono_r; [lia | ].
    unfold RoundFacts.dropped. rewrite fexp_unfold. cbn [Zdigits2].
    assert (Zpos (digits2_pos (m * 16777150)) <= 24 + - e).
    { apply RoundFacts.digits2_pos_bound.
      rewrite Z.pow_add_r by lia. change (2 ^ 24) with 16777216.
      rewrite Pos2Z.inj_mul. generalize dependent (2 ^ (- e)).
      intros. lia. }
    lia. }
  assert (Hval : m3 * 2 ^ (e3 + (16 - e)) < 2 ^ (8 + (16 - e))).
  { replace (e3 + (16 - e)) with (e3 - (e + -16)) by lia.
    replace (8 + (16 - e)) with (24 + - e) by lia.
    rewrite (Z.pow_add_r 2 24) by lia. change (2 ^ 24) with 16777216.
    set (D := 2 ^ RoundFacts.dropped F32.prec F32.emax
                    (Zpos (m * 16777150)) (e + -16)) in *.
    rewrite Pos2Z.inj_mul in Hle.
    clearbody D. clear - Hle Hm Hpe Hdrop.
    generalize dependent (2 ^ (- e)).
    generalize dependent (m3 * 2 ^ (e3 - (e + -16))).
    intros. lia. }
  destruct m3 as [ | p | p]; [ | | lia].
  - exists 0. split; [reflexivity | lia].
  - destruct (shiftl_below_256 p e3 (16 - e)) as [Hlt8 Hbyte];
      [lia | exact Hval | ].
    replace (e3 <=? F32.emax - F32.prec) with true
      by (symmetry; apply Z.leb_le; unfold F32.emax, F32.prec; lia).
    exists (Z.shiftl (Zpos p) e3). split; [ | exact Hbyte].
    unfold F32.to_int. cbn [cond_Zopp].
    replace (F32.in_int_range (Z.shiftl (Zpos p) e3)) with true; [reflexivity | ].
    symmetry. unfold F32.in_int_range, F32.INT_MIN, F32.INT_MAX.
    apply andb_true_intro. split; apply Z.leb_le; change (2 ^ 31) with 2147483648; lia.
Qed.

(** Whatever fits the precision and is not NaN is quantized to a byte. *)
Lemma clip_byte (c : float) :
  F32.in_precision c = true ->
  F32.is_nan c = false ->
  exists n, clip c = Some n /\ 0 <= n <= 255 /\
    ((c <=? Lit.f0)%f32 = false -> (c >=? Lit.f1)%f32 = false ->
       F32.to_int (c * Lit.f255_999)%f32 = Some n).
Proof.
  intros Hp Hn. unfold clip.
  destruct (F32.leb c Lit.f0) eqn:H0.
  { exists 0. repeat split; try lia; intros; discriminate. }
  destruct (F32.leb Lit.f1 c) eqn:H1.
  { exists 255. repeat split; try lia; intros; discriminate. }
  destruct c as [s | s | | s m e]; try destruct s; try discriminate.
  destruct (below_one_mantissa m e Hp H1) as [He Hm].
  destruct (scaled_in_byte m e He Hm) as [n [En Hbyte]].
  exists n. repeat split; try lia; try exact En; intros _ _; exact En.
Qed.

(** When [clip] is defined on a number that fits the precision, its
    answer is a byte. *)
Lemma clip_some_byte (c : float) (n : Z) :
  F32.in_precision c = true -> clip c = Some n -> 0 <= n <= 255.
Proof.
  intros Hp E.
  destruct (F32.is_nan c) eqn:Hn.
  - destruct c; try discriminate Hn. discriminate E.
  - destruct (clip_byte c Hp Hn) as [n' [E' [Hb _]]].
    rewrite E in E'. injection E' as <-. exact Hb.
Qed.

(** A NaN component reaches the conversion to [int], whose behaviour is
    then undefined. *)
Lemma clip_nan : clip S754_nan = None.
Proof. reflexivity. Qed.

(** C4. For every binary32 number [c] other than NaN, [clip] answers an
    integer of [0..255]: 0 when [c <= 0] (so for every negative input),
    255 when [c >= 1], and otherwise the truncation of the binary32
    product [c * 255.999f].  In particular 0.0 gives 0, 1.0 gives 255 and
    0.999999 gives 255; the last is below 1.0, so its 255 is the
    truncated product. *)
Theorem clip_spec (c : float) :
  F32.valid c = true ->
  F32.is_nan c = false ->
  (exists n,
     clip c = Some n /\ 0 <= n <= 255 /\
     ((c <=? Lit.f0)%f32 = true -> n = 0) /\
     ((c <? Lit.f0)%f32 = true -> n = 0) /\
     ((c >=? Lit.f1)%f32 = true -> n = 255) /\
     ((c <=? Lit.f0)%f32 = false -> (c >=? Lit.f1)%f32 = false ->
        F32.to_int (c * Lit.f255_999)%f32 = Some n)) /\
  clip Lit.f0 = Some 0 /\
  clip Lit.f1 = Some 255 /\
  clip Lit.f0_999999 = Some 255 /\
  (Lit.f0_999999 >=? Lit.f1)%f32 = false /\
  F32.to_int (Lit.f0_999999 * Lit.f255_999)%f32 = Some 255.
Proof.
  intros Hv Hn.
  split; [ | repeat split; vm_compute; reflexivity].
  destruct (clip_byte c (valid_in_precision c Hv) Hn) as [n [E [Hb Hfl]]].
  exists n. split; [exact E | ]. split; [exact Hb | ].
  unfold clip in E.
  assert (Hle0 : (c <=? Lit.f0)%f32 = true -> n = 0).
  { intros H0. rewrite H0 in E. congruence. }
  split; [exact Hle0 | ].
  split.
  { intros Hlt. apply Hle0. apply F32Facts.dist_lt_leb. exact Hlt. }
  split; [ | exact Hfl].
  intros H1.
  destruct (F32.leb c Lit.f0) eqn:H0.
  - (* [c >= 1] excludes [c <= 0] *)
    exfalso. clear - H0 H1.
    destruct c as [s | s | | s m e]; try destruct s; discriminate.
  - rewrite H1 in E. congruence.
Qed.

Lemma clip_spec_witness :
  F32.valid Lit.f0_5 = true /\
  F32.is_nan Lit.f0_5 = false /\
  clip Lit.f0_5 = Some 127.
Proof.
  split; [reflexivity | ]. split; [reflexivity | ].
  destruct (clip_spec Lit.f0_5 eq_refl eq_refl) as [[n [E _]] _].
  vm_compute. reflexivity.
Defined.

(** C4, the input that the wording "for every colour component value"
    overlooks: NaN is a well-formed binary32 value, it is neither [<= 0]
    nor [>= 1], and [clip] hands [NaN * 255.999f] to the conversion to
    [int], which is undefined: no integer of [0..255] is returned.
    Besides, 0.999999 is below 1.0 in binary32, so it is not the [>= 1]
    rule that maps it to 255. *)
Lemma clip_not_total :
  F32.valid S754_nan = true /\
  (S754_nan <=? Lit.f0)%f32 = false /\
  (S754_nan >=? Lit.f1)%f32 = false /\
  F32.to_int (S754_nan * Lit.f255_999)%f32 = None /\
  clip S754_nan = None /\
  ~ (exists n, clip S754_nan = Some n /\ 0 <= n <= 255) /\
  (Lit.f0_999999 >=? Lit.f1)%f32 = false.
Proof.
  repeat (split; [reflexivity | ]).
  split; [ | reflexivity].
  intros [n [E _]]. discriminate E.
Qed.

(* ================================================================== *)
(** * Rounded results fit the precision *)
(* ================================================================== *)

(** Dropping the bits that [fexp] asks for leaves at most 24 of them. *)
Lemma shifted_below (m e : Z) :
  0 <= m ->
  m / 2 ^ RoundFacts.dropped F32.prec F32.emax m e < 2 ^ 24.
Proof.
  intros Hm. unfold RoundFacts.dropped. rewrite fexp_unfold.
  set (k := Z.max 0 (Z.max (Zdigits2 m + e - 24) (-149) - e)).
  assert (Hk : 0 <= k) by (unfold k; lia).
  assert (Hp : 0 < 2 ^ k) by (apply Z.pow_pos_nonneg; lia).
  destruct m as [ | p | p]; [ | | lia].
  - rewrite Z.div_0_l by lia. reflexivity.
  - apply Z.div_lt_upper_bound; [exact Hp | ].
    rewrite <- Z.pow_add_r by lia.
    pose proof (RoundFacts.digits2_pos_gt p) as Hgt.
    assert (2 ^ Zpos (digits2_pos p) <= 2 ^ (k + 24)).
    { apply Z.pow_le_mono_r; [lia | ]. unfold k. cbn [Zdigits2]. lia. }
    lia.
Qed.

Lemma round_core_in_precision (m e : Z) (l : location) :
  0 <= m ->
  fst (RoundFacts.round_core F32.prec F32.emax m e l) < 2 ^ 24.
Proof.
  intros Hm. unfold RoundFacts.round_core, shr_fexp.
  set (n := fexp F32.prec F32.emax (Zdigits2 m + e) - e).
  assert (H0 : 0 <= shr_m (shr_record_of_loc m l))
    by (rewrite RoundFacts.shr_record_of_loc_m; exact Hm).
  destruct (RoundFacts.shr_spec (shr_record_of_loc m l) e n H0) as [Em1 _].
  destruct (shr (shr_record_of_loc m l) e n) as [mrs' e'].
  simpl in Em1. rewrite RoundFacts.shr_record_of_loc_m in Em1.
  set (m2 := round_nearest_even (shr_m mrs') (loc_of_shr_record mrs')).
  pose proof (RoundFacts.round_nearest_even_bounds (shr_m mrs')
                (loc_of_shr_record mrs')) as Hr.
  fold m2 in Hr.
  assert (Hm1 : 0 <= shr_m mrs').
  { rewrite Em1. apply Z.div_pos; [exact Hm | ].
    apply Z.pow_pos_nonneg; lia. }
  assert (Hm2 : 0 <= m2) by lia.
  set (n2 := fexp F32.prec F32.emax (Zdigits2 m2 + e') - e').
  assert (H2 : 0 <= shr_m (shr_record_of_loc m2 loc_Exact)) by (simpl; lia).
  destruct (RoundFacts.shr_spec (shr_record_of_loc m2 loc_Exact) e' n2 H2)
    as [Em3 _].
  destruct (shr (shr_record_of_loc m2 loc_Exact) e' n2) as [mrs'' e''].
  simpl in Em3. simpl fst. rewrite Em3.
  apply (shifted_below m2 e' Hm2).
Qed.

Lemma binary_round_aux_in_precision (sx : bool) (m e : Z) (l : location) :
  0 <= m ->
  F32.in_precision (binary_round_aux F32.prec F32.emax sx m e l) = true.
Proof.
  intros Hm. rewrite RoundFacts.binary_round_aux_core.
  pose proof (round_core_in_precision m e l Hm) as Hlt.
  destruct (RoundFacts.round_core F32.prec F32.emax m e l) as [m3 e3].
  simpl fst in *. simpl snd.
  destruct m3 as [ | p | p]; try reflexivity.
  destruct (e3 <=? F32.emax - F32.prec); [ | reflexivity].
  unfold F32.in_precision. apply Z.ltb_lt. exact Hlt.
Qed.

Lemma binary_normalize_in_precision (m e : Z) (sz : bool) :
  F32.in_precision (binary_normalize F32.prec F32.emax m e sz) = true.
Proof.
  destruct m as [ | p | p]; [reflexivity | | ];
    unfold binary_normalize, binary_round;
    destruct (shl_align _ _ _) as [mz ez];
    apply binary_round_aux_in_precision; lia.
Qed.

(** A product is never a finite operand handed through, so it fits the
    precision whatever the operands are. *)
Lemma mul_in_precision (a b : float) : F32.in_precision (a * b)%f32 = true.
Proof.
  destruct a as [s | s | | s m e]; destruct b as [s' | s' | | s' m' e'];
    try reflexivity.
  unfold F32.mul, SFmul. apply binary_round_aux_in_precision. lia.
Qed.

Lemma add_in_precision (a b : float) :
  F32.in_precision a = true -> F32.in_precision b = true ->
  F32.in_precision (a + b)%f32 = true.
Proof.
  intros Ha Hb.
  destruct a as [s | s | | s m e]; destruct b as [s' | s' | | s' m' e'];
    try destruct s; try destruct s'; unfold F32.add, SFadd;
    first [ reflexivity | assumption | apply binary_normalize_in_precision ].
Qed.

Definition vec_in_precision (v : Vec) : Prop :=
  F32.in_precision (Vec.x v) = true /\
  F32.in_precision (Vec.y v) = true /\
  F32.in_precision (Vec.z v) = true.

Lemma phong_shade_in_precision (powf : float -> float -> float)
    (P N V Lpos Kd Ks : Vec) (shin : float) :
  vec_in_precision (phong_shade powf P N V Lpos Kd Ks shin).
Proof.
  unfold phong_shade, vec_in_precision, vadd, vscale. cbn [Vec.x Vec.y Vec.z].
  repeat split; repeat apply add_in_precision; apply mul_in_precision.
Qed.

Lemma quantize_bytes (color : Vec) (cr cg cb : Z) :
  vec_in_precision color ->
  quantize color = Some (cr, cg, cb) ->
  0 <= cr <= 255 /\ 0 <= cg <= 255 /\ 0 <= cb <= 255.
Proof.
  intros [Hx [Hy Hz]]. unfold quantize, bind.
  destruct (clip (Vec.x color)) as [a | ] eqn:Ex; [ | discriminate].
  destruct (clip (Vec.y color)) as [b | ] eqn:Ey; [ | discriminate].
  destruct (clip (Vec.z color)) as [c | ] eqn:Ez; [ | discriminate].
  intros E. injection E as <- <- <-.
  split; [exact (clip_some_byte _ _ Hx Ex) | ].
  split; [exact (clip_some_byte _ _ Hy Ey) | exact (clip_some_byte _ _ Hz Ez)].
Qed.

(* ================================================================== *)
(** * The checkered background *)
(* ================================================================== *)

Lemma land_1_even (a : Z) : (Z.land a 1 =? 0) = Z.even a.
Proof.
  change 1 with (Z.ones 1) at 1. rewrite Z.land_ones by lia.
  change (2 ^ 1) with 2. rewrite Zmod_even.
  destruct (Z.even a); reflexivity.
Qed.

Lemma in_zseq (n : nat) :
  forall lo i, lo <= i < lo + Z.of_nat n -> In i (zseq lo n).
Proof.
  induction n as [ | n IH]; intros lo i Hi; [lia | ].
  simpl. destruct (Z.eq_dec lo i) as [-> | Hne]; [left; reflexivity | ].
  right. apply IH. lia.
Qed.

(** A cell index of the image of [main]: defined, and one of [0..10]. *)
Definition cell_ok (i : Z) : bool :=
  match checker_cell (coord_u 1024 i) with
  | Some ix => (0 <=? ix) && (ix <=? 10)
  | None => false
  end.

Lemma cells_of_main_ok : forallb cell_ok (zseq 0 1024) = true.
Proof. vm_compute. reflexivity. Qed.

Lemma cell_of_main (i : Z) :
  0 <= i < 1024 ->
  exists ix, checker_cell (coord_u 1024 i) = Some ix /\ 0 <= ix <= 10.
Proof.
  intros Hi.
  pose proof (proj1 (forallb_forall cell_ok (zseq 0 1024)) cells_of_main_ok i)
    as H.
  specialize (H (in_zseq 1024 0 i ltac:(lia))).
  unfold cell_ok in H.
  destruct (checker_cell (coord_u 1024 i)) as [ix | ]; [ | discriminate].
  exists ix. split; [reflexivity | ].
  apply andb_prop in H. destruct H as [H1 H2].
  apply Z.leb_le in H1, H2. lia.
Qed.

(** C5. A pixel whose ray hits no sphere gets the background colour, which
    depends on [(u,v)] alone: with [ix = floor((u+1)*5)] and
    [iy = floor((v+1)*5)] it is (0.9,0.9,0.9) when [ix + iy] is even and
    (0.1,0.1,0.1) when it is odd.  For every pixel of the 1024x1024 image
    both indices are defined and lie in [0..10]. *)
Theorem background_checkerboard (powf : float -> float -> float)
    (sc : list Sphere) (u v : float) (best_t : float) (hit_id : Z) :
  closest 10 sc (camera_ray u v) = Some (best_t, hit_id) ->
  hit_id < 0 ->
  pixel_color powf 10 sc u v = background u v /\
  background u v
  = (ix <- F32.to_int (F32.floor ((u + Lit.f1) * Lit.f5)%f32) ;;
     iy <- F32.to_int (F32.floor ((v + Lit.f1) * Lit.f5)%f32) ;;
     sum <- F32.int_add ix iy ;;
     Some (if Z.even sum
           then Vec.mk Lit.f0_9 Lit.f0_9 Lit.f0_9
           else Vec.mk Lit.f0_1 Lit.f0_1 Lit.f0_1)) /\
  (forall i j, 0 <= i < 1024 -> 0 <= j < 1024 ->
     exists ix iy,
       F32.to_int (F32.floor ((coord_u 1024 i + Lit.f1) * Lit.f5)%f32) = Some ix /\
       F32.to_int (F32.floor ((coord_v 1024 j + Lit.f1) * Lit.f5)%f32) = Some iy /\
       0 <= ix <= 10 /\ 0 <= iy <= 10 /\
       background (coord_u 1024 i) (coord_v 1024 j)
       = Some (if Z.even (ix + iy)
               then Vec.mk Lit.f0_9 Lit.f0_9 Lit.f0_9
               else Vec.mk Lit.f0_1 Lit.f0_1 Lit.f0_1)).
Proof.
  intros Hscan Hmiss.
  assert (Hbg : forall a b,
            background a b
            = (ix <- F32.to_int (F32.floor ((a + Lit.f1) * Lit.f5)%f32) ;;
               iy <- F32.to_int (F32.floor ((b + Lit.f1) * Lit.f5)%f32) ;;
               sum <- F32.int_add ix iy ;;
               Some (if Z.even sum
                     then Vec.mk Lit.f0_9 Lit.f0_9 Lit.f0_9
                     else Vec.mk Lit.f0_1 Lit.f0_1 Lit.f0_1))).
  { intros a b. unfold background, checker_cell, bind.
    destruct (F32.to_int _) as [ix | ]; [ | reflexivity].
    destruct (F32.to_int _) as [iy | ]; [ | reflexivity].
    destruct (F32.int_add ix iy) as [sum | ]; [ | reflexivity].
    rewrite land_1_even. reflexivity. }
  split.
  { unfold pixel_color. rewrite Hscan. simpl.
    replace (0 <=? hit_id) with false by (symmetry; apply Z.leb_gt; exact Hmiss).
    reflexivity. }
  split; [apply Hbg | ].
  intros i j Hi Hj.
  destruct (cell_of_main i Hi) as [ix [Ex Hx]].
  destruct (cell_of_main j Hj) as [iy [Ey Hy]].
  exists ix, iy. unfold checker_cell in Ex, Ey.
  split; [exact Ex | ]. split; [exact Ey | ].
  split; [exact Hx | ]. split; [exact Hy | ].
  rewrite Hbg.
  change (coord_v 1024 j) with (coord_u 1024 j).
  rewrite Ex, Ey. simpl.
  unfold F32.int_add.
  replace (F32.in_int_range (ix + iy)) with true; [reflexivity | ].
  symmetry. unfold F32.in_int_range, F32.INT_MIN, F32.INT_MAX.
  apply andb_true_intro.
  split; apply Z.leb_le; change (2 ^ 31) with 2147483648; lia.
Qed.

Lemma background_checkerboard_witness :
  closest 10 main_scene (camera_ray Lit.fm1 Lit.fm1) = Some (INFINITY, -1) /\
  -1 < 0 /\
  pixel_color (fun x _ => x) 10 main_scene Lit.fm1 Lit.fm1
  = Some (Vec.mk Lit.f0_9 Lit.f0_9 Lit.f0_9).
Proof.
  split; [vm_compute; reflexivity | ].
  split; [reflexivity | ].
  destruct (background_checkerboard (fun x _ => x) main_scene
              Lit.fm1 Lit.fm1 INFINITY (-1)) as [E _].
  - vm_compute. reflexivity.
  - reflexivity.
  - rewrite E. vm_compute. reflexivity.
Defined.

(* ================================================================== *)
(** * The pixel loops *)
(* ================================================================== *)

(** [f] applied along a list, undefined as soon as one application is. *)
Fixpoint mapM {A B : Type} (f : A -> option B) (l : list A) : option (list B) :=
  match l with
  | [] => Some []
  | a :: l' => b <- f a ;; bs <- mapM f l' ;; Some (b :: bs)
  end.

Lemma mapM_app {A B : Type} (f : A -> option B) (l1 l2 : list A) :
  mapM f (l1 ++ l2)
  = (bs1 <- mapM f l1 ;; bs2 <- mapM f l2 ;; Some (bs1 ++ bs2)).
Proof.
  induction l1 as [ | a l1 IH]; simpl.
  - destruct (mapM f l2); reflexivity.
  - destruct (f a) as [b | ]; simpl; [ | reflexivity].
    rewrite IH. destruct (mapM f l1) as [bs1 | ]; simpl; [ | reflexivity].
    destruct (mapM f l2); reflexivity.
Qed.

Lemma mapM_map {A B C : Type} (g : A -> B) (f : B -> option C) (l : list A) :
  mapM f (map g l) = mapM (fun a => f (g a)) l.
Proof.
  induction l as [ | a l IH]; simpl; [reflexivity | ].
  rewrite IH. reflexivity.
Qed.

Lemma mapM_ext {A B : Type} (f g : A -> option B) (l : list A) :
  (forall a, In a l -> f a = g a) -> mapM f l = mapM g l.
Proof.
  induction l as [ | a l IH]; intros H; simpl; [reflexivity | ].
  rewrite (H a (or_introl eq_refl)), IH; [reflexivity | ].
  intros b Hb. apply H. right. exact Hb.
Qed.

(** A defined [mapM] relates the two lists position by position. *)
Lemma mapM_Forall2 {A B : Type} (f : A -> option B) (l : list A) :
  forall bs, mapM f l = Some bs -> Forall2 (fun a b => f a = Some b) l bs.
Proof.
  induction l as [ | a l IH]; simpl; intros bs E.
  - injection E as <-. constructor.
  - destruct (f a) as [b | ] eqn:Ea; simpl in E; [ | discriminate].
    destruct (mapM f l) as [bs' | ]; simpl in E; [ | discriminate].
    injection E as <-. constructor; [exact Ea | apply IH; reflexivity].
Qed.

Lemma append_assoc (a b c : string) : ((a ++ b) ++ c = a ++ (b ++ c))%string.
Proof. induction a as [ | ch a IH]; simpl; [ | rewrite IH]; reflexivity. Qed.

Lemma append_nil_r (a : string) : (a ++ EmptyString)%string = a.
Proof. induction a as [ | ch a IH]; simpl; [ | rewrite IH]; reflexivity. Qed.

(** The text of a run of pixels, one line each. *)
Fixpoint lines_text (l : list (Z * Z * Z)) : string :=
  match l with
  | [] => EmptyString
  | rgb :: l' => (pixel_line rgb ++ lines_text l')%string
  end.

Lemma lines_text_app (l1 l2 : list (Z * Z * Z)) :
  lines_text (l1 ++ l2) = (lines_text l1 ++ lines_text l2)%string.
Proof.
  induction l1 as [ | rgb l1 IH]; simpl; [reflexivity | ].
  rewrite IH, append_assoc. reflexivity.
Qed.

Lemma write_write (a b : string) (st : State) :
  write b (write a st) = write (a ++ b) st.
Proof. unfold write. simpl. rewrite append_assoc. reflexivity. Qed.

Lemma write_nil (st : State) : write EmptyString st = st.
Proof. unfold write. rewrite append_nil_r. destruct st; reflexivity. Qed.

(** The rows from [n - 1] down to [0]. *)
Fixpoint zdown (n : nat) : list Z :=
  match n with
  | O => []
  | S n' => Z.of_nat n' :: zdown n'
  end.

(** The order in which the pixels [(i, j)] are written: rows from the
    highest [j] down, columns from the lowest [i] up. *)
Definition pixel_order (W H : nat) : list (Z * Z) :=
  flat_map (fun j => map (fun i => (i, j)) (zseq 0 W)) (zdown H).

Section Render.

Variable powf : float -> float -> float.
Variables WIDTH HEIGHT N_SPHERES : Z.

(** The quantized colour of the pixel [(i, j)] for the scene [sc]. *)
Definition quantized_pixel (sc : list Sphere) (ij : Z * Z)
  : option (Z * Z * Z) :=
  pixelColor <- pixel_color powf N_SPHERES sc
                  (coord_u WIDTH (fst ij)) (coord_v HEIGHT (snd ij)) ;;
  quantize pixelColor.

Lemma pixel_eq (i j : Z) (st : State) :
  pixel powf WIDTH HEIGHT N_SPHERES i j st
  = (rgb <- quantized_pixel (scene st) (i, j) ;;
     Some (write (pixel_line rgb) st)).
Proof.
  unfold pixel, quantized_pixel, bind. simpl.
  destruct (pixel_color _ _ _ _ _) as [pixelColor | ]; reflexivity.
Qed.

Lemma row_loop (j : Z) (n : nat) :
  forall (lo : Z) (st : State),
    for_up lo n (fun i st => pixel powf WIDTH HEIGHT N_SPHERES i j st) st
    = (row <- mapM (quantized_pixel (scene st))
                (map (fun i => (i, j)) (zseq lo n)) ;;
       Some (write (lines_text row) st)).
Proof.
  induction n as [ | n IH]; intros lo st; simpl.
  - rewrite write_nil. reflexivity.
  - rewrite pixel_eq.
    destruct (quantized_pixel (scene st) (lo, j)) as [rgb | ]; simpl;
      [ | reflexivity].
    rewrite IH. simpl.
    destruct (mapM _ _) as [row | ]; simpl; [ | reflexivity].
    rewrite write_write. reflexivity.
Qed.

Lemma render_eq (st : State) :
  render powf WIDTH HEIGHT N_SPHERES st
  = (rgbs <- mapM (quantized_pixel (scene st))
               (pixel_order (Z.to_nat WIDTH) (Z.to_nat HEIGHT)) ;;
     Some (write (lines_text rgbs) st)).
Proof.
  unfold render, pixel_order.
  generalize (Z.to_nat HEIGHT) as n. intros n. revert st.
  induction n as [ | n IH]; intros st; simpl.
  - rewrite write_nil. reflexivity.
  - rewrite row_loop, mapM_app.
    destruct (mapM _ (map _ _)) as [row | ]; simpl; [ | reflexivity].
    rewrite IH. simpl.
    destruct (mapM _ (flat_map _ _)) as [rest | ]; simpl; [ | reflexivity].
    rewrite write_write, lines_text_app. reflexivity.
Qed.

(** The whole program: the scene is extended by the stack of spheres,
    and the header and the pixel lines are appended to the output. *)
Lemma program_eq (st : State) :
  program powf WIDTH HEIGHT N_SPHERES st
  = let sc := scene st
                ++ map (make_sphere N_SPHERES) (zseq 0 (Z.to_nat N_SPHERES)) in
    rgbs <- mapM (quantized_pixel sc)
              (pixel_order (Z.to_nat WIDTH) (Z.to_nat HEIGHT)) ;;
    Some (0, mkState sc
               (cout st ++ header WIDTH HEIGHT ++ lines_text rgbs)%string).
Proof.
  unfold program. rewrite build_scene_eq. simpl.
  rewrite render_eq. simpl.
  destruct (mapM _ _) as [rgbs | ]; simpl; [ | reflexivity].
  unfold write. simpl. rewrite append_assoc. reflexivity.
Qed.

End Render.

(* ================================================================== *)
(** * The order and the number of the pixels *)
(* ================================================================== *)

Lemma zseq_nth (n : nat) :
  forall (lo : Z) (k : nat),
    (k < n)%nat -> nth_error (zseq lo n) k = Some (lo + Z.of_nat k).
Proof.
  induction n as [ | n IH]; intros lo k Hk; [lia | ].
  destruct k as [ | k]; simpl.
  - f_equal. lia.
  - rewrite IH by lia. f_equal. lia.
Qed.

Lemma pixel_order_length (W H : nat) :
  List.length (pixel_order W H) = (H * W)%nat.
Proof.
  unfold pixel_order. induction H as [ | H IH]; simpl; [reflexivity | ].
  rewrite length_app, length_map, zseq_length, IH. reflexivity.
Qed.

(** The pixel written at position [row * W + col] of the stream is the one
    of column [col] in the row [H - 1 - row]. *)
Lemma pixel_order_nth (W H : nat) :
  forall row col : nat,
    (row < H)%nat -> (col < W)%nat ->
    nth_error (pixel_order W H) (row * W + col)
    = Some (Z.of_nat col, Z.of_nat (H - 1 - row)).
Proof.
  unfold pixel_order. induction H as [ | H IH]; intros row col Hr Hc; [lia | ].
  simpl flat_map.
  destruct row as [ | row].
  - rewrite nth_error_app1 by (rewrite length_map, zseq_length; lia).
    simpl Nat.add. rewrite nth_error_map, zseq_nth by exact Hc.
    simpl. do 2 f_equal. lia.
  - rewrite nth_error_app2 by (rewrite length_map, zseq_length; lia).
    rewrite length_map, zseq_length.
    replace (S row * W + col - W)%nat with (row * W + col)%nat by lia.
    rewrite IH by lia. do 3 f_equal. lia.
Qed.

(* ================================================================== *)
(** * Every written channel is a byte *)
(* ================================================================== *)

Definition is_byte (n : Z) : Prop := 0 <= n <= 255.

Definition bytes (rgb : Z * Z * Z) : Prop :=
  let '(cr, cg, cb) := rgb in is_byte cr /\ is_byte cg /\ is_byte cb.

Lemma pixel_color_in_precision (powf : float -> float -> float)
    (N_SPHERES : Z) (sc : list Sphere) (u v : float) (color : Vec) :
  pixel_color powf N_SPHERES sc u v = Some color -> vec_in_precision color.
Proof.
  unfold pixel_color, bind.
  destruct (closest N_SPHERES sc (camera_ray u v)) as [[bt id] | ];
    [ | discriminate].
  destruct (0 <=? id).
  - unfold shade_hit, bind.
    destruct (nth_error sc (Z.to_nat id)) as [s | ]; [ | discriminate].
    intros E. injection E as <-. apply phong_shade_in_precision.
  - unfold background, bind.
    destruct (checker_cell u); [ | discriminate].
    destruct (checker_cell v); [ | discriminate].
    destruct (F32.int_add _ _); [ | discriminate].
    intros E. injection E as <-.
    destruct (Z.land _ 1 =? 0); repeat split.
Qed.

Lemma quantized_pixel_bytes (powf : float -> float -> float)
    (W H N : Z) (sc : list Sphere) (ij : Z * Z) (rgb : Z * Z * Z) :
  quantized_pixel powf W H N sc ij = Some rgb -> bytes rgb.
Proof.
  unfold quantized_pixel, bind.
  destruct (pixel_color _ _ _ _ _) as [color | ] eqn:Ec; [ | discriminate].
  destruct rgb as [[cr cg] cb]. intros Eq.
  apply (quantize_bytes color cr cg cb); [ | exact Eq].
  apply (pixel_color_in_precision _ _ _ _ _ _ Ec).
Qed.

Lemma Forall2_length_eq {A B : Type} (R : A -> B -> Prop) (l : list A) (l' : list B) :
  Forall2 R l l' -> List.length l' = List.length l.
Proof. induction 1; simpl; congruence. Qed.

Lemma Forall2_Forall_r {A B : Type} (R : A -> B -> Prop) (Q : B -> Prop)
    (l : list A) (l' : list B) :
  (forall a b, R a b -> Q b) -> Forall2 R l l' -> Forall Q l'.
Proof. intros HRQ. induction 1; constructor; eauto. Qed.




(* ================================================================== *)
(** * The output of [main] *)
(* ================================================================== *)

Lemma main_eq (powf : float -> float -> float) (st : State) :
  scene st = [] ->
  main powf st
  = (rgbs <- mapM (quantized_pixel powf 1024 1024 10 main_scene)
               (pixel_order (Z.to_nat 1024) (Z.to_nat 1024)) ;;
     Some (0, mkState main_scene
                (cout st ++ header 1024 1024 ++ lines_text rgbs)%string)).
Proof.
  intros Hsc. unfold main. rewrite program_eq, Hsc.
  cbv zeta. rewrite app_nil_l, <- main_scene_eq. reflexivity.
Qed.


Lemma pixel_order_of_main_length :
  Z.of_nat (List.length (pixel_order (Z.to_nat 1024) (Z.to_nat 1024)))
  = 1024 * 1024.
Proof.
  rewrite pixel_order_length, Nat2Z.inj_mul, Z2Nat.id by lia. reflexivity.
Qed.

Lemma pixel_order_of_main_nth (row col : Z) :
  0 <= row < 1024 -> 0 <= col < 1024 ->
  nth_error (pixel_order (Z.to_nat 1024) (Z.to_nat 1024))
    (Z.to_nat (row * 1024 + col))
  = Some (col, 1023 - row).
Proof.
  intros Hr Hc.
  rewrite Z2Nat.inj_add, Z2Nat.inj_mul by lia.
  rewrite pixel_order_nth by (apply Z2Nat.inj_lt; lia).
  rewrite Z2Nat.id by lia.
  rewrite Nat2Z.inj_sub by (apply Nat.le_add_le_sub_l;
    rewrite Nat.add_1_l; apply Nat.le_succ_l, Z2Nat.inj_lt; lia).
  rewrite Nat2Z.inj_sub by (change 1%nat with (Z.to_nat 1);
    apply Z2Nat.inj_le; lia).
  rewrite !Z2Nat.id by lia. reflexivity.
Qed.



(** The same program at 4x4 pixels, run to the end with the reference
    [powf]: the run is defined, two rays hit a sphere. *)
Example program_4x4 :
  option_map (fun p => (fst p, cout (snd p)))
    (program powf_ref 4 4 10 initial_state)
  = Some (0, "P3
4 4
255
230 230 230
25 25 25
230 230 230
230 230 230
230 230 230
25 25 25
230 230 230
230 230 230
25 25 25
102 51 0
25 12 0
25 25 25
230 230 230
25 25 25
230 230 230
230 230 230
"%string).
Proof. vm_compute. reflexivity. Qed.

(* ================================================================== *)
(** * Determinism *)
(* ================================================================== *)

(** What a run of [main] appends to the output, as a function of the
    scene vector it starts with and of nothing else. *)
Definition emitted (powf : float -> float -> float) (sc0 : list Sphere)
  : option string :=
  option_map (fun rgbs => (header 1024 1024 ++ lines_text rgbs)%string)
    (mapM (quantized_pixel powf 1024 1024 10 (sc0 ++ main_scene))
       (pixel_order (Z.to_nat 1024) (Z.to_nat 1024))).

Lemma main_emitted (powf : float -> float -> float) (st : State) :
  main powf st
  = option_map
      (fun text => (0, mkState (scene st ++ main_scene) (cout st ++ text)%string))
      (emitted powf (scene st)).
Proof.
  unfold main, emitted. rewrite program_eq. cbv zeta.
  rewrite <- main_scene_eq.
  destruct (mapM _ _) as [rgbs | ]; reflexivity.
Qed.

(** The scene of the specification's end-to-end scenario: one sphere of
    radius 0.75 centred at (0,0,-3), of any colour and reflectivity. *)
Definition scenario_scene (color : Vec) (reflectivity : float) : list Sphere :=
  [Sphere.mk (Vec.mk Lit.f0 Lit.f0 (F32.of_int (-3))) Lit.f0_75
     color reflectivity].

(** C7. The output of a run is a function of the state the run starts in:
    two runs of [main] that start with the same scene vector (empty, when
    the program starts) are defined together and append the same bytes to
    the output, whatever was written before.  The scenario of the
    specification, one sphere at (0,0,-3) of radius 0.75 seen from
    (0,0,2) at 4x4 pixels, yields one fixed stream, the same for every
    [powf], colour and reflectivity: no ray hits the sphere. *)
Theorem render_deterministic (powf : float -> float -> float)
    (st1 st2 : State) :
  scene st1 = scene st2 ->
  (exists out : option string,
     main powf st1
     = option_map
         (fun text => (0, mkState (scene st1 ++ main_scene)
                            (cout st1 ++ text)%string)) out /\
     main powf st2
     = option_map
         (fun text => (0, mkState (scene st2 ++ main_scene)
                            (cout st2 ++ text)%string)) out) /\
  (forall color reflectivity,
     render powf 4 4 1
       (write (header 4 4)
          (mkState (scenario_scene color reflectivity) EmptyString))
     = Some (mkState (scenario_scene color reflectivity) "P3
4 4
255
230 230 230
25 25 25
230 230 230
230 230 230
230 230 230
25 25 25
230 230 230
230 230 230
25 25 25
230 230 230
25 25 25
25 25 25
230 230 230
25 25 25
230 230 230
230 230 230
"%string)).
Proof.
  intros Hsc. split.
  - exists (emitted powf (scene st1)). split.
    + apply main_emitted.
    + rewrite Hsc. apply main_emitted.
  - intros color reflectivity. vm_compute. reflexivity.
Qed.

Lemma render_deterministic_witness :
  scene initial_state = scene (mkState [] "earlier output") /\
  exists out : option string,
    main powf_ref initial_state
    = option_map (fun text => (0, mkState main_scene text)) out /\
    main powf_ref (mkState [] "earlier output")
    = option_map
        (fun text => (0, mkState main_scene ("earlier output" ++ text)%string))
        out.
Proof.
  split; [reflexivity | ].
  exact (proj1 (render_deterministic powf_ref initial_state
                  (mkState [] "earlier output") eq_refl)).
Defined.

(* ================================================================== *)
(** * The reflectivity field *)
(* ================================================================== *)

(** Two spheres that agree on everything but, possibly, the
    reflectivity. *)
Definition same_but_reflectivity (s1 s2 : Sphere) : Prop :=
  Sphere.c s1 = Sphere.c s2 /\
  Sphere.r s1 = Sphere.r s2 /\
  Sphere.col s1 = Sphere.col s2.

Definition with_reflectivity (rho : float) (s : Sphere) : Sphere :=
  Sphere.mk (Sphere.c s) (Sphere.r s) (Sphere.col s) rho.

Lemma with_reflectivity_same (rho : float) (l : list Sphere) :
  Forall2 same_but_reflectivity l (map (with_reflectivity rho) l).
Proof.
  induction l as [ | s l IH]; simpl; constructor; [ | exact IH].
  repeat split.
Qed.

Lemma for_up_ext {St : Type} (f g : Z -> St -> option St) (n : nat) :
  (forall i s, f i s = g i s) ->
  forall lo s, for_up lo n f s = for_up lo n g s.
Proof.
  intros Hfg. induction n as [ | n IH]; intros lo s; simpl; [reflexivity | ].
  rewrite Hfg. destruct (g lo s) as [s' | ]; simpl; [apply IH | reflexivity].
Qed.

Lemma Forall2_nth_error {A B : Type} (R : A -> B -> Prop)
    (l1 : list A) (l2 : list B) :
  Forall2 R l1 l2 ->
  forall k : nat,
    match nth_error l1 k, nth_error l2 k with
    | Some a, Some b => R a b
    | None, None => True
    | _, _ => False
    end.
Proof.
  induction 1 as [ | a b l1 l2 Hab _ IH]; intros k.
  - destruct k; exact I.
  - destruct k as [ | k]; simpl; [exact Hab | apply IH].
Qed.

Section Reflectivity.

Variable powf : float -> float -> float.
Variables sc1 sc2 : list Sphere.
Hypothesis Hsame : Forall2 same_but_reflectivity sc1 sc2.

Lemma intersect_sphere_same (s1 s2 : Sphere) (r : Ray) :
  same_but_reflectivity s1 s2 ->
  intersect_sphere s1 r = intersect_sphere s2 r.
Proof.
  intros [Hc [Hr _]]. unfold intersect_sphere. rewrite Hc, Hr. reflexivity.
Qed.

(** The two scenes are indexed alike. *)
Lemma nth_error_same (k : nat) :
  match nth_error sc1 k, nth_error sc2 k with
  | Some s1, Some s2 => same_but_reflectivity s1 s2
  | None, None => True
  | _, _ => False
  end.
Proof. apply Forall2_nth_error. exact Hsame. Qed.

Lemma scan_step_same (r : Ray) (k : Z) (best : float * Z) :
  scan_step sc1 r k best = scan_step sc2 r k best.
Proof.
  unfold scan_step. pose proof (nth_error_same (Z.to_nat k)) as H.
  destruct (nth_error sc1 (Z.to_nat k)) as [s1 | ];
    destruct (nth_error sc2 (Z.to_nat k)) as [s2 | ];
    try contradiction; [ | reflexivity].
  simpl. rewrite (intersect_sphere_same s1 s2 r H). reflexivity.
Qed.

Lemma closest_same (N_SPHERES : Z) (r : Ray) :
  closest N_SPHERES sc1 r = closest N_SPHERES sc2 r.
Proof. unfold closest. apply for_up_ext. intros k best. apply scan_step_same. Qed.

Lemma shade_hit_same (r : Ray) (best_t : float) (hit_id : Z) :
  shade_hit powf sc1 r best_t hit_id = shade_hit powf sc2 r best_t hit_id.
Proof.
  unfold shade_hit. pose proof (nth_error_same (Z.to_nat hit_id)) as H.
  destruct (nth_error sc1 (Z.to_nat hit_id)) as [s1 | ];
    destruct (nth_error sc2 (Z.to_nat hit_id)) as [s2 | ];
    try contradiction; [ | reflexivity].
  destruct H as [Hc [_ Hcol]]. simpl. rewrite Hc, Hcol. reflexivity.
Qed.

Lemma pixel_color_same (N_SPHERES : Z) (u v : float) :
  pixel_color powf N_SPHERES sc1 u v = pixel_color powf N_SPHERES sc2 u v.
Proof.
  unfold pixel_color. rewrite closest_same.
  destruct (closest N_SPHERES sc2 (camera_ray u v)) as [[bt id] | ];
    simpl; [ | reflexivity].
  destruct (0 <=? id); [apply shade_hit_same | reflexivity].
Qed.

Lemma quantized_pixel_same (W H N : Z) (ij : Z * Z) :
  quantized_pixel powf W H N sc1 ij = quantized_pixel powf W H N sc2 ij.
Proof. unfold quantized_pixel. rewrite pixel_color_same. reflexivity. Qed.

End Reflectivity.

(** C9. Two scenes whose spheres differ at most in their reflectivity are
    rendered to the same pixel stream, at every resolution and for every
    number of spheres scanned: the intersection test reads the centre and
    the radius only, the shading the centre and the colour, and nothing
    else on the render path reads a sphere. *)
Theorem reflectivity_inert (powf : float -> float -> float)
    (W H N : Z) (sc1 sc2 : list Sphere) (out : string) :
  Forall2 same_but_reflectivity sc1 sc2 ->
  option_map cout (render powf W H N (mkState sc1 out))
  = option_map cout (render powf W H N (mkState sc2 out)) /\
  (forall s1 s2 r, same_but_reflectivity s1 s2 ->
     intersect_sphere s1 r = intersect_sphere s2 r) /\
  (forall r best_t hit_id,
     shade_hit powf sc1 r best_t hit_id = shade_hit powf sc2 r best_t hit_id) /\
  (forall u v, pixel_color powf N sc1 u v = pixel_color powf N sc2 u v).
Proof.
  intros Hsame. split.
  - rewrite !render_eq. cbn [scene].
    rewrite (mapM_ext (quantized_pixel powf W H N sc1)
               (quantized_pixel powf W H N sc2) _
               (fun ij _ => quantized_pixel_same powf sc1 sc2 Hsame W H N ij)).
    destruct (mapM _ _) as [rgbs | ]; reflexivity.
  - split; [intros s1 s2 r; apply intersect_sphere_same | ].
    split; [intros r bt id; apply (shade_hit_same powf sc1 sc2 Hsame) | ].
    intros u v. apply (pixel_color_same powf sc1 sc2 Hsame).
Qed.

Lemma reflectivity_inert_witness :
  Forall2 same_but_reflectivity
    main_scene (map (with_reflectivity Lit.f0_5) main_scene) /\
  option_map cout (render powf_ref 4 4 10 (mkState main_scene EmptyString))
  = option_map cout
      (render powf_ref 4 4 10
         (mkState (map (with_reflectivity Lit.f0_5) main_scene) EmptyString)).
Proof.
  split; [apply with_reflectivity_same | ].
  exact (proj1 (reflectivity_inert powf_ref 4 4 10 main_scene
                  (map (with_reflectivity Lit.f0_5) main_scene) EmptyString
                  (with_reflectivity_same Lit.f0_5 main_scene))).
Defined.

(* ================================================================== *)
(** * Further properties of the intersection test *)
(* ================================================================== *)

(** X1. Whatever the sphere and the ray hold (NaN and infinities
    included), [intersect_sphere] answers [INFINITY] or a finite, strictly
    positive number: never NaN, never a zero, never a negative number. *)
Theorem intersect_sphere_range (s : Sphere) (r : Ray) :
  let t := intersect_sphere s r in
  (t = INFINITY \/ exists m e, t = S754_finite false m e) /\
  F32.is_nan t = false /\
  (t >? Lit.f0)%f32 = true /\
  (t <=? INFINITY)%f32 = true.
Proof.
  intros t. pose proof (intersect_sphere_is_dist s r) as D. fold t in D.
  split.
  - destruct ((t <? INFINITY)%f32) eqn:E.
    + right. apply F32Facts.dist_lt_inf; assumption.
    + left. apply F32Facts.dist_not_lt_inf; assumption.
  - split; [apply F32Facts.is_dist_not_nan; exact D | ].
    split; [apply F32Facts.is_dist_gt_zero; exact D | ].
    apply F32Facts.dist_leb_inf; exact D.
Qed.

(** A vector with a NaN component. *)
Definition vec_has_nan (v : Vec) : bool :=
  F32.is_nan (Vec.x v) || F32.is_nan (Vec.y v) || F32.is_nan (Vec.z v).

Lemma is_nan_eq (x : float) : F32.is_nan x = true -> x = S754_nan.
Proof. destruct x; simpl; congruence. Qed.

Lemma mul_nan_l (y : float) : (S754_nan * y)%f32 = S754_nan.
Proof. reflexivity. Qed.

Lemma mul_nan_r (x : float) : (x * S754_nan)%f32 = S754_nan.
Proof. destruct x; reflexivity. Qed.

Lemma add_nan_l (y : float) : (S754_nan + y)%f32 = S754_nan.
Proof. reflexivity. Qed.

Lemma add_nan_r (x : float) : (x + S754_nan)%f32 = S754_nan.
Proof. destruct x; reflexivity. Qed.

Lemma sub_nan_l (y : float) : (S754_nan - y)%f32 = S754_nan.
Proof. reflexivity. Qed.

Lemma sub_nan_r (x : float) : (x - S754_nan)%f32 = S754_nan.
Proof. destruct x; reflexivity. Qed.

Lemma div_nan_l (y : float) : (S754_nan / y)%f32 = S754_nan.
Proof. reflexivity. Qed.

Lemma div_nan_r (x : float) : (x / S754_nan)%f32 = S754_nan.
Proof. destruct x; reflexivity. Qed.

Lemma vec_has_nan_cases (v : Vec) :
  vec_has_nan v = true ->
  Vec.x v = S754_nan \/ Vec.y v = S754_nan \/ Vec.z v = S754_nan.
Proof.
  unfold vec_has_nan. intros H.
  apply orb_prop in H. destruct H as [H | H].
  - apply orb_prop in H. destruct H as [H | H].
    + left. apply is_nan_eq, H.
    + right. left. apply is_nan_eq, H.
  - right. right. apply is_nan_eq, H.
Qed.

Lemma dot_nan_l (a b : Vec) : vec_has_nan a = true -> dot a b = S754_nan.
Proof.
  intros H. unfold dot.
  destruct (vec_has_nan_cases a H) as [E | [E | E]]; rewrite E;
    rewrite mul_nan_l;
    repeat first [rewrite add_nan_l | rewrite add_nan_r]; reflexivity.
Qed.

Lemma dot_nan_r (a b : Vec) : vec_has_nan b = true -> dot a b = S754_nan.
Proof.
  intros H. unfold dot.
  destruct (vec_has_nan_cases b H) as [E | [E | E]]; rewrite E;
    rewrite mul_nan_r;
    repeat first [rewrite add_nan_l | rewrite add_nan_r]; reflexivity.
Qed.

Lemma vsub_nan_l (a b : Vec) :
  vec_has_nan a = true -> vec_has_nan (a - b)%vec = true.
Proof.
  intros H. unfold vsub, vec_has_nan. cbn [Vec.x Vec.y Vec.z].
  destruct (vec_has_nan_cases a H) as [E | [E | E]]; rewrite E, sub_nan_l;
    cbn [F32.is_nan]; rewrite ?orb_true_r; reflexivity.
Qed.

Lemma vsub_nan_r (a b : Vec) :
  vec_has_nan b = true -> vec_has_nan (a - b)%vec = true.
Proof.
  intros H. unfold vsub, vec_has_nan. cbn [Vec.x Vec.y Vec.z].
  destruct (vec_has_nan_cases b H) as [E | [E | E]]; rewrite E, sub_nan_r;
    cbn [F32.is_nan]; rewrite ?orb_true_r; reflexivity.
Qed.

(** The answer when the discriminant is NaN. *)
Lemma intersect_sphere_nan_disc (s : Sphere) (r : Ray) :
  let Oc := (Ray.A r - Sphere.c s)%vec in
  let b := dot (Ray.B r) Oc in
  let c := (dot Oc Oc - Sphere.r s * Sphere.r s)%f32 in
  (b * b - c)%f32 = S754_nan ->
  intersect_sphere s r = INFINITY.
Proof.
  intros Oc b c E. unfold intersect_sphere.
  fold Oc. fold b. fold c. rewrite E.
  change ((S754_nan <? Lit.f0)%f32) with false. cbv iota.
  change (F32.sqrtf S754_nan) with S754_nan.
  rewrite sub_nan_r. reflexivity.
Qed.

(** A ray whose direction holds a NaN hits nothing. *)
Lemma intersect_sphere_nan_dir (s : Sphere) (r : Ray) :
  vec_has_nan (Ray.B r) = true -> intersect_sphere s r = INFINITY.
Proof.
  intros HB. apply intersect_sphere_nan_disc.
  rewrite (dot_nan_l _ _ HB). reflexivity.
Qed.

(** X2. A NaN anywhere in the data of the test (a coordinate of the
    sphere's centre, its radius, a coordinate of the ray's origin or of
    its direction) makes the test answer [INFINITY]: such a sphere is
    never hit, such a ray hits nothing, and the NaN does not leave the
    function. *)
Theorem intersect_sphere_nan_misses (s : Sphere) (r : Ray) :
  vec_has_nan (Sphere.c s) || F32.is_nan (Sphere.r s)
    || vec_has_nan (Ray.A r) || vec_has_nan (Ray.B r) = true ->
  intersect_sphere s r = INFINITY.
Proof.
  intros H.
  apply orb_prop in H. destruct H as [H | HB];
    [ | apply intersect_sphere_nan_dir; exact HB].
  apply intersect_sphere_nan_disc.
  (* the constant term is NaN *)
  assert (Ec : (dot (vsub (Ray.A r) (Sphere.c s)) (vsub (Ray.A r) (Sphere.c s))
                - Sphere.r s * Sphere.r s)%f32 = S754_nan).
  { apply orb_prop in H. destruct H as [H | HA].
    - apply orb_prop in H. destruct H as [Hc | Hr].
      + rewrite (dot_nan_l _ _ (vsub_nan_r _ _ Hc)). reflexivity.
      + rewrite (is_nan_eq _ Hr), mul_nan_l, sub_nan_r. reflexivity.
    - rewrite (dot_nan_l _ _ (vsub_nan_l _ _ HA)). reflexivity. }
  rewrite Ec. apply sub_nan_r.
Qed.

Lemma intersect_sphere_nan_misses_witness :
  intersect_sphere
    (Sphere.mk (Vec.mk Lit.f0 S754_nan Lit.f0) Lit.f0_75
       (Vec.mk Lit.f1 Lit.f1 Lit.f1) Lit.f0)
    (Ray.mk (Vec.mk Lit.f0 Lit.f0 Lit.f2) (Vec.mk Lit.f0 Lit.f0 Lit.fm1))
  = INFINITY.
Proof.
  apply intersect_sphere_nan_misses. reflexivity.
Defined.

(* ================================================================== *)
(** * Further properties of the quantization *)
(* ================================================================== *)

(** X3. On well-formed binary32 data [clip] is undefined for NaN and for
    nothing else; the infinities are clamped like any other number. *)
Theorem clip_undefined_iff_nan (c : float) :
  F32.valid c = true ->
  (clip c = None <-> c = S754_nan) /\
  clip (S754_infinity false) = Some 255 /\
  clip (S754_infinity true) = Some 0.
Proof.
  intros Hv. split; [ | split; reflexivity].
  split.
  - intros E. destruct (F32.is_nan c) eqn:Hn.
    + apply is_nan_eq, Hn.
    + destruct (clip_byte c (valid_in_precision c Hv) Hn) as [n [E' _]].
      congruence.
  - intros ->. reflexivity.
Qed.

Lemma clip_undefined_iff_nan_witness :
  F32.valid (S754_infinity false) = true /\
  (clip (S754_infinity false) = None <-> S754_infinity false = S754_nan).
Proof.
  split; [reflexivity | ].
  exact (proj1 (clip_undefined_iff_nan (S754_infinity false) eq_refl)).
Defined.

(* ================================================================== *)
(** * The scan: definedness and the all-miss case *)
(* ================================================================== *)

Lemma nth_error_in_range {A : Type} (l : list A) (k : Z) :
  0 <= k ->
  (nth_error l (Z.to_nat k) <> None <-> k < Z.of_nat (List.length l)).
Proof.
  intros Hk. rewrite nth_error_Some. lia.
Qed.

(** The scan loop reads [scene[k]] for every [k] it visits, whatever the
    earlier answers were. *)
Lemma scan_loop_defined (sc : list Sphere) (r : Ray) (n : nat) :
  forall (lo : Z) (best : float * Z),
    0 <= lo ->
    (for_up lo n (scan_step sc r) best <> None
     <-> (n = 0%nat \/ lo + Z.of_nat n <= Z.of_nat (List.length sc))).
Proof.
  induction n as [ | n IH]; intros lo best Hlo.
  - simpl. split; [intros _; left; reflexivity | intros _; discriminate].
  - cbn [for_up]. unfold scan_step at 1.
    pose proof (nth_error_in_range sc lo Hlo) as Hk.
    destruct (nth_error sc (Z.to_nat lo)) as [s | ]; cbn [bind].
    + rewrite IH by lia.
      assert (lo < Z.of_nat (List.length sc)) by (apply Hk; discriminate).
      split.
      * intros [-> | H']; right; lia.
      * intros [H' | H']; [discriminate | ]. right. lia.
    + split; [intros H; contradiction H; reflexivity | ].
      intros [H' | H']; [discriminate | ].
      assert (Hlt : lo < Z.of_nat (List.length sc)) by lia.
      apply Hk in Hlt. contradiction Hlt. reflexivity.
Qed.

(** When every sphere visited answers [INFINITY], the pair stays
    [(INFINITY, -1)]. *)
Lemma scan_loop_all_miss (sc : list Sphere) (r : Ray) (n : nat) :
  (forall s, In s sc -> intersect_sphere s r = INFINITY) ->
  forall (lo : Z),
    for_up lo n (scan_step sc r) (INFINITY, -1) = None \/
    for_up lo n (scan_step sc r) (INFINITY, -1) = Some (INFINITY, -1).
Proof.
  intros Hmiss. induction n as [ | n IH]; intros lo.
  - right. reflexivity.
  - cbn [for_up]. unfold scan_step at 1 3.
    destruct (nth_error sc (Z.to_nat lo)) as [s | ] eqn:Es; cbn [bind].
    + rewrite (Hmiss s (nth_error_In _ _ Es)). cbn [fst].
      rewrite F32Facts.ltb_irrefl. apply IH.
    + left. reflexivity.
Qed.

(** X9. The scan is defined exactly when the scene holds at least the
    [N_SPHERES] spheres it indexes: with fewer, [scene[k]] is read out of
    bounds. *)
Theorem closest_defined_iff (N_SPHERES : Z) (sc : list Sphere) (r : Ray) :
  0 <= N_SPHERES ->
  (closest N_SPHERES sc r <> None
   <-> N_SPHERES <= Z.of_nat (List.length sc)).
Proof.
  intros HN. unfold closest.
  rewrite scan_loop_defined by lia.
  split.
  - intros [H | H]; lia.
  - intros H. right. lia.
Qed.

Lemma closest_defined_iff_witness :
  0 <= 10 /\
  (closest 10 main_scene (camera_ray Lit.f0 Lit.f0) <> None
   <-> 10 <= Z.of_nat (List.length main_scene)) /\
  closest 10 (tl main_scene) (camera_ray Lit.f0 Lit.f0) = None.
Proof.
  split; [lia | ].
  split; [apply closest_defined_iff; lia | ].
  vm_compute. reflexivity.
Defined.

(* ================================================================== *)
(** * The scene-building loop *)
(* ================================================================== *)

(** X5. The scene-building loop is always defined.  It appends exactly
    [N_SPHERES] spheres behind those the scene already holds, the one of
    index [k] being the sphere built for [i = k]; every one of them has
    the radius 0.75, the reflectivity 0, its centre in the plane [x = 0]
    and the green channel 0.5; and nothing is written to the output. *)
Theorem build_scene_appends (N_SPHERES : Z) (st : State) :
  0 <= N_SPHERES ->
  exists added : list Sphere,
    build_scene N_SPHERES st = Some (mkState (scene st ++ added) (cout st)) /\
    Z.of_nat (List.length added) = N_SPHERES /\
    (forall k, 0 <= k < N_SPHERES ->
       nth_error added (Z.to_nat k) = Some (make_sphere N_SPHERES k)) /\
    Forall (fun s =>
              Sphere.r s = Lit.f0_75 /\
              Sphere.reflectivity s = Lit.f0 /\
              Vec.x (Sphere.c s) = Lit.f0 /\
              Vec.y (Sphere.col s) = Lit.f0_5) added.
Proof.
  intros HN.
  exists (map (make_sphere N_SPHERES) (zseq 0 (Z.to_nat N_SPHERES))).
  split; [apply build_scene_eq | ].
  split; [rewrite length_map, zseq_length; lia | ].
  split.
  - intros k Hk. rewrite nth_error_map, zseq_nth by lia.
    rewrite Z2Nat.id by lia. reflexivity.
  - apply Forall_forall. intros s Hs. apply in_map_iff in Hs.
    destruct Hs as [k [<- _]]. repeat split.
Qed.

Lemma build_scene_appends_witness :
  0 <= 10 /\
  option_map (fun st => List.length (scene st)) (build_scene 10 initial_state)
  = Some 10%nat.
Proof.
  split; [lia | ].
  destruct (build_scene_appends 10 initial_state) as [added [E [Hl _]]]; [lia | ].
  rewrite E. simpl. f_equal. lia.
Defined.

(* ================================================================== *)
(** * The shape of the output at every resolution *)
(* ================================================================== *)

Lemma mapM_length {A B : Type} (f : A -> option B) (l : list A) (bs : list B) :
  mapM f l = Some bs -> List.length bs = List.length l.
Proof.
  intros E. apply (Forall2_length_eq _ _ _ (mapM_Forall2 f l bs E)).
Qed.

Lemma mapM_bytes (powf : float -> float -> float) (W H N : Z)
    (sc : list Sphere) (l : list (Z * Z)) (rgbs : list (Z * Z * Z)) :
  mapM (quantized_pixel powf W H N sc) l = Some rgbs -> Forall bytes rgbs.
Proof.
  intros E.
  apply (Forall2_Forall_r (fun ij rgb => quantized_pixel powf W H N sc ij = Some rgb)
           bytes l rgbs); [ | apply mapM_Forall2; exact E].
  intros ij rgb. apply quantized_pixel_bytes.
Qed.

(** X6. At every resolution, for every number of spheres, every earlier
    content of the scene and of the output and every [powf]: a run that
    is defined returns 0, leaves what was written before in place and
    appends the header followed by exactly [WIDTH * HEIGHT] pixel lines,
    every channel of which is in [0..255]. *)
Theorem program_output_shape (powf : float -> float -> float)
    (WIDTH HEIGHT N_SPHERES : Z) (st st' : State) (rc : Z) :
  0 <= WIDTH -> 0 <= HEIGHT ->
  program powf WIDTH HEIGHT N_SPHERES st = Some (rc, st') ->
  rc = 0 /\
  exists rgbs : list (Z * Z * Z),
    cout st' = (cout st ++ header WIDTH HEIGHT ++ lines_text rgbs)%string /\
    Z.of_nat (List.length rgbs) = WIDTH * HEIGHT /\
    Forall bytes rgbs.
Proof.
  intros HW HH. rewrite program_eq. cbv zeta. unfold bind.
  destruct (mapM _ _) as [rgbs | ] eqn:E; [ | discriminate].
  intros Eq. injection Eq as <- <-.
  split; [reflexivity | ].
  exists rgbs. split; [reflexivity | ].
  split.
  - rewrite (mapM_length _ _ _ E), pixel_order_length. lia.
  - apply (mapM_bytes _ _ _ _ _ _ _ E).
Qed.

Lemma program_output_shape_witness :
  0 <= 4 /\ 0 <= 4 /\
  exists st', program powf_ref 4 4 10 initial_state = Some (0, st') /\
  exists rgbs : list (Z * Z * Z),
    cout st' = (cout initial_state ++ header 4 4 ++ lines_text rgbs)%string /\
    Z.of_nat (List.length rgbs) = 4 * 4 /\
    Forall bytes rgbs.
Proof.
  split; [lia | ]. split; [lia | ].
  destruct (program powf_ref 4 4 10 initial_state) as [[rc st'] | ] eqn:E;
    [ | vm_compute in E; discriminate E].
  destruct (program_output_shape powf_ref 4 4 10 initial_state st' rc
              ltac:(lia) ltac:(lia) E) as [-> H].
  exists st'. split; [reflexivity | exact H].
Defined.

Lemma pixel_order_empty (W H : nat) :
  W = 0%nat \/ H = 0%nat -> pixel_order W H = [].
Proof.
  unfold pixel_order. intros [-> | ->]; [ | reflexivity].
  induction H as [ | H IH]; simpl; [reflexivity | exact IH].
Qed.

(** X7. An image without pixels ([WIDTH = 0] or [HEIGHT = 0]) is always
    defined: the scene is built and the header alone is written. *)
Theorem program_empty_image (powf : float -> float -> float)
    (WIDTH HEIGHT N_SPHERES : Z) (st : State) :
  WIDTH = 0 \/ HEIGHT = 0 ->
  program powf WIDTH HEIGHT N_SPHERES st
  = Some (0, mkState
               (scene st ++ map (make_sphere N_SPHERES)
                              (zseq 0 (Z.to_nat N_SPHERES)))
               (cout st ++ header WIDTH HEIGHT)%string).
Proof.
  intros H0. rewrite program_eq. cbv zeta.
  rewrite pixel_order_empty by (destruct H0 as [-> | ->]; [left | right]; reflexivity).
  cbn [mapM bind lines_text]. rewrite append_nil_r. reflexivity.
Qed.

Lemma program_empty_image_witness :
  option_map (fun p => cout (snd p)) (program powf_ref 0 1024 10 initial_state)
  = Some ("P3" ++ nl ++ "0 1024" ++ nl ++ "255" ++ nl)%string.
Proof.
  rewrite (program_empty_image powf_ref 0 1024 10 initial_state (or_introl eq_refl)).
  vm_compute. reflexivity.
Defined.

(* ================================================================== *)
(** * NaN coordinates *)
(* ================================================================== *)

Lemma camera_ray_nan (u v : float) :
  F32.is_nan u || F32.is_nan v = true ->
  vec_has_nan (Ray.B (camera_ray u v)) = true.
Proof.
  intros H. unfold camera_ray. cbn [Ray.B]. unfold norm.
  assert (Hw : vec_has_nan (Vec.mk u v Lit.f0 - ORIGIN)%vec = true).
  { apply vsub_nan_l. unfold vec_has_nan. cbn [Vec.x Vec.y Vec.z].
    rewrite H. reflexivity. }
  rewrite (dot_nan_l _ _ Hw). change (F32.sqrtf S754_nan) with S754_nan.
  unfold vdiv, vec_has_nan. cbn [Vec.x]. rewrite div_nan_r. reflexivity.
Qed.

Lemma checker_cell_nan : checker_cell S754_nan = None.
Proof. reflexivity. Qed.

Lemma background_nan (u v : float) :
  F32.is_nan u || F32.is_nan v = true -> background u v = None.
Proof.
  intros H. unfold background.
  apply orb_prop in H. destruct H as [H | H]; rewrite (is_nan_eq _ H).
  - reflexivity.
  - rewrite checker_cell_nan. destruct (checker_cell u); reflexivity.
Qed.

(** A pixel with a NaN coordinate cannot be coloured: its ray misses
    every sphere, and the checkerboard converts NaN to [int]. *)
Lemma pixel_color_nan (powf : float -> float -> float) (N_SPHERES : Z)
    (sc : list Sphere) (u v : float) :
  F32.is_nan u || F32.is_nan v = true ->
  pixel_color powf N_SPHERES sc u v = None.
Proof.
  intros H. unfold pixel_color.
  destruct (scan_loop_all_miss sc (camera_ray u v) (Z.to_nat N_SPHERES)
              (fun s _ => intersect_sphere_nan_dir s (camera_ray u v)
                 (camera_ray_nan u v H)) 0)
    as [E | E]; unfold closest; rewrite E; cbn [bind].
  - reflexivity.
  - change (0 <=? -1) with false. cbv iota. apply background_nan. exact H.
Qed.

(** X8. An image one pixel wide or one pixel high cannot be rendered:
    the screen coordinate is [-1 + 0/0], a NaN; the ray of the first
    pixel then misses every sphere and the checkerboard converts NaN to
    [int], which is undefined. *)
Theorem program_one_pixel_undefined (powf : float -> float -> float)
    (WIDTH HEIGHT N_SPHERES : Z) (st : State) :
  (WIDTH = 1 /\ 1 <= HEIGHT) \/ (HEIGHT = 1 /\ 1 <= WIDTH) ->
  program powf WIDTH HEIGHT N_SPHERES st = None.
Proof.
  intros HWH. unfold program. rewrite build_scene_eq. cbn [bind].
  unfold render.
  assert (EH : exists h, Z.to_nat HEIGHT = S h /\ (HEIGHT = 1 -> h = 0%nat)).
  { exists (Nat.pred (Z.to_nat HEIGHT)). split; lia. }
  assert (EW : exists w, Z.to_nat WIDTH = S w) by (exists (Nat.pred (Z.to_nat WIDTH)); lia).
  destruct EH as [h [-> Hh]]. destruct EW as [w ->].
  cbn [for_down for_up].
  assert (Ep : forall st0, pixel powf WIDTH HEIGHT N_SPHERES 0 (Z.of_nat h) st0 = None).
  { intros st0. unfold pixel.
    rewrite pixel_color_nan; [reflexivity | ].
    destruct HWH as [[-> _] | [-> _]].
    - reflexivity.
    - rewrite (Hh eq_refl). apply orb_true_r. }
  rewrite Ep. reflexivity.
Qed.

Lemma program_one_pixel_undefined_witness :
  program powf_ref 1 1 10 initial_state = None.
Proof.
  apply program_one_pixel_undefined. left. split; [reflexivity | lia].
Defined.

(* ================================================================== *)
(** * The text of a background pixel *)
(* ================================================================== *)

Lemma closest_all_miss (N_SPHERES : Z) (sc : list Sphere) (r : Ray) :
  0 <= N_SPHERES <= Z.of_nat (List.length sc) ->
  (forall s, In s sc -> intersect_sphere s r = INFINITY) ->
  closest N_SPHERES sc r = Some (INFINITY, -1).
Proof.
  intros HN Hmiss.
  destruct (scan_loop_all_miss sc r (Z.to_nat N_SPHERES) Hmiss 0) as [E | E];
    [ | exact E].
  exfalso. revert E. apply scan_loop_defined; [lia | ]. right. lia.
Qed.

Lemma quantize_light : quantize light_cell = Some (230, 230, 230).
Proof. vm_compute. reflexivity. Qed.

Lemma quantize_dark : quantize dark_cell = Some (25, 25, 25).
Proof. vm_compute. reflexivity. Qed.

(** X4. In the image of [main], a pixel whose ray misses every sphere of
    the scene is always defined and is written as the line
    [230 230 230] when the sum of its two cell indices is even and as
    [25 25 25] when it is odd, for every [powf]. *)
Theorem background_pixel_text (powf : float -> float -> float)
    (i j : Z) (st : State) :
  0 <= i < 1024 -> 0 <= j < 1024 ->
  (10 <= List.length (scene st))%nat ->
  (forall s, In s (scene st) ->
     intersect_sphere s (camera_ray (coord_u 1024 i) (coord_v 1024 j))
     = INFINITY) ->
  exists ix iy,
    checker_cell (coord_u 1024 i) = Some ix /\
    checker_cell (coord_v 1024 j) = Some iy /\
    pixel powf 1024 1024 10 i j st
    = Some (write (if Z.even (ix + iy)
                   then "230 230 230" ++ nl
                   else "25 25 25" ++ nl)%string st).
Proof.
  intros Hi Hj Hlen Hmiss.
  destruct (cell_of_main i Hi) as [ix [Ex Hx]].
  destruct (cell_of_main j Hj) as [iy [Ey Hy]].
  exists ix, iy. split; [exact Ex | ].
  change (coord_v 1024 j) with (coord_u 1024 j). split; [exact Ey | ].
  unfold pixel, pixel_color.
  change (coord_v 1024 j) with (coord_u 1024 j) in *.
  rewrite (closest_all_miss 10 (scene st) _ ltac:(lia) Hmiss). cbn [bind].
  change (0 <=? -1) with false. cbv iota.
  unfold background. rewrite Ex, Ey. cbn [bind].
  unfold F32.int_add.
  replace (F32.in_int_range (ix + iy)) with true.
  2:{ symmetry. unfold F32.in_int_range, F32.INT_MIN, F32.INT_MAX.
      apply andb_true_intro.
      split; apply Z.leb_le; change (2 ^ 31) with 2147483648; lia. }
  cbn [bind]. rewrite land_1_even.
  destruct (Z.even (ix + iy)).
  - rewrite quantize_light. reflexivity.
  - rewrite quantize_dark. reflexivity.
Qed.

Lemma background_pixel_text_witness :
  exists ix iy,
    checker_cell (coord_u 1024 0) = Some ix /\
    checker_cell (coord_v 1024 0) = Some iy /\
    pixel powf_ref 1024 1024 10 0 0 (mkState main_scene EmptyString)
    = Some (write (if Z.even (ix + iy)
                   then "230 230 230" ++ nl
                   else "25 25 25" ++ nl)%string
              (mkState main_scene EmptyString)).
Proof.
  apply background_pixel_text.
  - lia.
  - lia.
  - simpl. lia.
  - intros s Hs. simpl in Hs.
    repeat (destruct Hs as [<- | Hs]; [vm_compute; reflexivity | ]).
    contradiction.
Defined.

(* ================================================================== *)
(** * The radius and the side of the sphere *)
(* ================================================================== *)

Lemma mul_neg_neg (x : float) : (- x * - x)%f32 = (x * x)%f32.
Proof.
  destruct x as [s | s | | s m e]; try destruct s; reflexivity.
Qed.

(** X13. The test reads the radius through its square only: a sphere
    with the radius [-r] is intersected exactly like the sphere with the
    radius [r], for every ray.  A negative radius is not rejected. *)
Theorem intersect_sphere_radius_sign (c col : Vec) (r rho : float) (ray : Ray) :
  intersect_sphere (Sphere.mk c (- r)%f32 col rho) ray
  = intersect_sphere (Sphere.mk c r col rho) ray.
Proof.
  unfold intersect_sphere. cbn [Sphere.c Sphere.r].
  rewrite mul_neg_neg. reflexivity.
Qed.

(** Not above zero: the numbers [<= 0], and NaN. *)
Definition not_positive (x : float) : bool :=
  match x with
  | S754_zero _ | S754_nan => true
  | S754_infinity s | S754_finite s _ _ => s
  end.

Lemma not_positive_gt (x : float) :
  not_positive x = true -> (x >? Lit.f0)%f32 = false.
Proof.
  destruct x as [s | s | | s m e]; try destruct s; simpl;
    intros H; try discriminate H; reflexivity.
Qed.

Lemma binary_round_aux_sign (m e : Z) (l : location) :
  not_positive (binary_round_aux F32.prec F32.emax true m e l) = true.
Proof.
  rewrite RoundFacts.binary_round_aux_core.
  destruct (fst (RoundFacts.round_core F32.prec F32.emax m e l)) as [ | p | p];
    try reflexivity.
  destruct (_ <=? _); reflexivity.
Qed.

Lemma binary_normalize_neg (p : positive) (e : Z) (sz : bool) :
  not_positive (binary_normalize F32.prec F32.emax (Zneg p) e sz) = true.
Proof.
  unfold binary_normalize, binary_round.
  destruct (shl_align _ _ _) as [mz ez]. apply binary_round_aux_sign.
Qed.

(** The sign of a square root: never negative. *)
Definition not_negative (x : float) : bool :=
  match x with
  | S754_zero _ | S754_nan => true
  | S754_infinity s | S754_finite s _ _ => negb s
  end.

Lemma binary_round_aux_nonneg (m e : Z) (l : location) :
  not_negative (binary_round_aux F32.prec F32.emax false m e l) = true.
Proof.
  rewrite RoundFacts.binary_round_aux_core.
  destruct (fst (RoundFacts.round_core F32.prec F32.emax m e l)) as [ | p | p];
    try reflexivity.
  destruct (_ <=? _); reflexivity.
Qed.

Lemma sqrtf_not_negative (x : float) : not_negative (F32.sqrtf x) = true.
Proof.
  destruct x as [s | s | | s m e]; try destruct s; try reflexivity.
  unfold F32.sqrtf, SFsqrt.
  destruct (SFsqrt_core_binary _ _ _ _) as [[mz ez] lz].
  apply binary_round_aux_nonneg.
Qed.

(** A number [<= 0] minus a number [>= 0] is not above zero. *)
Lemma sub_not_positive (x y : float) :
  not_positive x = true -> not_negative y = true ->
  not_positive (x - y)%f32 = true.
Proof.
  intros Hx Hy.
  destruct x as [s | s | | s m e]; destruct y as [s' | s' | | s' m' e'];
    try reflexivity; simpl in Hx, Hy;
    try (destruct s; try discriminate Hx);
    try (destruct s'; try discriminate Hy);
    try reflexivity.
  unfold F32.sub, SFsub.
  destruct (shl_align m e _) as [m1 e1] eqn:E1.
  destruct (shl_align m' e' _) as [m2 e2] eqn:E2.
  cbn [fst cond_Zopp].
  change (Z.neg m1 - Z.pos m2) with (Z.neg (m1 + m2)).
  apply binary_normalize_neg.
Qed.

Lemma neg_not_positive (b : float) :
  (b >=? Lit.f0)%f32 = true -> not_positive (- b)%f32 = true.
Proof.
  destruct b as [s | s | | s m e]; try destruct s; simpl;
    intros H; try discriminate H; reflexivity.
Qed.

(** X14. A ray that does not point towards the centre of the sphere
    ([dot(dir, origin - centre) >= 0]) is answered [INFINITY], wherever
    its origin is: only the near root [-b - sqrt(disc)] is examined, so
    from inside a sphere nothing of it is seen in the directions that
    lead away from its centre. *)
Theorem intersect_sphere_facing_away (s : Sphere) (r : Ray) :
  (dot (Ray.B r) (Ray.A r - Sphere.c s)%vec >=? Lit.f0)%f32 = true ->
  intersect_sphere s r = INFINITY.
Proof.
  intros Hb. unfold intersect_sphere.
  destruct (F32.ltb _ Lit.f0); [reflexivity | ].
  rewrite not_positive_gt; [reflexivity | ].
  apply sub_not_positive.
  - apply neg_not_positive. exact Hb.
  - apply sqrtf_not_negative.
Qed.

Lemma intersect_sphere_facing_away_witness :
  intersect_sphere unit_test_sphere
    (Ray.mk (Vec.mk Lit.f0 Lit.f0 Lit.f0_5) (Vec.mk Lit.f0 Lit.f0 Lit.f1))
  = INFINITY.
Proof.
  apply intersect_sphere_facing_away. vm_compute. reflexivity.
Defined.

(* ================================================================== *)
(** * The screen coordinates of [main] *)
(* ================================================================== *)

Definition coord_step_ok (i : Z) : bool :=
  (coord_u 1024 i <? coord_u 1024 (i + 1))%f32.

Lemma coord_steps_ok : forallb coord_step_ok (zseq 0 1023) = true.
Proof. vm_compute. reflexivity. Qed.

(** X15. The screen coordinates of the 1024 columns (and rows) increase
    strictly with the index, from exactly [-1] at index 0 to exactly [1]
    at index 1023: rounding never merges two neighbouring columns. *)
Theorem coord_strictly_increasing (i : Z) :
  0 <= i < 1023 ->
  (coord_u 1024 i <? coord_u 1024 (i + 1))%f32 = true /\
  (coord_v 1024 i <? coord_v 1024 (i + 1))%f32 = true /\
  coord_u 1024 0 = Lit.fm1 /\ coord_u 1024 1023 = Lit.f1 /\
  coord_v 1024 0 = Lit.fm1 /\ coord_v 1024 1023 = Lit.f1.
Proof.
  intros Hi.
  pose proof (proj1 (forallb_forall coord_step_ok (zseq 0 1023)) coord_steps_ok i
                (in_zseq 1023 0 i ltac:(lia))) as H.
  unfold coord_step_ok in H.
  split; [exact H | ]. split; [exact H | ].
  repeat split; vm_compute; reflexivity.
Qed.

Lemma coord_strictly_increasing_witness :
  0 <= 511 < 1023 /\
  (coord_u 1024 511 <? coord_u 1024 (511 + 1))%f32 = true.
Proof.
  split; [lia | ].
  exact (proj1 (coord_strictly_increasing 511 ltac:(lia))).
Defined.

(* ================================================================== *)
(** * Reading the pixel lines back *)
(* ================================================================== *)

Definition is_digit (c : ascii) : bool :=
  let n := Z.of_nat (nat_of_ascii c) in (48 <=? n) && (n <=? 57).

Definition digit_value (c : ascii) : Z := Z.of_nat (nat_of_ascii c) - 48.

(** The number that the leading decimal digits of [s] denote, continuing
    [acc], and what follows them. *)
Fixpoint read_digits (s : string) (acc : Z) : Z * string :=
  match s with
  | String c s' =>
      if is_digit c then read_digits s' (10 * acc + digit_value c)
      else (acc, s)
  | EmptyString => (acc, s)
  end.

(** One channel: at least one digit, then the separator [sep]. *)
Definition read_channel (sep : ascii) (s : string) : option (Z * string) :=
  match s with
  | String c _ =>
      if is_digit c then
        match read_digits s 0 with
        | (n, String c' rest) =>
            if Ascii.eqb c' sep then Some (n, rest) else None
        | _ => None
        end
      else None
  | EmptyString => None
  end.

Definition read_pixel (s : string) : option ((Z * Z * Z) * string) :=
  '(cr, s1) <- read_channel " " s ;;
  '(cg, s2) <- read_channel " " s1 ;;
  '(cb, s3) <- read_channel (ascii_of_nat 10) s2 ;;
  Some ((cr, cg, cb), s3).

(** At most [n] pixel lines, up to the end of the text. *)
Fixpoint read_pixels (n : nat) (s : string) : option (list (Z * Z * Z)) :=
  match s with
  | EmptyString => Some []
  | _ =>
      match n with
      | O => None
      | S n' =>
          '(rgb, rest) <- read_pixel s ;;
          rgbs <- read_pixels n' rest ;;
          Some (rgb :: rgbs)
      end
  end.

Fixpoint all_digits (s : string) : bool :=
  match s with
  | EmptyString => true
  | String c s' => is_digit c && all_digits s'
  end.

Lemma read_digits_app (s : string) :
  forall (acc : Z) (c : ascii) (rest : string),
    all_digits s = true -> is_digit c = false ->
    read_digits (s ++ String c rest) acc
    = (fst (read_digits s acc), String c rest).
Proof.
  induction s as [ | d s IH]; intros acc c rest Hs Hc; simpl.
  - rewrite Hc. reflexivity.
  - simpl in Hs. apply andb_prop in Hs. destruct Hs as [Hd Hs].
    rewrite Hd. apply IH; assumption.
Qed.

(** The decimal text of a byte: digits only, at least one, and read back
    as the byte. *)
Definition byte_text_ok (n : Z) : bool :=
  match show_int n with
  | EmptyString => false
  | s => all_digits s && (fst (read_digits s 0) =? n)
  end.

Lemma byte_texts_ok : forallb byte_text_ok (zseq 0 256) = true.
Proof. vm_compute. reflexivity. Qed.

Lemma read_channel_show (sep : ascii) (n : Z) (rest : string) :
  0 <= n <= 255 -> is_digit sep = false ->
  read_channel sep (show_int n ++ String sep rest) = Some (n, rest).
Proof.
  intros Hn Hsep.
  pose proof (proj1 (forallb_forall byte_text_ok (zseq 0 256)) byte_texts_ok n
                (in_zseq 256 0 n ltac:(lia))) as H.
  unfold byte_text_ok in H.
  destruct (show_int n) as [ | d s] eqn:Es; [discriminate H | ].
  apply andb_prop in H. destruct H as [Hd Hv]. apply Z.eqb_eq in Hv.
  assert (Hd1 : is_digit d = true)
    by (simpl in Hd; apply andb_prop in Hd; exact (proj1 Hd)).
  assert (Eu : read_channel sep (String d s ++ String sep rest)
               = match read_digits (String d s ++ String sep rest) 0 with
                 | (k, String c' rest') =>
                     if Ascii.eqb c' sep then Some (k, rest') else None
                 | _ => None
                 end).
  { unfold read_channel. cbn [append]. rewrite Hd1. reflexivity. }
  rewrite Eu, (read_digits_app (String d s) 0 sep rest Hd Hsep), Hv.
  rewrite Ascii.eqb_refl. reflexivity.
Qed.

Lemma read_pixel_line (rgb : Z * Z * Z) (rest : string) :
  bytes rgb ->
  read_pixel (pixel_line rgb ++ rest) = Some (rgb, rest).
Proof.
  destruct rgb as [[cr cg] cb]. intros [Hr [Hg Hb]].
  unfold pixel_line, nl.
  repeat (rewrite append_assoc; cbn [append]).
  unfold read_pixel.
  rewrite (read_channel_show " " cr _ Hr eq_refl). cbn [bind].
  rewrite (read_channel_show " " cg _ Hg eq_refl). cbn [bind].
  rewrite (read_channel_show (ascii_of_nat 10) cb _ Hb eq_refl). cbn [bind].
  reflexivity.
Qed.

Lemma pixel_line_not_empty (rgb : Z * Z * Z) (rest : string) :
  bytes rgb -> (pixel_line rgb ++ rest)%string <> EmptyString.
Proof.
  intros Hb E. pose proof (read_pixel_line rgb rest Hb) as H.
  rewrite E in H. discriminate H.
Qed.

(** X16. The pixel lines can be read back: for every list of pixels with
    channels in [0..255], parsing the text that the program writes for
    them (decimal digits, one space between channels, one newline after
    each pixel) returns the list.  The text of the image therefore
    determines every pixel. *)
Theorem pixel_lines_round_trip (rgbs : list (Z * Z * Z)) :
  Forall bytes rgbs ->
  read_pixels (List.length rgbs) (lines_text rgbs) = Some rgbs.
Proof.
  induction 1 as [ | rgb rgbs Hb _ IH]; [reflexivity | ].
  cbn [lines_text List.length read_pixels].
  destruct (pixel_line rgb ++ lines_text rgbs)%string eqn:E;
    [elim (pixel_line_not_empty rgb _ Hb E) | ].
  rewrite <- E, (read_pixel_line rgb _ Hb). cbn [bind].
  rewrite IH. reflexivity.
Qed.

Lemma pixel_lines_round_trip_witness :
  Forall bytes [(230, 230, 230); (102, 51, 0)] /\
  read_pixels 2 (lines_text [(230, 230, 230); (102, 51, 0)])
  = Some [(230, 230, 230); (102, 51, 0)].
Proof.
  assert (H : Forall bytes [(230, 230, 230); (102, 51, 0)]).
  { repeat constructor; unfold is_byte; lia. }
  split; [exact H | ].
  exact (pixel_lines_round_trip _ H).
Defined.

(* ================================================================== *)
(** * Binary32 arithmetic in the reals *)
(* ================================================================== *)

(** Each operation of the program is related to the exact operation on
    the real numbers that its operands stand for: the result is finite
    as long as the exact result is far from the overflow threshold, and
    it differs from the exact result by one rounding error at most. *)

From Stdlib Require Import Reals Lra.
Local Open Scope Z_scope.


(** The exponent at which [m * 2^e] is rounded. *)
Lemma dropped_unfold (m e : Z) :
  RoundFacts.dropped F32.prec F32.emax m e
  = Z.max 0 (Z.max (Zdigits2 m + e - 24) (-149) - e).
Proof. reflexivity. Qed.

Lemma Zdigits2_bound (m k : Z) : 0 <= m -> 0 <= k -> m < 2 ^ k -> Zdigits2 m <= k.
Proof.
  intros Hm Hk H. destruct m as [ | p | p]; simpl; [lia | | lia].
  apply RoundFacts.digits2_pos_bound. exact H.
Qed.

(** Two-sided bound on the rounded mantissa, and exactness when nothing
    is dropped. *)
Lemma round_core_bounds (m e : Z) (l : location) :
  0 <= m ->
  let N := RoundFacts.dropped F32.prec F32.emax m e in
  let '(m3, e3) := RoundFacts.round_core F32.prec F32.emax m e l in
  0 <= m3 < 2 ^ 24 /\ e <= e3 /\
  m - 2 * 2 ^ N <= m3 * 2 ^ (e3 - e) <= m + 2 ^ N /\
  (l = loc_Exact -> N = 0 -> m3 = m /\ e3 = e).
Proof.
  intros Hm N.
  pose proof (round_core_in_precision m e l Hm) as Hprec.
  pose proof (RoundFacts.round_core_upper F32.prec F32.emax m e l Hm) as Hup.
  unfold RoundFacts.round_core, shr_fexp in *.
  set (n := fexp F32.prec F32.emax (Zdigits2 m + e) - e) in *.
  assert (HN : N = Z.max 0 n) by reflexivity.
  assert (H0 : 0 <= shr_m (shr_record_of_loc m l))
    by (rewrite RoundFacts.shr_record_of_loc_m; exact Hm).
  destruct (RoundFacts.shr_spec (shr_record_of_loc m l) e n H0) as [Em1 Ee1].
  assert (Hexact1 : n <= 0 -> shr (shr_record_of_loc m l) e n = (shr_record_of_loc m l, e)).
  { intros Hn. destruct n; try lia; reflexivity. }
  destruct (shr (shr_record_of_loc m l) e n) as [mrs' e'] eqn:Eshr1.
  simpl in Em1, Ee1. rewrite RoundFacts.shr_record_of_loc_m in Em1.
  set (m2 := round_nearest_even (shr_m mrs') (loc_of_shr_record mrs')) in *.
  pose proof (RoundFacts.round_nearest_even_bounds (shr_m mrs')
                (loc_of_shr_record mrs')) as Hr.
  fold m2 in Hr.
  assert (Hp : 0 < 2 ^ Z.max 0 n) by (apply Z.pow_pos_nonneg; lia).
  assert (Hm1 : 0 <= shr_m mrs') by (rewrite Em1; apply Z.div_pos; lia).
  assert (Hm1lt : shr_m mrs' < 2 ^ 24).
  { rewrite Em1. apply (shifted_below m e Hm). }
  set (n2 := fexp F32.prec F32.emax (Zdigits2 m2 + e') - e') in *.
  assert (H2 : 0 <= shr_m (shr_record_of_loc m2 loc_Exact)) by (simpl; lia).
  destruct (RoundFacts.shr_spec (shr_record_of_loc m2 loc_Exact) e' n2 H2)
    as [Em3 Ee3].
  assert (Hexact2 : n2 <= 0 -> shr (shr_record_of_loc m2 loc_Exact) e' n2 = (shr_record_of_loc m2 loc_Exact, e')).
  { intros Hn. destruct n2; try lia; reflexivity. }
  destruct (shr (shr_record_of_loc m2 loc_Exact) e' n2) as [mrs'' e''] eqn:Eshr2.
  simpl in Em3, Ee3. simpl fst in Hprec.
  destruct Hup as [Hm3 [He3 Hle]].
  assert (Hn2 : n2 <= 1).
  { unfold n2. rewrite fexp_unfold.
    assert (Zdigits2 m2 <= 25).
    { apply Zdigits2_bound; [lia | lia | ].
      change (2 ^ 24) with 16777216 in Hm1lt. change (2 ^ 25) with 33554432. lia. }
    assert (-149 <= e').
    { rewrite Ee1. unfold n. rewrite fexp_unfold. lia. }
    lia. }
  assert (Hp2 : 0 < 2 ^ Z.max 0 n2) by (apply Z.pow_pos_nonneg; lia).
  split; [split; [exact Hm3 | exact Hprec] | ].
  split; [exact He3 | ].
  split.
  - split; [ | exact Hle].
    replace (e'' - e) with (Z.max 0 n2 + Z.max 0 n) by lia.
    rewrite Z.pow_add_r by lia. rewrite HN.
    (* m3 * 2^n2 >= m2 - 1 *)
    assert (L2 : m2 - 1 <= shr_m mrs'' * 2 ^ Z.max 0 n2).
    { rewrite Em3.
      pose proof (Z.mod_pos_bound m2 (2 ^ Z.max 0 n2) Hp2) as Hmod.
      pose proof (Z.div_mod m2 (2 ^ Z.max 0 n2) ltac:(lia)) as Hdm.
      assert (2 ^ Z.max 0 n2 <= 2).
      { change 2 with (2 ^ 1) at 2. apply Z.pow_le_mono_r; lia. }
      lia. }
    assert (L1 : m - 2 ^ Z.max 0 n + 1 <= shr_m mrs' * 2 ^ Z.max 0 n).
    { rewrite Em1.
      pose proof (Z.mod_pos_bound m (2 ^ Z.max 0 n) Hp) as Hmod.
      pose proof (Z.div_mod m (2 ^ Z.max 0 n) ltac:(lia)) as Hdm.
      lia. }
    assert (shr_m mrs' - 1 <= shr_m mrs'' * 2 ^ Z.max 0 n2) by lia.
    nia.
  - intros -> HN0.
    assert (Hn : n <= 0) by lia.
    pose proof (Hexact1 Hn) as E1. injection E1 as -> ->.
    simpl in m2. subst m2.
    assert (Hn2' : n2 <= 0) by (unfold n2; fold n; exact Hn).
    pose proof (Hexact2 Hn2') as E2. injection E2 as -> ->.
    split; reflexivity.
Qed.

(** Powers of two as reals. *)
Definition pw (e : Z) : R := powerRZ 2 e.

Lemma pw_pos (e : Z) : (0 < pw e)%R.
Proof. apply powerRZ_lt. lra. Qed.

Lemma pw_add (a b : Z) : pw (a + b) = (pw a * pw b)%R.
Proof. apply powerRZ_add. lra. Qed.

Lemma pw_IZR (k : Z) : 0 <= k -> pw k = IZR (2 ^ k).
Proof.
  intros Hk. unfold pw. destruct k as [ | p | p]; [reflexivity | | lia].
  change (2 ^ Zpos p) with (Z.pow_pos 2 p).
  rewrite Zpower_pos_powerRZ. reflexivity.
Qed.

Lemma pw_le (a b : Z) : a <= b -> (pw a <= pw b)%R.
Proof.
  intros H. replace b with (a + (b - a)) by lia. rewrite pw_add.
  rewrite (pw_IZR (b - a)) by lia.
  assert (1 <= IZR (2 ^ (b - a)))%R.
  { apply IZR_le. assert (0 < 2 ^ (b - a)) by (apply Z.pow_pos_nonneg; lia). lia. }
  pose proof (pw_pos a). nra.
Qed.

Lemma pw_lt_inv (a b : Z) : (pw a < pw b)%R -> a < b.
Proof.
  intros H. destruct (Z_lt_le_dec a b) as [ | Hge]; [assumption | ].
  pose proof (pw_le b a Hge). lra.
Qed.

Lemma pw_0 : pw 0 = 1%R.
Proof. reflexivity. Qed.

Lemma pw_1 : pw 1 = 2%R.
Proof. unfold pw. simpl. lra. Qed.

Lemma pw_opp (a : Z) : (pw (- a) = / pw a)%R.
Proof.
  pose proof (pw_pos a). pose proof (pw_add a (- a)) as H1.
  replace (a + - a) with 0 in H1 by lia. rewrite pw_0 in H1.
  apply Rmult_eq_reg_l with (pw a); [ | lra].
  rewrite <- H1. field. lra.
Qed.

(** The real number that a finite datum stands for; 0 for the others. *)
Definition val (x : float) : R :=
  match x with
  | S754_finite s m e => (IZR (cond_Zopp s (Zpos m)) * pw e)%R
  | _ => 0%R
  end.

Definition sgn (s : bool) : R := if s then (-1)%R else 1%R.

Lemma val_finite (s : bool) (m : positive) (e : Z) :
  val (S754_finite s m e) = (sgn s * (IZR (Zpos m) * pw e))%R.
Proof.
  unfold val, sgn. destruct s; simpl cond_Zopp.
  - change (Zneg m) with (- Zpos m). rewrite opp_IZR. ring.
  - ring.
Qed.

Lemma Rabs_sgn (s : bool) (a : R) : (0 <= a)%R -> Rabs (sgn s * a) = a.
Proof.
  intros Ha. unfold sgn. destruct s.
  - replace (-1 * a)%R with (- a)%R by ring. rewrite Rabs_Ropp.
    apply Rabs_right. lra.
  - rewrite Rmult_1_l. apply Rabs_right. lra.
Qed.

(** The error that one rounding may add to the exact result [v]. *)
Definition err (v : R) : R := (pw (-21) * Rabs v + pw (-147))%R.

Lemma err_pos (v : R) : (0 < err v)%R.
Proof.
  unfold err. pose proof (pw_pos (-21)). pose proof (pw_pos (-147)).
  pose proof (Rabs_pos v). nra.
Qed.

(** What [binary_round_aux] answers, in the reals. *)
Lemma bra_value (s : bool) (m e : Z) (l : location) :
  0 <= m ->
  let N := RoundFacts.dropped F32.prec F32.emax m e in
  (IZR m * pw e + pw (N + e) < pw 100)%R ->
  let r := binary_round_aux F32.prec F32.emax s m e l in
  F32.is_finite r = true /\
  exists a : R,
    val r = (sgn s * a)%R /\
    (IZR m * pw e - 2 * pw (N + e) <= a <= IZR m * pw e + pw (N + e))%R /\
    (0 <= a)%R /\
    (l = loc_Exact -> N = 0 -> a = (IZR m * pw e)%R).
Proof.
  intros Hm N Hov r. unfold r.
  rewrite RoundFacts.binary_round_aux_core.
  pose proof (round_core_bounds m e l Hm) as Hb. cbv zeta in Hb. fold N in Hb.
  destruct (RoundFacts.round_core F32.prec F32.emax m e l) as [m3 e3].
  destruct Hb as [[Hm3 Hprec] [He3 [[Hlo Hhi] Hex]]].
  cbn [fst snd].
  assert (HN : 0 <= N) by (unfold N; rewrite dropped_unfold; lia).
  assert (Hscale : forall z : Z, (IZR (z * 2 ^ (e3 - e)) * pw e = IZR z * pw e3)%R).
  { intros z. rewrite mult_IZR, <- pw_IZR by lia.
    replace e3 with ((e3 - e) + e) at 2 by lia. rewrite pw_add. ring. }
  assert (HpN : (IZR (2 ^ N) * pw e = pw (N + e))%R).
  { rewrite <- pw_IZR by lia. rewrite pw_add. ring. }
  pose proof (pw_pos e) as Hpe.
  assert (Ha : (IZR m * pw e - 2 * pw (N + e) <= IZR m3 * pw e3
                <= IZR m * pw e + pw (N + e))%R).
  { rewrite <- Hscale, <- HpN. split.
    - apply IZR_le in Hlo. rewrite minus_IZR, mult_IZR in Hlo.
      apply Rmult_le_compat_r with (r := pw e) in Hlo; [ | lra]. lra.
    - apply IZR_le in Hhi. rewrite plus_IZR in Hhi.
      apply Rmult_le_compat_r with (r := pw e) in Hhi; [ | lra]. lra. }
  destruct m3 as [ | p | p]; [ | | lia].
  - split; [reflexivity | ].
    exists 0%R. simpl val. rewrite Rmult_0_l in Ha.
    split; [ring | ]. split; [exact Ha | ]. split; [lra | ].
    intros El EN. destruct (Hex El EN) as [<- _]. ring.
  - assert (He3' : e3 < 100).
    { apply pw_lt_inv.
      assert (1 <= IZR (Zpos p))%R by (apply IZR_le; lia).
      pose proof (pw_pos e3). nra. }
    replace (e3 <=? F32.emax - F32.prec) with true
      by (symmetry; apply Z.leb_le; unfold F32.emax, F32.prec; lia).
    split; [reflexivity | ].
    exists (IZR (Zpos p) * pw e3)%R.
    split; [apply val_finite | ]. split; [exact Ha | ].
    split.
    { assert (0 <= IZR (Zpos p))%R by (apply IZR_le; lia).
      pose proof (pw_pos e3). nra. }
    intros El EN. destruct (Hex El EN) as [-> ->]. reflexivity.
Qed.

Lemma Zdigits2_le (m : Z) : 0 < m -> 2 ^ (Zdigits2 m - 1) <= m.
Proof.
  intros Hm. destruct m as [ | p | p]; try lia.
  apply RoundFacts.digits2_pos_le.
Qed.

Lemma Zdigits2_pos (m : Z) : 0 < m -> 0 < Zdigits2 m.
Proof. intros Hm. destruct m as [ | p | p]; try lia. reflexivity. Qed.

(** The unit in which [m * 2^e] is rounded is small against its value. *)
Lemma ulp_relative (m e : Z) :
  0 < m ->
  (pw (fexp F32.prec F32.emax (Zdigits2 m + e))
   <= pw (-23) * (IZR m * pw e) + pw (-149))%R.
Proof.
  intros Hm. rewrite fexp_unfold.
  pose proof (pw_pos (-149)). pose proof (pw_pos (-23)). pose proof (pw_pos e).
  assert (0 < IZR m)%R by (apply IZR_lt; exact Hm).
  assert (0 < IZR m * pw e)%R by (apply Rmult_lt_0_compat; assumption).
  destruct (Z.max_spec (Zdigits2 m + e - 24) (-149)) as [[_ ->] | [_ ->]].
  - nra.
  - replace (Zdigits2 m + e - 24) with ((-23) + ((Zdigits2 m - 1) + e)) by lia.
    rewrite !pw_add.
    pose proof (Zdigits2_pos m Hm).
    rewrite (pw_IZR (Zdigits2 m - 1)) by lia.
    pose proof (Zdigits2_le m Hm) as Hle. apply IZR_le in Hle.
    apply Rle_trans with (pw (-23) * (IZR m * pw e))%R; [ | lra].
    apply Rmult_le_compat_l; [lra | ].
    apply Rmult_le_compat_r; lra.
Qed.

(** Rounding an exactly known value: finite when no overflow is possible,
    and off by at most [err]. *)
Lemma bra_exact_error (s : bool) (m e : Z) :
  0 < m ->
  (IZR m * pw e < pw 99)%R ->
  let r := binary_round_aux F32.prec F32.emax s m e loc_Exact in
  F32.is_finite r = true /\
  (Rabs (val r - sgn s * (IZR m * pw e)) <= err (sgn s * (IZR m * pw e)))%R.
Proof.
  intros Hm Hov r.
  set (N := RoundFacts.dropped F32.prec F32.emax m e).
  assert (HN : 0 <= N) by (unfold N; rewrite dropped_unfold; lia).
  pose proof (pw_pos e) as Hpe.
  assert (Hv : (0 < IZR m * pw e)%R).
  { assert (0 < IZR m)%R by (apply IZR_lt; exact Hm). nra. }
  pose proof (ulp_relative m e Hm) as Hulp.
  pose proof (pw_pos (-149)) as H149. pose proof (pw_pos (-147)) as H147.
  assert (E147 : pw (-147) = (4 * pw (-149))%R).
  { replace (-147) with (2 + -149) by lia. rewrite pw_add.
    rewrite (pw_IZR 2) by lia. simpl. lra. }
  assert (E21 : pw (-21) = (4 * pw (-23))%R).
  { replace (-21) with (2 + -23) by lia. rewrite pw_add.
    rewrite (pw_IZR 2) by lia. simpl. lra. }
  assert (E23 : (pw (-23) <= / 2)%R).
  { replace (/ 2)%R with (pw (-1)); [apply pw_le; lia | ].
    unfold pw. simpl. f_equal. ring. }
  assert (E99 : (pw 100 = 2 * pw 99)%R).
  { replace 100 with (1 + 99) by lia. rewrite pw_add, pw_1. ring. }
  assert (E149 : (pw (-149) <= / 2 * pw 99)%R).
  { apply Rle_trans with (pw 98); [apply pw_le; lia | ].
    replace 99 with (1 + 98) by lia. rewrite pw_add, pw_1. lra. }
  assert (Hmul : (pw (-23) * (IZR m * pw e) <= / 2 * (IZR m * pw e))%R).
  { apply Rmult_le_compat_r; lra. }
  destruct (Z.eq_dec N 0) as [HN0 | HN0].
  - (* nothing is dropped: the result is exact *)
    destruct (bra_value s m e loc_Exact ltac:(lia)) as [Hfin [a [Ea [_ [_ Hex]]]]].
    { fold N. rewrite HN0. simpl (0 + e).
      assert (pw e <= IZR m * pw e)%R.
      { assert (1 <= IZR m)%R by (apply IZR_le; lia). nra. }
      lra. }
    split; [exact Hfin | ].
    fold r in Ea. rewrite Ea, (Hex eq_refl HN0).
    replace (sgn s * (IZR m * pw e) - sgn s * (IZR m * pw e))%R with 0%R by ring.
    rewrite Rabs_R0. left. apply err_pos.
  - assert (EN : N + e = fexp F32.prec F32.emax (Zdigits2 m + e)).
    { unfold N in *. rewrite dropped_unfold in *. rewrite fexp_unfold. lia. }
    destruct (bra_value s m e loc_Exact ltac:(lia)) as [Hfin [a [Ea [Hb [Ha0 _]]]]].
    { fold N. rewrite EN. lra. }
    split; [exact Hfin | ].
    fold r in Ea. fold N in Hb. rewrite EN in Hb. rewrite Ea.
    replace (sgn s * a - sgn s * (IZR m * pw e))%R
      with (sgn s * (a - IZR m * pw e))%R by ring.
    assert (Hs : forall z, Rabs (sgn s * z) = Rabs z).
    { intros z. unfold sgn. destruct s.
      - replace (-1 * z)%R with (- z)%R by ring. apply Rabs_Ropp.
      - rewrite Rmult_1_l. reflexivity. }
    unfold err. rewrite !Hs. rewrite (Rabs_right (IZR m * pw e)) by lra.
    apply Rabs_le. rewrite E21, E147. split; lra.
Qed.

Definition fin (x : float) : Prop := F32.is_finite x = true.

Lemma sgn_xorb (a b : bool) : sgn (xorb a b) = (sgn a * sgn b)%R.
Proof. destruct a, b; unfold sgn; simpl; ring. Qed.

Lemma Rabs_sgn_mul (s : bool) (z : R) : Rabs (sgn s * z) = Rabs z.
Proof.
  unfold sgn. destruct s.
  - replace (-1 * z)%R with (- z)%R by ring. apply Rabs_Ropp.
  - rewrite Rmult_1_l. reflexivity.
Qed.

Lemma err_zero_ok : (Rabs (0 - 0) <= err 0)%R.
Proof.
  replace (0 - 0)%R with 0%R by ring. rewrite Rabs_R0. left. apply err_pos.
Qed.

Lemma err_exact (v : R) : (Rabs (v - v) <= err v)%R.
Proof.
  replace (v - v)%R with 0%R by ring. rewrite Rabs_R0. left. apply err_pos.
Qed.

(** Multiplication. *)
Lemma mul_sound (x y : float) :
  fin x -> fin y ->
  (Rabs (val x * val y) < pw 99)%R ->
  fin (x * y)%f32 /\
  (Rabs (val (x * y)%f32 - val x * val y) <= err (val x * val y))%R.
Proof.
  unfold fin. intros Hx Hy Hov.
  destruct x as [sx | sx | | sx mx ex]; try discriminate Hx;
    destruct y as [sy | sy | | sy my ey]; try discriminate Hy.
  - split; [reflexivity | ]. simpl val. rewrite Rmult_0_l. apply err_zero_ok.
  - split; [reflexivity | ]. simpl val at 1 2 4. rewrite !Rmult_0_l. apply err_zero_ok.
  - split; [reflexivity | ]. simpl val at 1 3 5. rewrite !Rmult_0_r. apply err_zero_ok.
  - assert (Ev : (val (S754_finite sx mx ex) * val (S754_finite sy my ey)
                 = sgn (xorb sx sy) * (IZR (Zpos (mx * my)) * pw (ex + ey)))%R).
    { rewrite !val_finite, sgn_xorb, Pos2Z.inj_mul, mult_IZR, pw_add. ring. }
    rewrite Ev in *. rewrite Rabs_sgn_mul in Hov.
    assert (Hpos : (0 < IZR (Zpos (mx * my)) * pw (ex + ey))%R).
    { apply Rmult_lt_0_compat; [apply IZR_lt; lia | apply pw_pos]. }
    rewrite Rabs_right in Hov by lra.
    unfold F32.mul, SFmul.
    apply bra_exact_error; [lia | exact Hov].
Qed.

Lemma shift_value (mx d : positive) :
  Zpos (Pos.iter xO mx d) = Zpos mx * 2 ^ Zpos d.
Proof.
  change (Pos.iter xO mx d) with (shift_pos d mx).
  rewrite shift_pos_correct. change (Zpower_pos 2 d) with (2 ^ Zpos d). ring.
Qed.

(** Aligning a mantissa on a smaller exponent keeps the value. *)
Lemma shl_align_value (mx : positive) (ex ex' : Z) :
  (IZR (Zpos (fst (shl_align mx ex ex'))) * pw (snd (shl_align mx ex ex'))
   = IZR (Zpos mx) * pw ex)%R.
Proof.
  unfold shl_align. destruct (ex' - ex) as [ | d | d] eqn:Ed; simpl fst; simpl snd;
    try reflexivity.
  rewrite shift_value, mult_IZR, <- pw_IZR by lia.
  rewrite Rmult_assoc, <- pw_add. do 2 f_equal. lia.
Qed.

Lemma shl_align_exponent (mx : positive) (ex ez : Z) :
  ez <= ex -> snd (shl_align mx ex ez) = ez.
Proof.
  intros H. unfold shl_align. destruct (ez - ex) as [ | d | d] eqn:Ed; simpl; lia.
Qed.

(** [binary_normalize]: the correctly rounded [m * 2^e]. *)
Lemma normalize_sound (m e : Z) (sz : bool) :
  (Rabs (IZR m * pw e) < pw 99)%R ->
  fin (binary_normalize F32.prec F32.emax m e sz) /\
  (Rabs (val (binary_normalize F32.prec F32.emax m e sz) - IZR m * pw e)
   <= err (IZR m * pw e))%R.
Proof.
  intros Hov. unfold fin.
  destruct m as [ | p | p].
  - split; [reflexivity | ]. simpl. rewrite Rmult_0_l. apply err_zero_ok.
  - unfold binary_normalize, binary_round.
    pose proof (shl_align_value p e (fexp F32.prec F32.emax (Zpos (digits2_pos p) + e))) as Hv.
    destruct (shl_align p e _) as [mz ez]. simpl fst in Hv. simpl snd in Hv.
    assert (Hpos : (0 < IZR (Zpos p) * pw e)%R).
    { apply Rmult_lt_0_compat; [apply IZR_lt; lia | apply pw_pos]. }
    rewrite Rabs_right in Hov by lra.
    destruct (bra_exact_error false (Zpos mz) ez ltac:(lia)) as [Hf He].
    { rewrite Hv. exact Hov. }
    split; [exact Hf | ].
    rewrite Hv in He. unfold sgn in He. rewrite !Rmult_1_l in He. exact He.
  - unfold binary_normalize, binary_round.
    pose proof (shl_align_value p e (fexp F32.prec F32.emax (Zpos (digits2_pos p) + e))) as Hv.
    destruct (shl_align p e _) as [mz ez]. simpl fst in Hv. simpl snd in Hv.
    assert (Hpos : (0 < IZR (Zpos p) * pw e)%R).
    { apply Rmult_lt_0_compat; [apply IZR_lt; lia | apply pw_pos]. }
    change (Zneg p) with (- Zpos p) in *. rewrite opp_IZR in *.
    replace (- IZR (Zpos p) * pw e)%R with (- (IZR (Zpos p) * pw e))%R in * by ring.
    rewrite Rabs_Ropp, Rabs_right in Hov by lra.
    destruct (bra_exact_error true (Zpos mz) ez ltac:(lia)) as [Hf He].
    { rewrite Hv. exact Hov. }
    split; [exact Hf | ].
    rewrite Hv in He. unfold sgn in He.
    replace (-1 * (IZR (Zpos p) * pw e))%R with (- (IZR (Zpos p) * pw e))%R in He by ring.
    exact He.
Qed.

Lemma val_aligned (s : bool) (mx : positive) (ex ez : Z) :
  ez <= ex ->
  (IZR (cond_Zopp s (Zpos (fst (shl_align mx ex ez)))) * pw ez
   = val (S754_finite s mx ex))%R.
Proof.
  intros H. pose proof (shl_align_value mx ex ez) as Hv.
  rewrite (shl_align_exponent mx ex ez H) in Hv.
  rewrite val_finite. unfold sgn. destruct s; simpl cond_Zopp.
  - change (Zneg (fst (shl_align mx ex ez))) with (- Zpos (fst (shl_align mx ex ez))).
    rewrite opp_IZR. lra.
  - lra.
Qed.

(** Addition. *)
Lemma add_sound (x y : float) :
  fin x -> fin y ->
  (Rabs (val x + val y) < pw 99)%R ->
  fin (x + y)%f32 /\
  (Rabs (val (x + y)%f32 - (val x + val y)) <= err (val x + val y))%R.
Proof.
  unfold fin. intros Hx Hy Hov.
  destruct x as [sx | sx | | sx mx ex]; try discriminate Hx;
    destruct y as [sy | sy | | sy my ey]; try discriminate Hy.
  - split; [destruct sx, sy; reflexivity | ].
    replace (val (S754_zero sx + S754_zero sy)%f32) with 0%R
      by (destruct sx, sy; reflexivity).
    simpl val. rewrite Rplus_0_l. apply err_zero_ok.
  - split; [reflexivity | ].
    change (S754_zero sx + S754_finite sy my ey)%f32 with (S754_finite sy my ey).
    simpl (val (S754_zero sx)). rewrite Rplus_0_l. apply err_exact.
  - split; [reflexivity | ].
    change (S754_finite sx mx ex + S754_zero sy)%f32 with (S754_finite sx mx ex).
    simpl (val (S754_zero sy)). rewrite Rplus_0_r. apply err_exact.
  - unfold F32.add, SFadd.
    set (ez := Z.min ex ey).
    set (z := cond_Zopp sx (Zpos (fst (shl_align mx ex ez)))
              + cond_Zopp sy (Zpos (fst (shl_align my ey ez)))).
    assert (Ez : (IZR z * pw ez
                  = val (S754_finite sx mx ex) + val (S754_finite sy my ey))%R).
    { unfold z. rewrite plus_IZR, Rmult_plus_distr_r.
      rewrite !val_aligned by (unfold ez; lia). reflexivity. }
    rewrite <- Ez in *. apply normalize_sound. exact Hov.
Qed.

(** Subtraction. *)
Lemma sub_sound (x y : float) :
  fin x -> fin y ->
  (Rabs (val x - val y) < pw 99)%R ->
  fin (x - y)%f32 /\
  (Rabs (val (x - y)%f32 - (val x - val y)) <= err (val x - val y))%R.
Proof.
  unfold fin. intros Hx Hy Hov.
  destruct x as [sx | sx | | sx mx ex]; try discriminate Hx;
    destruct y as [sy | sy | | sy my ey]; try discriminate Hy.
  - split; [destruct sx, sy; reflexivity | ].
    replace (val (S754_zero sx - S754_zero sy)%f32) with 0%R
      by (destruct sx, sy; reflexivity).
    simpl val. rewrite Rminus_0_r. apply err_zero_ok.
  - split; [reflexivity | ].
    change (S754_zero sx - S754_finite sy my ey)%f32
      with (S754_finite (negb sy) my ey).
    assert (E : val (S754_finite (negb sy) my ey)
                = (val (S754_zero sx) - val (S754_finite sy my ey))%R).
    { rewrite !val_finite. simpl (val (S754_zero sx)).
      unfold sgn. destruct sy; simpl; ring. }
    rewrite E. apply err_exact.
  - split; [reflexivity | ].
    change (S754_finite sx mx ex - S754_zero sy)%f32 with (S754_finite sx mx ex).
    simpl (val (S754_zero sy)). rewrite Rminus_0_r. apply err_exact.
  - unfold F32.sub, SFsub.
    set (ez := Z.min ex ey).
    set (z := cond_Zopp sx (Zpos (fst (shl_align mx ex ez)))
              - cond_Zopp sy (Zpos (fst (shl_align my ey ez)))).
    assert (Ez : (IZR z * pw ez
                  = val (S754_finite sx mx ex) - val (S754_finite sy my ey))%R).
    { unfold z. rewrite minus_IZR, Rmult_minus_distr_r.
      rewrite !val_aligned by (unfold ez; lia). reflexivity. }
    rewrite <- Ez in *. apply normalize_sound. exact Hov.
Qed.

(** Conversion from [int]. *)
Lemma of_int_sound (n : Z) :
  (Rabs (IZR n) < pw 99)%R ->
  fin (F32.of_int n) /\
  (Rabs (val (F32.of_int n) - IZR n) <= err (IZR n))%R.
Proof.
  intros H. unfold F32.of_int.
  pose proof (normalize_sound n 0 false) as Hn.
  rewrite pw_0, Rmult_1_r in Hn. apply Hn. exact H.
Qed.

Lemma neg_sound (x : float) :
  fin x -> fin (- x)%f32 /\ val (- x)%f32 = (- val x)%R.
Proof.
  unfold fin. intros Hx.
  destruct x as [sx | sx | | sx mx ex]; try discriminate Hx.
  - split; [reflexivity | simpl; ring].
  - split; [reflexivity | ].
    unfold F32.neg, SFopp. rewrite !val_finite.
    unfold sgn. destruct sx; simpl; ring.
Qed.

Lemma Zdigits2_gt (m k : Z) : 0 <= k -> 2 ^ k <= m -> k < Zdigits2 m.
Proof.
  intros Hk H.
  assert (Hm : 0 < m) by (assert (0 < 2 ^ k) by (apply Z.pow_pos_nonneg; lia); lia).
  destruct m as [ | p | p]; try lia. simpl.
  pose proof (RoundFacts.digits2_pos_gt p) as Hgt.
  destruct (Z_lt_le_dec k (Zpos (digits2_pos p))) as [ | Hge]; [assumption | ].
  assert (2 ^ Zpos (digits2_pos p) <= 2 ^ k) by (apply Z.pow_le_mono_r; lia).
  lia.
Qed.

(** Rounding a value known up to the last unit of [q * 2^e], when [e] is
    not above the exponent the format asks for. *)
Lemma bra_inexact_error (s : bool) (q e : Z) (l : location) (v : R) :
  0 <= q ->
  e <= fexp F32.prec F32.emax (Zdigits2 q + e) ->
  (IZR q * pw e <= v < (IZR q + 1) * pw e)%R ->
  (v < pw 99)%R ->
  let r := binary_round_aux F32.prec F32.emax s q e l in
  F32.is_finite r = true /\
  (Rabs (val r - sgn s * v) <= err (sgn s * v))%R.
Proof.
  intros Hq He [Hv1 Hv2] Hov r.
  set (N := RoundFacts.dropped F32.prec F32.emax q e).
  assert (EN : N + e = fexp F32.prec F32.emax (Zdigits2 q + e)).
  { unfold N. rewrite dropped_unfold. rewrite fexp_unfold in *. lia. }
  pose proof (pw_pos e) as Hpe.
  pose proof (pw_pos (-149)) as H149. pose proof (pw_pos (-147)) as H147.
  assert (Hq0 : (0 <= IZR q)%R) by (apply IZR_le; exact Hq).
  assert (Hv0 : (0 <= v)%R) by nra.
  assert (E147 : pw (-147) = (4 * pw (-149))%R).
  { replace (-147) with (2 + -149) by lia. rewrite pw_add.
    rewrite (pw_IZR 2) by lia. simpl. lra. }
  assert (E21 : pw (-21) = (4 * pw (-23))%R).
  { replace (-21) with (2 + -23) by lia. rewrite pw_add.
    rewrite (pw_IZR 2) by lia. simpl. lra. }
  assert (E23 : (pw (-23) <= / 2)%R).
  { replace (/ 2)%R with (pw (-1)); [apply pw_le; lia | ].
    unfold pw. simpl. f_equal. ring. }
  pose proof (pw_pos (-23)) as H23.
  assert (E99 : (pw 100 = 2 * pw 99)%R).
  { replace 100 with (1 + 99) by lia. rewrite pw_add, pw_1. ring. }
  assert (E149 : (pw (-149) <= / 2 * pw 99)%R).
  { apply Rle_trans with (pw 98); [apply pw_le; lia | ].
    replace 99 with (1 + 98) by lia. rewrite pw_add, pw_1. lra. }
  assert (HU : (pw (N + e) <= pw (-23) * v + pw (-149))%R).
  { rewrite EN. destruct (Z.eq_dec q 0) as [-> | Hne].
    - simpl Zdigits2 in *. rewrite fexp_unfold in *.
      replace (Z.max (0 + e - 24) (-149)) with (-149) by lia. nra.
    - pose proof (ulp_relative q e ltac:(lia)) as Hu.
      assert (pw (-23) * (IZR q * pw e) <= pw (-23) * v)%R
        by (apply Rmult_le_compat_l; lra).
      lra. }
  assert (HeU : (pw e <= pw (N + e))%R) by (apply pw_le; lia).
  assert (Hmul : (pw (-23) * v <= / 2 * v)%R) by (apply Rmult_le_compat_r; lra).
  destruct (bra_value s q e l Hq) as [Hfin [a [Ea [Hb [Ha0 _]]]]].
  { fold N. lra. }
  split; [exact Hfin | ].
  fold r in Ea. fold N in Hb. rewrite Ea.
  replace (sgn s * a - sgn s * v)%R with (sgn s * (a - v))%R by ring.
  unfold err. rewrite !Rabs_sgn_mul. rewrite (Rabs_right v) by lra.
  apply Rabs_le. rewrite E21, E147. split; lra.
Qed.

(** The quotient and exponent that the division hands to the rounding. *)
Lemma div_core_spec (mx my : positive) (ex ey : Z) :
  let '(q, e', l) :=
    SFdiv_core_binary F32.prec F32.emax (Zpos mx) ex (Zpos my) ey in
  let v := (IZR (Zpos mx) * pw ex / (IZR (Zpos my) * pw ey))%R in
  0 <= q /\
  e' <= fexp F32.prec F32.emax (Zdigits2 q + e') /\
  (IZR q * pw e' <= v < (IZR q + 1) * pw e')%R.
Proof.
  unfold SFdiv_core_binary.
  set (d1 := Zdigits2 (Zpos mx)). set (d2 := Zdigits2 (Zpos my)).
  set (e' := Z.min (fexp F32.prec F32.emax (d1 + ex - (d2 + ey))) (ex - ey)).
  set (s := ex - ey - e').
  assert (Hs : 0 <= s) by (unfold s, e'; lia).
  set (m' := match s with
             | 0 => Zpos mx
             | Zpos _ => Z.shiftl (Zpos mx) s
             | Zneg _ => 0
             end).
  assert (Em' : m' = Zpos mx * 2 ^ s).
  { unfold m'. destruct s as [ | p | p] eqn:Es; [simpl; lia | | lia].
    rewrite Z.shiftl_mul_pow2 by lia. reflexivity. }
  pose proof (Z_div_mod m' (Zpos my) ltac:(lia)) as Hdm.
  destruct (Z.div_eucl m' (Zpos my)) as [q r]. destruct Hdm as [Hdm Hr].
  cbv zeta.
  assert (Hm'pos : 0 < m').
  { rewrite Em'. apply Z.mul_pos_pos; [lia | apply Z.pow_pos_nonneg; lia]. }
  assert (Hq : 0 <= q) by nia.
  split; [exact Hq | ].
  split.
  - rewrite fexp_unfold.
    destruct (Z_le_gt_dec e' (-149)) as [Hlow | Hhigh]; [lia | ].
    assert (He' : e' <= d1 + ex - (d2 + ey) - 24).
    { unfold e' in *. rewrite fexp_unfold in *. lia. }
    assert (Hd1 : 2 ^ (d1 - 1) <= Zpos mx) by (apply RoundFacts.digits2_pos_le).
    assert (Hd2 : Zpos my < 2 ^ d2) by (apply RoundFacts.digits2_pos_gt).
    assert (Hd1p : 0 < d1) by (unfold d1; simpl; lia).
    assert (Hd2p : 0 < d2) by (unfold d2; simpl; lia).
    assert (Hbig : 2 ^ 23 * Zpos my <= m').
    { rewrite Em'.
      assert (2 ^ (23 + d2) <= 2 ^ (d1 - 1) * 2 ^ s).
      { rewrite <- Z.pow_add_r by lia. apply Z.pow_le_mono_r; unfold s; lia. }
      rewrite Z.pow_add_r in H by lia.
      assert (0 < 2 ^ s) by (apply Z.pow_pos_nonneg; lia).
      assert (0 < 2 ^ 23) by reflexivity.
      nia. }
    assert (Hq23 : 2 ^ 23 <= q).
    { destruct (Z_lt_le_dec q (2 ^ 23)) as [Hlt | ]; [ | assumption].
      exfalso. nia. }
    pose proof (Zdigits2_gt q 23 ltac:(lia) Hq23). lia.
  - assert (Hy : (0 < IZR (Zpos my))%R) by (apply IZR_lt; lia).
    pose proof (pw_pos ey) as Hpey. pose proof (pw_pos e') as Hpe'.
    assert (Ev : (IZR (Zpos mx) * pw ex / (IZR (Zpos my) * pw ey)
                  = IZR m' * pw e' / IZR (Zpos my))%R).
    { rewrite Em', mult_IZR, <- pw_IZR by lia.
      replace ex with (s + e' + ey) at 1 by (unfold s; lia).
      rewrite !pw_add. field. lra. }
    rewrite Ev. rewrite Hdm, plus_IZR, mult_IZR.
    assert (Hr0 : (0 <= IZR r)%R) by (apply IZR_le; lia).
    assert (Hr1 : (IZR r < IZR (Zpos my))%R) by (apply IZR_lt; lia).
    split.
    + apply Rmult_le_reg_r with (IZR (Zpos my)); [exact Hy | ].
      replace ((IZR (Zpos my) * IZR q + IZR r) * pw e' / IZR (Zpos my) * IZR (Zpos my))%R
        with ((IZR (Zpos my) * IZR q + IZR r) * pw e')%R by (field; lra).
      nra.
    + apply Rmult_lt_reg_r with (IZR (Zpos my)); [exact Hy | ].
      replace ((IZR (Zpos my) * IZR q + IZR r) * pw e' / IZR (Zpos my) * IZR (Zpos my))%R
        with ((IZR (Zpos my) * IZR q + IZR r) * pw e')%R by (field; lra).
      nra.
Qed.

(** Division. *)
Lemma div_sound (x y : float) :
  fin x -> fin y -> val y <> 0%R ->
  (Rabs (val x / val y) < pw 99)%R ->
  fin (x / y)%f32 /\
  (Rabs (val (x / y)%f32 - val x / val y) <= err (val x / val y))%R.
Proof.
  unfold fin. intros Hx Hy Hy0 Hov.
  destruct y as [sy | sy | | sy my ey]; try discriminate Hy;
    [elim Hy0; reflexivity | ].
  destruct x as [sx | sx | | sx mx ex]; try discriminate Hx.
  - split; [reflexivity | ].
    change (val (S754_zero sx / S754_finite sy my ey)%f32) with 0%R.
    simpl (val (S754_zero sx)). unfold Rdiv. rewrite Rmult_0_l. apply err_zero_ok.
  - unfold F32.div, SFdiv.
    pose proof (div_core_spec mx my ex ey) as Hcore.
    destruct (SFdiv_core_binary F32.prec F32.emax (Zpos mx) ex (Zpos my) ey)
      as [[q e'] l].
    cbv zeta in Hcore. destruct Hcore as [Hq [He' Hv]].
    set (v := (IZR (Zpos mx) * pw ex / (IZR (Zpos my) * pw ey))%R) in *.
    assert (Hyp : (0 < IZR (Zpos my) * pw ey)%R).
    { apply Rmult_lt_0_compat; [apply IZR_lt; lia | apply pw_pos]. }
    assert (Hsy : sgn sy <> 0%R) by (unfold sgn; destruct sy; lra).
    assert (Ev : (val (S754_finite sx mx ex) / val (S754_finite sy my ey)
                  = sgn (xorb sx sy) * v)%R).
    { rewrite !val_finite. unfold v.
      set (A := (IZR (Zpos mx) * pw ex)%R).
      set (B := (IZR (Zpos my) * pw ey)%R) in *.
      unfold sgn. destruct sx, sy; simpl xorb; cbv iota; field; lra. }
    rewrite Ev in *. rewrite Rabs_sgn_mul in Hov.
    assert (Hv0 : (0 <= v)%R).
    { destruct Hv as [Hv _]. pose proof (pw_pos e').
      assert (0 <= IZR q)%R by (apply IZR_le; lia). nra. }
    rewrite Rabs_right in Hov by lra.
    apply bra_inexact_error; assumption.
Qed.

Lemma sqrt_pw_double (e : Z) : sqrt (pw (2 * e)) = pw e.
Proof.
  replace (2 * e) with (e + e) by lia. rewrite pw_add.
  apply sqrt_square. left. apply pw_pos.
Qed.

(** The root and exponent that the square root hands to the rounding. *)
Lemma sqrt_core_spec (mx : positive) (ex : Z) :
  let '(q, e', l) := SFsqrt_core_binary F32.prec F32.emax (Zpos mx) ex in
  let v := sqrt (IZR (Zpos mx) * pw ex) in
  0 <= q /\
  e' <= fexp F32.prec F32.emax (Zdigits2 q + e') /\
  (IZR q * pw e' <= v < (IZR q + 1) * pw e')%R.
Proof.
  unfold SFsqrt_core_binary.
  set (d := Zdigits2 (Zpos mx)).
  set (e' := Z.min (fexp F32.prec F32.emax (Z.div2 (d + ex + 1))) (Z.div2 ex)).
  set (s := ex - 2 * e').
  assert (Hdiv2 : forall a, 2 * Z.div2 a <= a <= 2 * Z.div2 a + 1).
  { intros a. rewrite Z.div2_div.
    pose proof (Z.div_mod a 2 ltac:(lia)). pose proof (Z.mod_pos_bound a 2 ltac:(lia)).
    lia. }
  assert (Hs : 0 <= s).
  { unfold s, e'. pose proof (Hdiv2 ex). lia. }
  set (m' := match s with
             | 0 => Zpos mx
             | Zpos _ => Z.shiftl (Zpos mx) s
             | Zneg _ => 0
             end).
  assert (Em' : m' = Zpos mx * 2 ^ s).
  { unfold m'. destruct s as [ | p | p] eqn:Es; [simpl; lia | | lia].
    rewrite Z.shiftl_mul_pow2 by lia. reflexivity. }
  assert (Hm'pos : 0 < m').
  { rewrite Em'. apply Z.mul_pos_pos; [lia | apply Z.pow_pos_nonneg; lia]. }
  pose proof (Z.sqrtrem_spec m' ltac:(lia)) as Hsq.
  destruct (Z.sqrtrem m') as [q r]. destruct Hsq as [Hsq Hr].
  cbv zeta.
  assert (Hq : 0 <= q) by lia.
  split; [exact Hq | ].
  split.
  - rewrite fexp_unfold.
    destruct (Z_le_gt_dec e' (-149)) as [Hlow | Hhigh]; [lia | ].
    assert (He' : 2 * e' + 48 <= d + ex + 1).
    { unfold e' in *. rewrite fexp_unfold in *. pose proof (Hdiv2 (d + ex + 1)). lia. }
    assert (Hd1 : 2 ^ (d - 1) <= Zpos mx) by (apply RoundFacts.digits2_pos_le).
    assert (Hdp : 0 < d) by (unfold d; simpl; lia).
    assert (Hbig : 2 ^ 46 <= m').
    { rewrite Em'.
      assert (2 ^ 46 <= 2 ^ (d - 1) * 2 ^ s).
      { rewrite <- Z.pow_add_r by lia. apply Z.pow_le_mono_r; unfold s; lia. }
      assert (0 < 2 ^ s) by (apply Z.pow_pos_nonneg; lia).
      nia. }
    assert (Hq23 : 2 ^ 23 <= q).
    { destruct (Z_lt_le_dec q (2 ^ 23)) as [Hlt | ]; [ | assumption].
      exfalso. change (2 ^ 46) with (2 ^ 23 * 2 ^ 23) in Hbig.
      change (2 ^ 23) with 8388608 in *. nia. }
    pose proof (Zdigits2_gt q 23 ltac:(lia) Hq23). lia.
  - pose proof (pw_pos e') as Hpe'.
    assert (Ev : sqrt (IZR (Zpos mx) * pw ex) = (sqrt (IZR m') * pw e')%R).
    { rewrite <- (sqrt_pw_double e'), <- sqrt_mult.
      - f_equal. rewrite Em', mult_IZR, <- pw_IZR by lia.
        replace ex with (s + 2 * e') at 1 by (unfold s; lia).
        rewrite pw_add. ring.
      - apply IZR_le. lia.
      - left. apply pw_pos. }
    rewrite Ev.
    assert (Hq0 : (0 <= IZR q)%R) by (apply IZR_le; lia).
    assert (H1 : (IZR q <= sqrt (IZR m'))%R).
    { rewrite <- (sqrt_square (IZR q)) by exact Hq0.
      apply sqrt_le_1_alt. rewrite <- mult_IZR. apply IZR_le. lia. }
    assert (H2 : (sqrt (IZR m') < IZR q + 1)%R).
    { rewrite <- (sqrt_square (IZR q + 1)) by lra.
      apply sqrt_lt_1_alt. split; [apply IZR_le; lia | ].
      rewrite <- plus_IZR, <- mult_IZR. apply IZR_lt. lia. }
    split; nra.
Qed.

(** Square root. *)
Lemma sqrt_sound (x : float) :
  fin x -> (0 <= val x)%R ->
  (sqrt (val x) < pw 99)%R ->
  fin (F32.sqrtf x) /\
  (Rabs (val (F32.sqrtf x) - sqrt (val x)) <= err (sqrt (val x)))%R.
Proof.
  unfold fin. intros Hx Hpos Hov.
  destruct x as [sx | sx | | sx mx ex]; try discriminate Hx.
  - split; [reflexivity | ].
    change (val (F32.sqrtf (S754_zero sx))) with 0%R.
    simpl val. rewrite sqrt_0. apply err_zero_ok.
  - destruct sx.
    { exfalso. rewrite val_finite in Hpos. unfold sgn in Hpos.
      assert (0 < IZR (Zpos mx) * pw ex)%R
        by (apply Rmult_lt_0_compat; [apply IZR_lt; lia | apply pw_pos]).
      lra. }
    unfold F32.sqrtf, SFsqrt.
    pose proof (sqrt_core_spec mx ex) as Hcore.
    destruct (SFsqrt_core_binary F32.prec F32.emax (Zpos mx) ex) as [[q e'] l].
    cbv zeta in Hcore. destruct Hcore as [Hq [He' Hv]].
    assert (Ev : val (S754_finite false mx ex) = (IZR (Zpos mx) * pw ex)%R).
    { rewrite val_finite. unfold sgn. ring. }
    rewrite Ev in *.
    pose proof (bra_inexact_error false q e' l _ Hq He' Hv Hov) as H.
    cbv zeta in H. unfold sgn in H. rewrite !Rmult_1_l in H. exact H.
Qed.

(* ================================================================== *)
(** * Intervals of fixed-point numbers on machine integers *)
(* ================================================================== *)

(** Enclosures of binary32 values by intervals whose bounds are integers
    counting units of [2^-20], computed on 63-bit machine integers. *)

From Stdlib Require Import Sint63 Uint63.
Local Open Scope Z_scope.


Record itv : Type := mkI { lo : int; hi : int }.

Definition SC : int := 1048576%sint63.          (* 2^20: one unit *)
Definition BND : int := 2147483648%sint63.      (* 2^31 *)

Definition small (a : int) : bool :=
  ((0 - BND <? a) && (a <? BND))%sint63.

Definition ok (x : itv) : bool := small (lo x) && small (hi x).

Definition iabs (a : int) : int := (if a <? 0 then 0 - a else a)%sint63.
Definition imax (a b : int) : int := (if a <? b then b else a)%sint63.
Definition imin (a b : int) : int := (if a <? b then a else b)%sint63.

(** Room for one rounding error around an exact result. *)
Definition widen (x : itv) : itv :=
  let m := imax (iabs (lo x)) (iabs (hi x)) in
  let w := ((m >> 21) + 2)%sint63 in
  mkI (lo x - w)%sint63 (hi x + w)%sint63.

Definition tz := Sint63.to_Z.

Lemma tz_range (a : int) :
  -4611686018427387904 <= tz a <= 4611686018427387903.
Proof. exact (Sint63.to_Z_bounded a). Qed.

Lemma tz_add (a b : int) :
  -4611686018427387904 <= tz a + tz b <= 4611686018427387903 ->
  tz (a + b)%sint63 = tz a + tz b.
Proof. intros H. apply Sint63.to_Z_add. exact H. Qed.

Lemma tz_sub (a b : int) :
  -4611686018427387904 <= tz a - tz b <= 4611686018427387903 ->
  tz (a - b)%sint63 = tz a - tz b.
Proof. intros H. apply Sint63.to_Z_sub. exact H. Qed.

Lemma tz_mul (a b : int) :
  -4611686018427387904 <= tz a * tz b <= 4611686018427387903 ->
  tz (a * b)%sint63 = tz a * tz b.
Proof. intros H. apply Sint63.to_Z_mul. exact H. Qed.

Lemma tz_asr (a : int) (p : int) : tz (a >> p)%sint63 = tz a / 2 ^ tz p.
Proof. apply Sint63.asr_spec. Qed.

Lemma tz_ltb (a b : int) : (a <? b)%sint63 = true <-> tz a < tz b.
Proof. apply Sint63.ltb_spec. Qed.

Lemma tz_ltb_false (a b : int) : (a <? b)%sint63 = false <-> tz b <= tz a.
Proof.
  pose proof (tz_ltb a b) as H. destruct (a <? b)%sint63.
  - split; [discriminate | ]. intros. assert (tz a < tz b) by (apply H; reflexivity). lia.
  - split; [ | reflexivity]. intros _.
    destruct (Z_lt_le_dec (tz a) (tz b)) as [Hlt | ]; [ | assumption].
    apply H in Hlt. discriminate.
Qed.

Lemma tz_leb (a b : int) : (a <=? b)%sint63 = true <-> tz a <= tz b.
Proof. apply Sint63.leb_spec. Qed.

Lemma tz_0 : tz 0%sint63 = 0. Proof. reflexivity. Qed.
Lemma tz_2 : tz 2%sint63 = 2. Proof. reflexivity. Qed.
Lemma tz_1 : tz 1%sint63 = 1. Proof. reflexivity. Qed.
Lemma tz_21 : tz 21%sint63 = 21. Proof. reflexivity. Qed.
Lemma tz_20 : tz 20%sint63 = 20. Proof. reflexivity. Qed.
Lemma tz_SC : tz SC = 1048576. Proof. reflexivity. Qed.
Lemma tz_BND : tz BND = 2147483648. Proof. reflexivity. Qed.

Lemma small_spec (a : int) :
  small a = true -> -2147483648 < tz a < 2147483648.
Proof.
  unfold small. intros H. apply andb_prop in H. destruct H as [H1 H2].
  apply tz_ltb in H1, H2. rewrite tz_BND in H2.
  rewrite tz_sub in H1 by (rewrite tz_0, tz_BND; lia).
  rewrite tz_0, tz_BND in H1. lia.
Qed.

Lemma ok_spec (x : itv) :
  ok x = true ->
  -2147483648 < tz (lo x) < 2147483648 /\ -2147483648 < tz (hi x) < 2147483648.
Proof.
  unfold ok. intros H. apply andb_prop in H. destruct H as [H1 H2].
  split; apply small_spec; assumption.
Qed.

Lemma tz_iabs (a : int) :
  -4611686018427387903 <= tz a -> tz (iabs a) = Z.abs (tz a).
Proof.
  intros Ha. unfold iabs. destruct (a <? 0)%sint63 eqn:E.
  - apply tz_ltb in E. rewrite tz_0 in E.
    rewrite tz_sub by (rewrite tz_0; pose proof (tz_range a); lia).
    rewrite tz_0. lia.
  - apply tz_ltb_false in E. rewrite tz_0 in E. lia.
Qed.

Lemma tz_imax (a b : int) : tz (imax a b) = Z.max (tz a) (tz b).
Proof.
  unfold imax. destruct (a <? b)%sint63 eqn:E.
  - apply tz_ltb in E. lia.
  - apply tz_ltb_false in E. lia.
Qed.

Lemma tz_imin (a b : int) : tz (imin a b) = Z.min (tz a) (tz b).
Proof.
  unfold imin. destruct (a <? b)%sint63 eqn:E.
  - apply tz_ltb in E. lia.
  - apply tz_ltb_false in E. lia.
Qed.

(** A real number lies in an interval, in units of [2^-20]. *)
Definition inR (x : itv) (v : R) : Prop :=
  (IZR (tz (lo x)) <= v * 1048576 <= IZR (tz (hi x)))%R.

(** A finite datum whose value lies in the interval. *)
Definition enc (x : itv) (f : float) : Prop := fin f /\ inR x (val f).

Definition roomy (x : itv) : Prop :=
  Z.abs (tz (lo x)) < 2 ^ 56 /\ Z.abs (tz (hi x)) < 2 ^ 56.

Lemma widen_bounds (x : itv) :
  roomy x ->
  let m := Z.max (Z.abs (tz (lo x))) (Z.abs (tz (hi x))) in
  tz (lo (widen x)) = tz (lo x) - (m / 2 ^ 21 + 2) /\
  tz (hi (widen x)) = tz (hi x) + (m / 2 ^ 21 + 2).
Proof.
  intros [Hl Hh] m. change (2 ^ 56) with 72057594037927936 in *.
  unfold widen. cbn [lo hi].
  assert (Em : tz (imax (iabs (lo x)) (iabs (hi x))) = m).
  { rewrite tz_imax, !tz_iabs by lia. reflexivity. }
  assert (Hm : 0 <= m < 72057594037927936) by (unfold m; lia).
  assert (Hd : 0 <= m / 2 ^ 21 <= m).
  { split; [apply Z.div_pos; lia | ].
    apply Z.div_le_upper_bound; [reflexivity | ].
    change (2 ^ 21) with 2097152. lia. }
  assert (Ew : tz ((imax (iabs (lo x)) (iabs (hi x)) >> 21) + 2)%sint63
               = m / 2 ^ 21 + 2).
  { rewrite tz_add; rewrite tz_asr, tz_21, Em, tz_2; [reflexivity | lia]. }
  split.
  - rewrite tz_sub; rewrite Ew; [reflexivity | lia].
  - rewrite tz_add; rewrite Ew; [reflexivity | lia].
Qed.

Lemma pw_m20 : (pw (-20) * 1048576 = 1)%R.
Proof.
  replace 1048576%R with (pw 20) by (rewrite pw_IZR by lia; reflexivity).
  rewrite <- pw_add. reflexivity.
Qed.

(** Whatever is within one rounding error of a value of [x] lies in
    [widen x]. *)
Lemma widen_sound (x : itv) (v r : R) :
  roomy x -> inR x v -> (Rabs (r - v) <= err v)%R -> inR (widen x) r.
Proof.
  intros Hroomy [Hlo Hhi] Herr.
  destruct (widen_bounds x Hroomy) as [El Eh]. cbv zeta in El, Eh.
  set (m := Z.max (Z.abs (tz (lo x))) (Z.abs (tz (hi x)))) in *.
  unfold inR. rewrite El, Eh. rewrite minus_IZR, !plus_IZR.
  (* |v| * 2^20 <= m *)
  assert (Hv : (Rabs v * 1048576 <= IZR m)%R).
  { assert (IZR (tz (lo x)) >= - IZR m)%R.
    { rewrite <- opp_IZR. apply Rle_ge, IZR_le. unfold m. lia. }
    assert (IZR (tz (hi x)) <= IZR m)%R by (apply IZR_le; unfold m; lia).
    unfold Rabs. destruct (Rcase_abs v); lra. }
  (* m / 2^21 >= m * 2^-21 - 1 *)
  assert (Hq : (IZR m <= (IZR (m / 2 ^ 21) + 1) * 2097152)%R).
  { pose proof (Z.div_mod m (2 ^ 21) ltac:(lia)) as Hdm.
    pose proof (Z.mod_pos_bound m (2 ^ 21) ltac:(lia)) as Hmod.
    change (2 ^ 21) with 2097152 in *.
    assert (m <= (m / 2097152 + 1) * 2097152) by lia.
    apply IZR_le in H. rewrite mult_IZR, plus_IZR in H. exact H. }
  (* the error, in units *)
  assert (He : (err v * 1048576 <= IZR (m / 2 ^ 21) + 2)%R).
  { unfold err.
    assert (E21 : (pw (-21) * 2097152 = 1)%R).
    { replace 2097152%R with (pw 21) by (rewrite pw_IZR by lia; reflexivity).
      rewrite <- pw_add. reflexivity. }
    assert (E147 : (pw (-147) * 1048576 <= 1)%R).
    { replace 1048576%R with (pw 20) by (rewrite pw_IZR by lia; reflexivity).
      rewrite <- pw_add. change 1%R with (pw 0). apply pw_le. lia. }
    pose proof (pw_pos (-21)).
    assert (pw (-21) * (Rabs v * 1048576) <= pw (-21) * IZR m)%R
      by (apply Rmult_le_compat_l; lra).
    assert (pw (-21) * IZR m <= pw (-21) * ((IZR (m / 2 ^ 21) + 1) * 2097152))%R
      by (apply Rmult_le_compat_l; lra).
    nra. }
  unfold Rabs in Herr. destruct (Rcase_abs (r - v)); lra.
Qed.

Lemma inR_abs (x : itv) (v : R) :
  roomy x -> inR x v -> (Rabs v < pw 99)%R.
Proof.
  intros [Hl Hh] [H1 H2].
  assert (Hb : (- pw 56 < v * 1048576 < pw 56)%R).
  { rewrite (pw_IZR 56) by lia. rewrite <- opp_IZR.
    split.
    - apply Rlt_le_trans with (IZR (tz (lo x))); [apply IZR_lt; lia | exact H1].
    - apply Rle_lt_trans with (IZR (tz (hi x))); [exact H2 | apply IZR_lt; lia]. }
  assert (E : (pw 99 = pw 43 * pw 56)%R) by (rewrite <- pw_add; reflexivity).
  assert (1 <= pw 43)%R by (change 1%R with (pw 0); apply pw_le; lia).
  pose proof (pw_pos 56).
  unfold Rabs. destruct (Rcase_abs v); nra.
Qed.

Lemma ok_roomy (x : itv) : ok x = true -> roomy x.
Proof.
  intros H. destruct (ok_spec x H) as [H1 H2].
  unfold roomy. change (2 ^ 56) with 72057594037927936. lia.
Qed.

(** ** Addition and subtraction *)

Definition iadd (x y : itv) : option itv :=
  if ok x && ok y
  then Some (widen (mkI (lo x + lo y)%sint63 (hi x + hi y)%sint63))
  else None.

Definition isub (x y : itv) : option itv :=
  if ok x && ok y
  then Some (widen (mkI (lo x - hi y)%sint63 (hi x - lo y)%sint63))
  else None.

Lemma iadd_sound (X Y Z : itv) (x y : float) :
  iadd X Y = Some Z -> enc X x -> enc Y y -> enc Z (x + y)%f32.
Proof.
  unfold iadd. destruct (ok X && ok Y) eqn:Hok; [ | discriminate].
  intros E. injection E as <-.
  apply andb_prop in Hok. destruct Hok as [HX HY].
  destruct (ok_spec X HX) as [HX1 HX2]. destruct (ok_spec Y HY) as [HY1 HY2].
  intros [Fx [Lx Ux]] [Fy [Ly Uy]].
  set (J := mkI (lo X + lo Y)%sint63 (hi X + hi Y)%sint63).
  assert (El : tz (lo J) = tz (lo X) + tz (lo Y)) by (apply tz_add; lia).
  assert (Eh : tz (hi J) = tz (hi X) + tz (hi Y)) by (apply tz_add; lia).
  assert (HJ : roomy J).
  { unfold roomy. rewrite El, Eh. change (2 ^ 56) with 72057594037927936. lia. }
  assert (Hin : inR J (val x + val y)).
  { unfold inR. rewrite El, Eh, !plus_IZR. lra. }
  destruct (add_sound x y Fx Fy (inR_abs J _ HJ Hin)) as [Ff He].
  split; [exact Ff | ]. apply (widen_sound J _ _ HJ Hin He).
Qed.

Lemma isub_sound (X Y Z : itv) (x y : float) :
  isub X Y = Some Z -> enc X x -> enc Y y -> enc Z (x - y)%f32.
Proof.
  unfold isub. destruct (ok X && ok Y) eqn:Hok; [ | discriminate].
  intros E. injection E as <-.
  apply andb_prop in Hok. destruct Hok as [HX HY].
  destruct (ok_spec X HX) as [HX1 HX2]. destruct (ok_spec Y HY) as [HY1 HY2].
  intros [Fx [Lx Ux]] [Fy [Ly Uy]].
  set (J := mkI (lo X - hi Y)%sint63 (hi X - lo Y)%sint63).
  assert (El : tz (lo J) = tz (lo X) - tz (hi Y)) by (apply tz_sub; lia).
  assert (Eh : tz (hi J) = tz (hi X) - tz (lo Y)) by (apply tz_sub; lia).
  assert (HJ : roomy J).
  { unfold roomy. rewrite El, Eh. change (2 ^ 56) with 72057594037927936. lia. }
  assert (Hin : inR J (val x - val y)).
  { unfold inR. rewrite El, Eh, !minus_IZR. lra. }
  destruct (sub_sound x y Fx Fy (inR_abs J _ HJ Hin)) as [Ff He].
  split; [exact Ff | ]. apply (widen_sound J _ _ HJ Hin He).
Qed.

(** ** Negation (exact) *)

Definition ineg (x : itv) : option itv :=
  if ok x then Some (mkI (0 - hi x)%sint63 (0 - lo x)%sint63) else None.

Lemma ineg_sound (X Z : itv) (x : float) :
  ineg X = Some Z -> enc X x -> enc Z (- x)%f32.
Proof.
  unfold ineg. destruct (ok X) eqn:HX; [ | discriminate].
  intros E. injection E as <-.
  destruct (ok_spec X HX) as [HX1 HX2].
  intros [Fx [Lx Ux]].
  destruct (neg_sound x Fx) as [Ff Ev].
  split; [exact Ff | ]. unfold inR. cbn [lo hi]. rewrite Ev.
  rewrite !tz_sub by (rewrite tz_0; lia). rewrite tz_0.
  rewrite !minus_IZR. lra.
Qed.

(** ** Multiplication *)

Lemma mul_interval (a1 a2 b1 b2 A B L U : R) :
  (a1 <= A <= a2)%R -> (b1 <= B <= b2)%R ->
  (L <= a1 * b1)%R -> (L <= a1 * b2)%R -> (L <= a2 * b1)%R -> (L <= a2 * b2)%R ->
  (a1 * b1 <= U)%R -> (a1 * b2 <= U)%R -> (a2 * b1 <= U)%R -> (a2 * b2 <= U)%R ->
  (L <= A * B <= U)%R.
Proof.
  intros [HA1 HA2] [HB1 HB2] L1 L2 L3 L4 U1 U2 U3 U4.
  destruct (Rle_dec 0 B) as [HB | HB].
  - (* A*B between a1*B and a2*B *)
    assert (a1 * B <= A * B <= a2 * B)%R by (split; nra).
    destruct (Rle_dec 0 a1) as [Ha1 | Ha1];
      destruct (Rle_dec 0 a2) as [Ha2 | Ha2]; split; nra.
  - assert (a2 * B <= A * B <= a1 * B)%R by (split; nra).
    destruct (Rle_dec 0 a1) as [Ha1 | Ha1];
      destruct (Rle_dec 0 a2) as [Ha2 | Ha2]; split; nra.
Qed.

Definition prod (a b : int) : int := ((a * b) >> 20)%sint63.

Definition imul (x y : itv) : option itv :=
  if ok x && ok y then
    let p1 := prod (lo x) (lo y) in
    let p2 := prod (lo x) (hi y) in
    let p3 := prod (hi x) (lo y) in
    let p4 := prod (hi x) (hi y) in
    Some (widen (mkI (imin (imin p1 p2) (imin p3 p4))
                     (imax (imax p1 p2) (imax p3 p4) + 1)%sint63))
  else None.

Lemma prod_spec (a b : int) :
  -2147483648 < tz a < 2147483648 -> -2147483648 < tz b < 2147483648 ->
  tz (prod a b) = (tz a * tz b) / 1048576 /\
  Z.abs (tz (prod a b)) <= 4398046511104 /\
  (IZR (tz (prod a b)) * 1048576 <= IZR (tz a) * IZR (tz b)
   < (IZR (tz (prod a b)) + 1) * 1048576)%R.
Proof.
  intros Ha Hb.
  assert (Hp : -4611686018427387904 <= tz a * tz b <= 4611686018427387903) by nia.
  assert (Eq : tz (prod a b) = tz a * tz b / 1048576).
  { unfold prod. rewrite tz_asr, tz_20, tz_mul by exact Hp. reflexivity. }
  pose proof (Z.div_mod (tz a * tz b) 1048576 ltac:(lia)) as Hdm.
  pose proof (Z.mod_pos_bound (tz a * tz b) 1048576 ltac:(lia)) as Hmod.
  set (q := tz a * tz b / 1048576) in *.
  split; [exact Eq | ].
  split; [rewrite Eq; nia | ].
  set (r := (tz a * tz b) mod 1048576) in *.
  assert (H1 : (IZR (tz a) * IZR (tz b) = 1048576 * IZR q + IZR r)%R).
  { rewrite <- mult_IZR. rewrite Hdm. rewrite plus_IZR, mult_IZR. reflexivity. }
  assert (H2 : (0 <= IZR r < 1048576)%R).
  { split; [apply IZR_le; lia | apply IZR_lt; lia]. }
  rewrite Eq. lra.
Qed.

Lemma imul_sound (X Y Z : itv) (x y : float) :
  imul X Y = Some Z -> enc X x -> enc Y y -> enc Z (x * y)%f32.
Proof.
  unfold imul. destruct (ok X && ok Y) eqn:Hok; [ | discriminate].
  intros E. injection E as <-.
  apply andb_prop in Hok. destruct Hok as [HX HY].
  destruct (ok_spec X HX) as [HX1 HX2]. destruct (ok_spec Y HY) as [HY1 HY2].
  intros [Fx [Lx Ux]] [Fy [Ly Uy]].
  destruct (prod_spec (lo X) (lo Y) HX1 HY1) as [_ [B1 [P1l P1u]]].
  destruct (prod_spec (lo X) (hi Y) HX1 HY2) as [_ [B2 [P2l P2u]]].
  destruct (prod_spec (hi X) (lo Y) HX2 HY1) as [_ [B3 [P3l P3u]]].
  destruct (prod_spec (hi X) (hi Y) HX2 HY2) as [_ [B4 [P4l P4u]]].
  set (p1 := prod (lo X) (lo Y)) in *. set (p2 := prod (lo X) (hi Y)) in *.
  set (p3 := prod (hi X) (lo Y)) in *. set (p4 := prod (hi X) (hi Y)) in *.
  set (J := mkI (imin (imin p1 p2) (imin p3 p4))
                (imax (imax p1 p2) (imax p3 p4) + 1)%sint63).
  assert (El : tz (lo J) = Z.min (Z.min (tz p1) (tz p2)) (Z.min (tz p3) (tz p4))).
  { unfold J. cbn [lo]. rewrite !tz_imin. reflexivity. }
  assert (Eh : tz (hi J) = Z.max (Z.max (tz p1) (tz p2)) (Z.max (tz p3) (tz p4)) + 1).
  { unfold J. cbn [hi]. rewrite tz_add; rewrite !tz_imax, tz_1; [reflexivity | lia]. }
  assert (HJ : roomy J).
  { unfold roomy. rewrite El, Eh. change (2 ^ 56) with 72057594037927936. lia. }
  assert (Hin : inR J (val x * val y)).
  { unfold inR. rewrite El, Eh.
    assert (Hl1 : (IZR (Z.min (Z.min (tz p1) (tz p2)) (Z.min (tz p3) (tz p4))) <= IZR (tz p1))%R) by (apply IZR_le; lia).
    assert (Hl2 : (IZR (Z.min (Z.min (tz p1) (tz p2)) (Z.min (tz p3) (tz p4))) <= IZR (tz p2))%R) by (apply IZR_le; lia).
    assert (Hl3 : (IZR (Z.min (Z.min (tz p1) (tz p2)) (Z.min (tz p3) (tz p4))) <= IZR (tz p3))%R) by (apply IZR_le; lia).
    assert (Hl4 : (IZR (Z.min (Z.min (tz p1) (tz p2)) (Z.min (tz p3) (tz p4))) <= IZR (tz p4))%R) by (apply IZR_le; lia).
    rewrite plus_IZR.
    assert (Hu1 : (IZR (tz p1) <= IZR (Z.max (Z.max (tz p1) (tz p2)) (Z.max (tz p3) (tz p4))))%R) by (apply IZR_le; lia).
    assert (Hu2 : (IZR (tz p2) <= IZR (Z.max (Z.max (tz p1) (tz p2)) (Z.max (tz p3) (tz p4))))%R) by (apply IZR_le; lia).
    assert (Hu3 : (IZR (tz p3) <= IZR (Z.max (Z.max (tz p1) (tz p2)) (Z.max (tz p3) (tz p4))))%R) by (apply IZR_le; lia).
    assert (Hu4 : (IZR (tz p4) <= IZR (Z.max (Z.max (tz p1) (tz p2)) (Z.max (tz p3) (tz p4))))%R) by (apply IZR_le; lia).
    set (L := IZR (Z.min (Z.min (tz p1) (tz p2)) (Z.min (tz p3) (tz p4)))) in *.
    set (U := IZR (Z.max (Z.max (tz p1) (tz p2)) (Z.max (tz p3) (tz p4)))) in *.
    pose proof (mul_interval _ _ _ _ (val x * 1048576) (val y * 1048576)
                  (L * 1048576) ((U + 1) * 1048576)
                  (conj Lx Ux) (conj Ly Uy)) as Hm.
    assert (Hm' : (L * 1048576 <= val x * 1048576 * (val y * 1048576)
                   <= (U + 1) * 1048576)%R) by (apply Hm; lra).
    lra. }
  destruct (mul_sound x y Fx Fy (inR_abs J _ HJ Hin)) as [Ff He].
  split; [exact Ff | ]. apply (widen_sound J _ _ HJ Hin He).
Qed.

Lemma tz_mul_small (a b : int) :
  -2147483648 < tz a < 2147483648 -> -2147483648 < tz b < 2147483648 ->
  tz (a * b)%sint63 = tz a * tz b.
Proof. intros Ha Hb. apply tz_mul. nia. Qed.

(** ** Division by a positive interval *)

Definition idiv (x y : itv) : option itv :=
  if ok x && ok y && (0 <? lo y)%sint63 then
    let n1 := (lo x * SC)%sint63 in
    let n2 := (hi x * SC)%sint63 in
    let L := (imin (divs n1 (lo y)) (divs n1 (hi y)) - 1)%sint63 in
    let U := (imax (divs n2 (lo y)) (divs n2 (hi y)) + 1)%sint63 in
    if small L && small U
       && (L * lo y <=? n1)%sint63 && (L * hi y <=? n1)%sint63
       && (n2 <=? U * lo y)%sint63 && (n2 <=? U * hi y)%sint63
    then Some (widen (mkI L U))
    else None
  else None.

Lemma scale_between (L b1 b2 B : R) :
  (b1 <= B <= b2)%R -> (L * B <= Rmax (L * b1) (L * b2))%R.
Proof.
  intros [H1 H2]. destruct (Rle_dec 0 L) as [HL | HL].
  - apply Rle_trans with (L * b2)%R; [ | apply Rmax_r].
    apply Rmult_le_compat_l; assumption.
  - apply Rle_trans with (L * b1)%R; [ | apply Rmax_l].
    assert (0 <= (- L) * (B - b1))%R by (apply Rmult_le_pos; lra). lra.
Qed.

Lemma scale_between_min (U b1 b2 B : R) :
  (b1 <= B <= b2)%R -> (Rmin (U * b1) (U * b2) <= U * B)%R.
Proof.
  intros [H1 H2]. destruct (Rle_dec 0 U) as [HU | HU].
  - apply Rle_trans with (U * b1)%R; [apply Rmin_l | ].
    apply Rmult_le_compat_l; assumption.
  - apply Rle_trans with (U * b2)%R; [apply Rmin_r | ].
    assert (0 <= (- U) * (b2 - B))%R by (apply Rmult_le_pos; lra). lra.
Qed.

Lemma div_interval (a1 a2 b1 b2 A B L U : R) :
  (a1 <= A <= a2)%R -> (b1 <= B <= b2)%R -> (0 < b1)%R ->
  (L * b1 <= a1 * 1048576)%R -> (L * b2 <= a1 * 1048576)%R ->
  (a2 * 1048576 <= U * b1)%R -> (a2 * 1048576 <= U * b2)%R ->
  (L <= A * 1048576 / B <= U)%R.
Proof.
  intros [HA1 HA2] HBB Hb L1 L2 U1 U2.
  assert (HB : (0 < B)%R) by lra.
  assert (HL : (L * B <= A * 1048576)%R).
  { pose proof (scale_between L b1 b2 B HBB) as H.
    assert (Rmax (L * b1) (L * b2) <= a1 * 1048576)%R
      by (apply Rmax_lub; assumption).
    lra. }
  assert (HU : (A * 1048576 <= U * B)%R).
  { pose proof (scale_between_min U b1 b2 B HBB) as H.
    assert (a2 * 1048576 <= Rmin (U * b1) (U * b2))%R
      by (apply Rmin_glb; assumption).
    lra. }
  split.
  - apply Rmult_le_reg_r with B; [exact HB | ].
    replace (A * 1048576 / B * B)%R with (A * 1048576)%R by (field; lra). exact HL.
  - apply Rmult_le_reg_r with B; [exact HB | ].
    replace (A * 1048576 / B * B)%R with (A * 1048576)%R by (field; lra). exact HU.
Qed.

Lemma idiv_sound (X Y Z : itv) (x y : float) :
  idiv X Y = Some Z -> enc X x -> enc Y y ->
  enc Z (x / y)%f32 /\ (0 < val y)%R.
Proof.
  unfold idiv.
  destruct (ok X && ok Y && (0 <? lo Y)%sint63) eqn:Hok; [ | discriminate].
  apply andb_prop in Hok. destruct Hok as [Hok Hpos].
  apply andb_prop in Hok. destruct Hok as [HX HY].
  destruct (ok_spec X HX) as [HX1 HX2]. destruct (ok_spec Y HY) as [HY1 HY2].
  apply tz_ltb in Hpos. rewrite tz_0 in Hpos.
  set (n1 := (lo X * SC)%sint63). set (n2 := (hi X * SC)%sint63).
  set (L := (imin (divs n1 (lo Y)) (divs n1 (hi Y)) - 1)%sint63).
  set (U := (imax (divs n2 (lo Y)) (divs n2 (hi Y)) + 1)%sint63).
  destruct (small L && small U && (L * lo Y <=? n1)%sint63
            && (L * hi Y <=? n1)%sint63 && (n2 <=? U * lo Y)%sint63
            && (n2 <=? U * hi Y)%sint63) eqn:Hchk; [ | discriminate].
  intros E. injection E as <-.
  do 5 (apply andb_prop in Hchk; let H := fresh "C" in destruct Hchk as [Hchk H]).
  apply small_spec in Hchk, C3.
  assert (En1 : tz n1 = tz (lo X) * 1048576).
  { unfold n1. rewrite tz_mul; rewrite tz_SC; [reflexivity | lia]. }
  assert (En2 : tz n2 = tz (hi X) * 1048576).
  { unfold n2. rewrite tz_mul; rewrite tz_SC; [reflexivity | lia]. }
  apply tz_leb in C, C0, C1, C2.
  rewrite tz_mul_small in C, C0, C1, C2 by assumption.
  rewrite En1 in C1, C2. rewrite En2 in C, C0.
  intros [Fx [Lx Ux]] [Fy [Ly Uy]].
  assert (Hb1 : (0 < IZR (tz (lo Y)))%R) by (apply IZR_lt; exact Hpos).
  assert (Hy : (0 < val y)%R) by lra.
  split; [ | exact Hy].
  set (J := mkI L U).
  assert (HJ : roomy J).
  { unfold roomy, J. cbn [lo hi]. change (2 ^ 56) with 72057594037927936. lia. }
  assert (Hin : inR J (val x / val y)).
  { unfold inR, J. cbn [lo hi].
    assert (R1 : (IZR (tz L) * IZR (tz (lo Y)) <= IZR (tz (lo X)) * 1048576)%R)
      by (rewrite <- !mult_IZR; apply IZR_le; exact C2).
    assert (R2 : (IZR (tz L) * IZR (tz (hi Y)) <= IZR (tz (lo X)) * 1048576)%R)
      by (rewrite <- !mult_IZR; apply IZR_le; exact C1).
    assert (R3 : (IZR (tz (hi X)) * 1048576 <= IZR (tz U) * IZR (tz (lo Y)))%R)
      by (rewrite <- !mult_IZR; apply IZR_le; exact C0).
    assert (R4 : (IZR (tz (hi X)) * 1048576 <= IZR (tz U) * IZR (tz (hi Y)))%R)
      by (rewrite <- !mult_IZR; apply IZR_le; exact C).
    pose proof (div_interval _ _ _ _ (val x * 1048576) (val y * 1048576)
                  (IZR (tz L)) (IZR (tz U))
                  (conj Lx Ux) (conj Ly Uy) Hb1 R1 R2 R3 R4) as Hd.
    replace (val x / val y * 1048576)%R
      with (val x * 1048576 * 1048576 / (val y * 1048576))%R by (field; lra).
    exact Hd. }
  destruct (div_sound x y Fx Fy ltac:(lra) (inR_abs J _ HJ Hin)) as [Ff He].
  split; [exact Ff | ]. apply (widen_sound J _ _ HJ Hin He).
Qed.

(** ** Square root of a non-negative interval *)

Definition isqrt (x : itv) : option itv :=
  if ok x && (0 <=? lo x)%sint63 then
    let n1 := (lo x * SC)%sint63 in
    let n2 := (hi x * SC)%sint63 in
    let L := Uint63.sqrt n1 in
    let U := (Uint63.sqrt n2 + 1)%sint63 in
    if small L && small U && (0 <=? L)%sint63 && (0 <=? U)%sint63
       && (L * L <=? n1)%sint63 && (n2 <=? U * U)%sint63
    then Some (widen (mkI L U))
    else None
  else None.

Lemma isqrt_sound (X Z : itv) (x : float) :
  isqrt X = Some Z -> enc X x -> enc Z (F32.sqrtf x).
Proof.
  unfold isqrt.
  destruct (ok X && (0 <=? lo X)%sint63) eqn:Hok; [ | discriminate].
  apply andb_prop in Hok. destruct Hok as [HX Hpos].
  destruct (ok_spec X HX) as [HX1 HX2].
  apply tz_leb in Hpos. rewrite tz_0 in Hpos.
  set (n1 := (lo X * SC)%sint63). set (n2 := (hi X * SC)%sint63).
  set (L := Uint63.sqrt n1). set (U := (Uint63.sqrt n2 + 1)%sint63).
  destruct (small L && small U && (0 <=? L)%sint63 && (0 <=? U)%sint63
            && (L * L <=? n1)%sint63 && (n2 <=? U * U)%sint63) eqn:Hchk;
    [ | discriminate].
  intros E. injection E as <-.
  do 5 (apply andb_prop in Hchk; let H := fresh "C" in destruct Hchk as [Hchk H]).
  apply small_spec in Hchk, C3.
  assert (En1 : tz n1 = tz (lo X) * 1048576).
  { unfold n1. rewrite tz_mul; rewrite tz_SC; [reflexivity | lia]. }
  assert (En2 : tz n2 = tz (hi X) * 1048576).
  { unfold n2. rewrite tz_mul; rewrite tz_SC; [reflexivity | lia]. }
  apply tz_leb in C, C0, C1, C2. rewrite tz_0 in C1, C2.
  rewrite tz_mul_small in C, C0 by assumption.
  rewrite En1 in C0. rewrite En2 in C.
  intros [Fx [Lx Ux]].
  assert (Hx0 : (0 <= val x)%R).
  { assert (0 <= IZR (tz (lo X)))%R by (apply IZR_le; exact Hpos). lra. }
  set (J := mkI L U).
  assert (HJ : roomy J).
  { unfold roomy, J. cbn [lo hi]. change (2 ^ 56) with 72057594037927936. lia. }
  assert (Hin : inR J (R_sqrt.sqrt (val x))).
  { unfold inR, J. cbn [lo hi].
    apply IZR_le in C1, C2.
    assert (R1 : (IZR (tz L) * IZR (tz L) <= IZR (tz (lo X)) * 1048576)%R)
      by (rewrite <- !mult_IZR; apply IZR_le; exact C0).
    assert (R2 : (IZR (tz (hi X)) * 1048576 <= IZR (tz U) * IZR (tz U))%R)
      by (rewrite <- !mult_IZR; apply IZR_le; exact C).
    assert (Es : (R_sqrt.sqrt (val x) * 1048576 = R_sqrt.sqrt (val x * 1048576 * 1048576))%R).
    { rewrite Rmult_assoc, sqrt_mult by lra.
      rewrite sqrt_square by lra. reflexivity. }
    rewrite Es. split.
    - rewrite <- (sqrt_square (IZR (tz L))) by exact C2.
      apply sqrt_le_1_alt. nra.
    - rewrite <- (sqrt_square (IZR (tz U))) by exact C1.
      apply sqrt_le_1_alt. nra. }
  destruct (sqrt_sound x Fx Hx0) as [Ff He].
  { assert (H := inR_abs J _ HJ Hin). rewrite Rabs_right in H; [exact H | ].
    apply Rle_ge, sqrt_pos. }
  split; [exact Ff | ]. apply (widen_sound J _ _ HJ Hin He).
Qed.

(** ** Signs *)

Lemma val_neg_ltb (x : float) :
  fin x -> (val x < 0)%R -> (x <? Lit.f0)%f32 = true.
Proof.
  unfold fin. intros Fx Hv.
  destruct x as [s | s | | s m e]; try discriminate Fx.
  - simpl in Hv. lra.
  - destruct s; [reflexivity | ].
    rewrite val_finite in Hv. unfold sgn in Hv.
    assert (0 < IZR (Zpos m) * pw e)%R
      by (apply Rmult_lt_0_compat; [apply IZR_lt; lia | apply pw_pos]).
    lra.
Qed.

Lemma val_nonpos_not_gt (x : float) :
  fin x -> (val x <= 0)%R -> (x >? Lit.f0)%f32 = false.
Proof.
  unfold fin. intros Fx Hv.
  destruct x as [s | s | | s m e]; try discriminate Fx.
  - destruct s; reflexivity.
  - destruct s; [reflexivity | ].
    rewrite val_finite in Hv. unfold sgn in Hv.
    assert (0 < IZR (Zpos m) * pw e)%R
      by (apply Rmult_lt_0_compat; [apply IZR_lt; lia | apply pw_pos]).
    lra.
Qed.

Lemma not_ltb_val_nonneg (x : float) :
  fin x -> (x <? Lit.f0)%f32 = false -> (0 <= val x)%R.
Proof.
  unfold fin. intros Fx H.
  destruct x as [s | s | | s m e]; try discriminate Fx.
  - simpl. lra.
  - destruct s; [discriminate H | ].
    rewrite val_finite. unfold sgn.
    assert (0 < IZR (Zpos m) * pw e)%R
      by (apply Rmult_lt_0_compat; [apply IZR_lt; lia | apply pw_pos]).
    lra.
Qed.

Lemma gt_val_pos (x : float) :
  fin x -> (x >? Lit.f0)%f32 = true -> (0 < val x)%R.
Proof.
  unfold fin. intros Fx H.
  destruct x as [s | s | | s m e]; try discriminate Fx.
  - destruct s; discriminate H.
  - destruct s; [discriminate H | ].
    rewrite val_finite. unfold sgn.
    assert (0 < IZR (Zpos m) * pw e)%R
      by (apply Rmult_lt_0_compat; [apply IZR_lt; lia | apply pw_pos]).
    lra.
Qed.

(** A value known to be non-negative: the lower bound may be raised
    to 0. *)
Definition clamp0 (x : itv) : itv := mkI (imax (lo x) 0%sint63) (hi x).

Lemma clamp0_sound (X : itv) (x : float) :
  enc X x -> (0 <= val x)%R -> enc (clamp0 X) x.
Proof.
  intros [Fx [Lx Ux]] H0. split; [exact Fx | ].
  unfold inR, clamp0. cbn [lo hi]. rewrite tz_imax, tz_0.
  split; [ | exact Ux].
  destruct (Z.max_spec (tz (lo X)) 0) as [[_ ->] | [_ ->]]; lra.
Qed.

(** An interval strictly above 0 holds positive values only. *)
Lemma pos_lo (X : itv) (x : float) :
  enc X x -> (0 <? lo X)%sint63 = true -> (0 < val x)%R.
Proof.
  intros [Fx [Lx Ux]] H. apply tz_ltb in H. rewrite tz_0 in H.
  apply IZR_lt in H. lra.
Qed.

Lemma neg_hi (X : itv) (x : float) :
  enc X x -> (hi X <? 0)%sint63 = true -> (val x < 0)%R.
Proof.
  intros [Fx [Lx Ux]] H. apply tz_ltb in H. rewrite tz_0 in H.
  apply IZR_lt in H. lra.
Qed.

Lemma nonpos_hi (X : itv) (x : float) :
  enc X x -> (hi X <=? 0)%sint63 = true -> (val x <= 0)%R.
Proof.
  intros [Fx [Lx Ux]] H. apply tz_leb in H. rewrite tz_0 in H.
  apply IZR_le in H. lra.
Qed.

(** ** Enclosure of a given number *)

Definition encl (x : float) : option itv :=
  match x with
  | S754_zero _ => Some (mkI 0%sint63 0%sint63)
  | S754_finite s m e =>
      let z := Z.shiftl (cond_Zopp s (Zpos m)) (e + 20) in
      if Z.abs z <? 1073741824
      then Some (mkI (Uint63.of_Z z) (Uint63.of_Z (z + 1)))
      else None
  | _ => None
  end.

Lemma tz_of_Z (z : Z) :
  -4611686018427387904 <= z <= 4611686018427387903 -> tz (Uint63.of_Z z) = z.
Proof. intros H. symmetry. apply Sint63.is_int. exact H. Qed.

Lemma pw_20 : pw 20 = 1048576%R.
Proof. rewrite pw_IZR by lia. reflexivity. Qed.

Lemma shiftl_floor (a k : Z) :
  (IZR (Z.shiftl a k) <= IZR a * pw k < IZR (Z.shiftl a k) + 1)%R.
Proof.
  destruct (Z_le_gt_dec 0 k) as [Hk | Hk].
  - rewrite Z.shiftl_mul_pow2 by exact Hk.
    rewrite mult_IZR, <- pw_IZR by exact Hk. lra.
  - rewrite Z.shiftl_div_pow2 by lia.
    set (d := 2 ^ (- k)).
    assert (Hd : 0 < d) by (apply Z.pow_pos_nonneg; lia).
    pose proof (Z.div_mod a d ltac:(lia)) as Hdm.
    pose proof (Z.mod_pos_bound a d Hd) as Hmod.
    assert (Ek : pw k = (/ IZR d)%R).
    { unfold d. rewrite <- pw_IZR by lia. rewrite <- pw_opp.
      f_equal. lia. }
    assert (HdR : (0 < IZR d)%R) by (apply IZR_lt; exact Hd).
    assert (H1 : (IZR (a / d) * IZR d <= IZR a)%R).
    { rewrite <- mult_IZR. apply IZR_le. lia. }
    assert (H2 : (IZR a < (IZR (a / d) + 1) * IZR d)%R).
    { replace 1%R with (IZR 1) by reflexivity.
      rewrite <- plus_IZR, <- mult_IZR. apply IZR_lt. lia. }
    rewrite Ek. split.
    + apply Rmult_le_reg_r with (IZR d); [exact HdR | ].
      replace (IZR a * / IZR d * IZR d)%R with (IZR a) by (field; lra).
      exact H1.
    + apply Rmult_lt_reg_r with (IZR d); [exact HdR | ].
      replace (IZR a * / IZR d * IZR d)%R with (IZR a) by (field; lra).
      exact H2.
Qed.

Lemma encl_sound (x : float) (X : itv) : encl x = Some X -> enc X x.
Proof.
  destruct x as [s | s | | s m e]; simpl; try discriminate.
  - intros E. injection E as <-. split; [reflexivity | ].
    unfold inR. cbn [lo hi]. change (val (S754_zero s)) with 0%R.
    rewrite tz_0. lra.
  - set (z := Z.shiftl (cond_Zopp s (Zpos m)) (e + 20)).
    destruct (Z.abs z <? 1073741824) eqn:Hz; [ | discriminate].
    apply Z.ltb_lt in Hz.
    intros E. injection E as <-. split; [reflexivity | ].
    unfold inR. cbn [lo hi].
    rewrite !tz_of_Z by lia. rewrite plus_IZR.
    pose proof (shiftl_floor (cond_Zopp s (Zpos m)) (e + 20)) as H.
    fold z in H. rewrite pw_add, pw_20 in H. unfold val.
    replace (IZR (cond_Zopp s (Zpos m)) * pw e * 1048576)%R
      with (IZR (cond_Zopp s (Zpos m)) * (pw e * 1048576))%R by ring.
    lra.
Qed.

(** ** Vectors of intervals *)

Record v3 : Type := mkV { vx : itv; vy : itv; vz : itv }.

Definition encv (V : v3) (v : Vec) : Prop :=
  enc (vx V) (Vec.x v) /\ enc (vy V) (Vec.y v) /\ enc (vz V) (Vec.z v).

Definition enclv (v : Vec) : option v3 :=
  x <- encl (Vec.x v) ;; y <- encl (Vec.y v) ;; z <- encl (Vec.z v) ;;
  Some (mkV x y z).

Lemma enclv_sound (v : Vec) (V : v3) : enclv v = Some V -> encv V v.
Proof.
  unfold enclv, bind.
  destruct (encl (Vec.x v)) as [x | ] eqn:Ex; [ | discriminate].
  destruct (encl (Vec.y v)) as [y | ] eqn:Ey; [ | discriminate].
  destruct (encl (Vec.z v)) as [z | ] eqn:Ez; [ | discriminate].
  intros E. injection E as <-.
  repeat split; cbn [vx vy vz]; try (apply encl_sound; assumption);
    first [ apply (encl_sound _ _ Ex) | apply (encl_sound _ _ Ey)
          | apply (encl_sound _ _ Ez) ].
Qed.

Definition vsub3 (a b : v3) : option v3 :=
  x <- isub (vx a) (vx b) ;; y <- isub (vy a) (vy b) ;;
  z <- isub (vz a) (vz b) ;; Some (mkV x y z).

Definition vadd3 (a b : v3) : option v3 :=
  x <- iadd (vx a) (vx b) ;; y <- iadd (vy a) (vy b) ;;
  z <- iadd (vz a) (vz b) ;; Some (mkV x y z).

Definition vscale3 (k : itv) (a : v3) : option v3 :=
  x <- imul k (vx a) ;; y <- imul k (vy a) ;; z <- imul k (vz a) ;;
  Some (mkV x y z).

Definition vdiv3 (a : v3) (k : itv) : option v3 :=
  x <- idiv (vx a) k ;; y <- idiv (vy a) k ;; z <- idiv (vz a) k ;;
  Some (mkV x y z).

Definition dot3 (a b : v3) : option itv :=
  p <- imul (vx a) (vx b) ;; q <- imul (vy a) (vy b) ;;
  r <- imul (vz a) (vz b) ;; s <- iadd p q ;; iadd s r.

Lemma vsub3_sound (A B C : v3) (a b : Vec) :
  vsub3 A B = Some C -> encv A a -> encv B b -> encv C (vsub a b).
Proof.
  unfold vsub3, bind. intros E [Ax [Ay Az]] [Bx [By Bz]].
  destruct (isub (vx A) (vx B)) as [x | ] eqn:Ex; [ | discriminate].
  destruct (isub (vy A) (vy B)) as [y | ] eqn:Ey; [ | discriminate].
  destruct (isub (vz A) (vz B)) as [z | ] eqn:Ez; [ | discriminate].
  injection E as <-. unfold encv, vsub. cbn [vx vy vz Vec.x Vec.y Vec.z].
  split; [apply (isub_sound _ _ _ _ _ Ex Ax Bx) | ].
  split; [apply (isub_sound _ _ _ _ _ Ey Ay By) | ].
  apply (isub_sound _ _ _ _ _ Ez Az Bz).
Qed.

Lemma vadd3_sound (A B C : v3) (a b : Vec) :
  vadd3 A B = Some C -> encv A a -> encv B b -> encv C (vadd a b).
Proof.
  unfold vadd3, bind. intros E [Ax [Ay Az]] [Bx [By Bz]].
  destruct (iadd (vx A) (vx B)) as [x | ] eqn:Ex; [ | discriminate].
  destruct (iadd (vy A) (vy B)) as [y | ] eqn:Ey; [ | discriminate].
  destruct (iadd (vz A) (vz B)) as [z | ] eqn:Ez; [ | discriminate].
  injection E as <-. unfold encv, vadd. cbn [vx vy vz Vec.x Vec.y Vec.z].
  split; [apply (iadd_sound _ _ _ _ _ Ex Ax Bx) | ].
  split; [apply (iadd_sound _ _ _ _ _ Ey Ay By) | ].
  apply (iadd_sound _ _ _ _ _ Ez Az Bz).
Qed.

Lemma vscale3_sound (K : itv) (A C : v3) (k : float) (a : Vec) :
  vscale3 K A = Some C -> enc K k -> encv A a -> encv C (vscale k a).
Proof.
  unfold vscale3, bind. intros E Ek [Ax [Ay Az]].
  destruct (imul K (vx A)) as [x | ] eqn:Ex; [ | discriminate].
  destruct (imul K (vy A)) as [y | ] eqn:Ey; [ | discriminate].
  destruct (imul K (vz A)) as [z | ] eqn:Ez; [ | discriminate].
  injection E as <-. unfold encv, vscale. cbn [vx vy vz Vec.x Vec.y Vec.z].
  split; [apply (imul_sound _ _ _ _ _ Ex Ek Ax) | ].
  split; [apply (imul_sound _ _ _ _ _ Ey Ek Ay) | ].
  apply (imul_sound _ _ _ _ _ Ez Ek Az).
Qed.

Lemma vdiv3_sound (A C : v3) (K : itv) (a : Vec) (k : float) :
  vdiv3 A K = Some C -> encv A a -> enc K k -> encv C (vdiv a k).
Proof.
  unfold vdiv3, bind. intros E [Ax [Ay Az]] Ek.
  destruct (idiv (vx A) K) as [x | ] eqn:Ex; [ | discriminate].
  destruct (idiv (vy A) K) as [y | ] eqn:Ey; [ | discriminate].
  destruct (idiv (vz A) K) as [z | ] eqn:Ez; [ | discriminate].
  injection E as <-. unfold encv, vdiv. cbn [vx vy vz Vec.x Vec.y Vec.z].
  split; [apply (idiv_sound _ _ _ _ _ Ex Ax Ek) | ].
  split; [apply (idiv_sound _ _ _ _ _ Ey Ay Ek) | ].
  apply (idiv_sound _ _ _ _ _ Ez Az Ek).
Qed.

Lemma dot3_sound (A B : v3) (D : itv) (a b : Vec) :
  dot3 A B = Some D -> encv A a -> encv B b -> enc D (dot a b).
Proof.
  unfold dot3, bind. intros E [Ax [Ay Az]] [Bx [By Bz]].
  destruct (imul (vx A) (vx B)) as [p | ] eqn:Ep; [ | discriminate].
  destruct (imul (vy A) (vy B)) as [q | ] eqn:Eq; [ | discriminate].
  destruct (imul (vz A) (vz B)) as [r | ] eqn:Er; [ | discriminate].
  destruct (iadd p q) as [s | ] eqn:Es; [ | discriminate].
  unfold dot.
  apply (iadd_sound _ _ _ _ _ E).
  - apply (iadd_sound _ _ _ _ _ Es).
    + apply (imul_sound _ _ _ _ _ Ep Ax Bx).
    + apply (imul_sound _ _ _ _ _ Eq Ay By).
  - apply (imul_sound _ _ _ _ _ Er Az Bz).
Qed.

(** ** Normalization *)

(** [norm w] divides by a finite, strictly positive length and all of
    its components are finite. *)
Definition safe_norm (w : Vec) : bool :=
  let l := F32.sqrtf (dot w w) in
  F32.is_finite l && (Lit.f0 <? l)%f32
  && F32.is_finite (Vec.x (norm w))
  && F32.is_finite (Vec.y (norm w))
  && F32.is_finite (Vec.z (norm w)).

Definition norm3 (a : v3) : option v3 :=
  d <- dot3 a a ;;
  l <- isqrt d ;;
  if (0 <? lo l)%sint63 then vdiv3 a l else None.

Lemma val_pos_gt (x : float) :
  fin x -> (0 < val x)%R -> (Lit.f0 <? x)%f32 = true.
Proof.
  unfold fin. intros Fx Hv.
  destruct x as [s | s | | s m e]; try discriminate Fx.
  - simpl in Hv. lra.
  - destruct s; [ | reflexivity].
    rewrite val_finite in Hv. unfold sgn in Hv.
    assert (0 < IZR (Zpos m) * pw e)%R
      by (apply Rmult_lt_0_compat; [apply IZR_lt; lia | apply pw_pos]).
    lra.
Qed.

Lemma norm3_sound (W N : v3) (w : Vec) :
  norm3 W = Some N -> encv W w ->
  encv N (norm w) /\ safe_norm w = true.
Proof.
  unfold norm3, bind. intros E HW.
  destruct (dot3 W W) as [D | ] eqn:Ed; [ | discriminate].
  destruct (isqrt D) as [L | ] eqn:El; [ | discriminate].
  destruct (0 <? lo L)%sint63 eqn:Hpos; [ | discriminate].
  pose proof (dot3_sound _ _ _ _ _ Ed HW HW) as HD.
  pose proof (isqrt_sound _ _ _ El HD) as HL.
  pose proof (pos_lo _ _ HL Hpos) as Hl0.
  pose proof (vdiv3_sound _ _ _ _ _ E HW HL) as HN.
  split; [exact HN | ].
  unfold safe_norm. cbv zeta.
  destruct HN as [[Fx _] [[Fy _] [Fz _]]].
  destruct HL as [Fl _].
  unfold fin in *. unfold norm.
  rewrite Fl, (val_pos_gt _ Fl Hl0), Fx, Fy, Fz. reflexivity.
Qed.

(* ================================================================== *)
(** * What a pixel must satisfy *)
(* ================================================================== *)

Definition vec_finite (v : Vec) : bool :=
  F32.is_finite (Vec.x v) && F32.is_finite (Vec.y v) && F32.is_finite (Vec.z v).

(** The shading of a hit on the sphere [s]: the four vectors that it
    normalizes (the normal, the view direction, the light direction and
    the reflection vector) are normalized safely, and the sum of the
    ambient and of the diffuse term is finite. *)
Definition shading_safe (s : Sphere) (r : Ray) : bool :=
  match intersect_sphere s r with
  | S754_finite _ _ _ as t =>
      let P := Ray.P r t in
      let N := norm (P - Sphere.c s)%vec in
      let L := norm (LIGHT - P)%vec in
      safe_norm (P - Sphere.c s)%vec
      && safe_norm (ORIGIN - P)%vec
      && safe_norm (LIGHT - P)%vec
      && safe_norm ((Lit.f2 * dot N L)%f32 * N - L)%vec
      && vec_finite (Lit.f0_1 * Sphere.col s
                     + F32.fmaxf (dot N L) Lit.f0 * Sphere.col s)%vec
  | _ => true
  end.

(** The pixel [(i, j)] of the image of [main]: the direction of its ray
    is normalized safely, and so is the shading of every sphere of the
    scene that the ray hits. *)
Definition pixel_safe (sc : list Sphere) (i j : Z) : bool :=
  let u := coord_u 1024 i in
  let v := coord_v 1024 j in
  safe_norm (Vec.mk u v Lit.f0 - ORIGIN)%vec
  && forallb (fun s => shading_safe s (camera_ray u v)) sc.

(* ================================================================== *)
(** * The checker *)
(* ================================================================== *)

(** Enclosures of the constants of the program. *)
Record consts : Type :=
  mkC { k_two : itv; k_m1 : itv; k_den : itv; k_zero : itv;
        k_tenth : itv; k_O : v3; k_L : v3 }.

Definition consts_ok (K : consts) : Prop :=
  enc (k_two K) Lit.f2 /\ enc (k_m1 K) Lit.fm1 /\
  enc (k_den K) (F32.of_int (1024 - 1)) /\ enc (k_zero K) Lit.f0 /\
  enc (k_tenth K) Lit.f0_1 /\
  encv (k_O K) ORIGIN /\ encv (k_L K) LIGHT.

Definition make_consts : option consts :=
  two <- encl Lit.f2 ;; m1 <- encl Lit.fm1 ;;
  den <- encl (F32.of_int (1024 - 1)) ;; zero <- encl Lit.f0 ;;
  tenth <- encl Lit.f0_1 ;;
  o <- enclv ORIGIN ;; l <- enclv LIGHT ;;
  Some (mkC two m1 den zero tenth o l).

Lemma make_consts_ok (K : consts) : make_consts = Some K -> consts_ok K.
Proof.
  unfold make_consts, bind.
  destruct (encl Lit.f2) as [two | ] eqn:E1; [ | discriminate].
  destruct (encl Lit.fm1) as [m1 | ] eqn:E2; [ | discriminate].
  destruct (encl (F32.of_int (1024 - 1))) as [den | ] eqn:E3; [ | discriminate].
  destruct (encl Lit.f0) as [zero | ] eqn:E4; [ | discriminate].
  destruct (encl Lit.f0_1) as [tenth | ] eqn:E7; [ | discriminate].
  destruct (enclv ORIGIN) as [o | ] eqn:E5; [ | discriminate].
  destruct (enclv LIGHT) as [l | ] eqn:E6; [ | discriminate].
  intros E. injection E as <-. unfold consts_ok. cbn.
  split; [exact (encl_sound _ _ E1) | ].
  split; [exact (encl_sound _ _ E2) | ].
  split; [exact (encl_sound _ _ E3) | ].
  split; [exact (encl_sound _ _ E4) | ].
  split; [exact (encl_sound _ _ E7) | ].
  split; [exact (enclv_sound _ _ E5) | exact (enclv_sound _ _ E6)].
Qed.

(** Enclosures of what the program reads of a sphere, the ray starting at
    [ORIGIN]: the centre, [ORIGIN - centre], the constant term
    [dot(Oc,Oc) - r*r] and the colour. *)
Record sph : Type := mkSph { s_c : v3; s_oc : v3; s_cc : itv; s_col : v3 }.

Definition constant_term (s : Sphere) : float :=
  let Oc := (ORIGIN - Sphere.c s)%vec in
  (dot Oc Oc - Sphere.r s * Sphere.r s)%f32.

Definition encs (S : sph) (s : Sphere) : Prop :=
  encv (s_c S) (Sphere.c s) /\
  encv (s_oc S) (ORIGIN - Sphere.c s)%vec /\
  enc (s_cc S) (constant_term s) /\
  encv (s_col S) (Sphere.col s).

Definition encl_sphere (s : Sphere) : option sph :=
  c <- enclv (Sphere.c s) ;;
  oc <- enclv (ORIGIN - Sphere.c s)%vec ;;
  cc <- encl (constant_term s) ;;
  col <- enclv (Sphere.col s) ;;
  Some (mkSph c oc cc col).

Lemma encl_sphere_sound (s : Sphere) (S : sph) :
  encl_sphere s = Some S -> encs S s.
Proof.
  unfold encl_sphere, bind.
  destruct (enclv (Sphere.c s)) as [c | ] eqn:E1; [ | discriminate].
  destruct (enclv (ORIGIN - Sphere.c s)%vec) as [oc | ] eqn:E2; [ | discriminate].
  destruct (encl (constant_term s)) as [cc | ] eqn:E3; [ | discriminate].
  destruct (enclv (Sphere.col s)) as [col | ] eqn:E4; [ | discriminate].
  intros E. injection E as <-. unfold encs. cbn.
  split; [exact (enclv_sound _ _ E1) | ].
  split; [exact (enclv_sound _ _ E2) | ].
  split; [exact (encl_sound _ _ E3) | exact (enclv_sound _ _ E4)].
Qed.

Lemma mapM_encl_sphere (l : list Sphere) :
  forall L, mapM encl_sphere l = Some L -> Forall2 encs L l.
Proof.
  induction l as [ | s l IH]; simpl; intros L E.
  - injection E as <-. constructor.
  - unfold bind in E.
    destruct (encl_sphere s) as [S | ] eqn:Es; [ | discriminate].
    destruct (mapM encl_sphere l) as [L' | ]; [ | discriminate].
    injection E as <-. constructor; [apply encl_sphere_sound, Es | ].
    apply IH. reflexivity.
Qed.

(** The hit distance of the ray of direction [D] on a sphere: [Some None]
    when the ray certainly misses, [Some (Some T)] when a hit, if there is
    one, is at a distance in [T]. *)
Definition hit_itv (D : v3) (S : sph) : option (option itv) :=
  b <- dot3 D (s_oc S) ;;
  bb <- imul b b ;;
  disc <- isub bb (s_cc S) ;;
  if (hi disc <? 0)%sint63 then Some None
  else
    sq <- isqrt (clamp0 disc) ;;
    nb <- ineg b ;;
    t <- isub nb sq ;;
    if (hi t <=? 0)%sint63 then Some None else Some (Some (clamp0 t)).

Lemma hit_itv_sound (D : v3) (S : sph) (dir : Vec) (s : Sphere)
    (R : option itv) :
  encv D dir -> encs S s -> hit_itv D S = Some R ->
  let t := intersect_sphere s (Ray.mk ORIGIN dir) in
  t = INFINITY \/ exists T, R = Some T /\ enc T t.
Proof.
  intros HD [_ [Hoc [Hcc _]]] E t. unfold t, intersect_sphere.
  cbn [Ray.A Ray.B]. fold (constant_term s).
  unfold hit_itv, bind in E.
  destruct (dot3 D (s_oc S)) as [B | ] eqn:Eb; [ | discriminate].
  pose proof (dot3_sound _ _ _ _ _ Eb HD Hoc) as HB.
  set (b := dot dir (ORIGIN - Sphere.c s)%vec) in *.
  destruct (imul B B) as [BB | ] eqn:Ebb; [ | discriminate].
  pose proof (imul_sound _ _ _ _ _ Ebb HB HB) as HBB.
  destruct (isub BB (s_cc S)) as [DI | ] eqn:Edi; [ | discriminate].
  pose proof (isub_sound _ _ _ _ _ Edi HBB Hcc) as HDI.
  set (disc := (b * b - constant_term s)%f32) in *.
  destruct (hi DI <? 0)%sint63 eqn:Hneg.
  { left. rewrite (val_neg_ltb disc (proj1 HDI) (neg_hi _ _ HDI Hneg)).
    reflexivity. }
  destruct (disc <? Lit.f0)%f32 eqn:Hd; [left; reflexivity | ].
  pose proof (not_ltb_val_nonneg disc (proj1 HDI) Hd) as Hd0.
  pose proof (clamp0_sound _ _ HDI Hd0) as HDI'.
  destruct (isqrt (clamp0 DI)) as [SQ | ] eqn:Esq; [ | discriminate].
  pose proof (isqrt_sound _ _ _ Esq HDI') as HSQ.
  destruct (ineg B) as [NB | ] eqn:Enb; [ | discriminate].
  pose proof (ineg_sound _ _ _ Enb HB) as HNB.
  destruct (isub NB SQ) as [T | ] eqn:Et; [ | discriminate].
  pose proof (isub_sound _ _ _ _ _ Et HNB HSQ) as HT.
  set (t' := (- b - F32.sqrtf disc)%f32) in *.
  destruct (hi T <=? 0)%sint63 eqn:Hnp.
  { left. rewrite (val_nonpos_not_gt t' (proj1 HT) (nonpos_hi _ _ HT Hnp)).
    reflexivity. }
  injection E as <-.
  destruct (t' >? Lit.f0)%f32 eqn:Hgt; [ | left; reflexivity].
  right. exists (clamp0 T). split; [reflexivity | ].
  apply clamp0_sound; [exact HT | ].
  apply Rlt_le. apply gt_val_pos; [exact (proj1 HT) | exact Hgt].
Qed.

(** [fmaxf(x, 0)] *)
Definition imax0 (x : itv) : itv :=
  mkI (imax (lo x) 0%sint63) (imax (hi x) 0%sint63).

Lemma ltb_val_neg (x : float) :
  fin x -> (x <? Lit.f0)%f32 = true -> (val x < 0)%R.
Proof.
  unfold fin. intros Fx H.
  destruct x as [s | s | | s m e]; try discriminate Fx.
  - destruct s; discriminate H.
  - destruct s; [ | discriminate H].
    rewrite val_finite. unfold sgn.
    assert (0 < IZR (Zpos m) * pw e)%R
      by (apply Rmult_lt_0_compat; [apply IZR_lt; lia | apply pw_pos]).
    lra.
Qed.

Lemma imax0_sound (X : itv) (x : float) :
  enc X x -> enc (imax0 X) (F32.fmaxf x Lit.f0).
Proof.
  intros [Fx [Lx Ux]].
  assert (E : F32.fmaxf x Lit.f0 = if (x <? Lit.f0)%f32 then Lit.f0 else x).
  { destruct x as [s | s | | s m e]; try reflexivity. discriminate Fx. }
  rewrite E. clear E.
  unfold inR, imax0, enc, inR. cbn [lo hi]. rewrite !tz_imax, tz_0.
  destruct (x <? Lit.f0)%f32 eqn:Hlt.
  - pose proof (ltb_val_neg x Fx Hlt) as Hneg.
    split; [reflexivity | ]. change (val Lit.f0) with 0%R.
    assert (tz (lo X) <= 0).
    { apply le_IZR. lra. }
    rewrite Z.max_r by assumption.
    split; [lra | ]. apply Rle_trans with (IZR 0); [lra | ].
    apply IZR_le. lia.
  - pose proof (not_ltb_val_nonneg x Fx Hlt) as Hpos.
    split; [exact Fx | ]. split.
    + destruct (Z.max_spec (tz (lo X)) 0) as [[_ ->] | [_ ->]]; lra.
    + apply Rle_trans with (IZR (tz (hi X))); [exact Ux | ].
      apply IZR_le. lia.
Qed.

Lemma encv_finite (V : v3) (v : Vec) : encv V v -> vec_finite v = true.
Proof.
  intros [[Fx _] [[Fy _] [Fz _]]]. unfold vec_finite, fin in *.
  rewrite Fx, Fy, Fz. reflexivity.
Qed.

(** The normalizations of the shading, for a hit at a distance in [T]. *)
Definition shade_chk (K : consts) (D : v3) (S : sph) (T : itv) : option unit :=
  td <- vscale3 T D ;;
  P <- vadd3 (k_O K) td ;;
  v1 <- vsub3 P (s_c S) ;;
  N <- norm3 v1 ;;
  v2 <- vsub3 (k_O K) P ;;
  _ <- norm3 v2 ;;
  v3 <- vsub3 (k_L K) P ;;
  L <- norm3 v3 ;;
  dd <- dot3 N L ;;
  k <- imul (k_two K) dd ;;
  kN <- vscale3 k N ;;
  v4 <- vsub3 kN L ;;
  _ <- norm3 v4 ;;
  amb <- vscale3 (k_tenth K) (s_col S) ;;
  dif <- vscale3 (imax0 dd) (s_col S) ;;
  _ <- vadd3 amb dif ;;
  Some tt.

Lemma shade_chk_sound (K : consts) (D : v3) (S : sph) (T : itv)
    (dir : Vec) (s : Sphere) (t : float) :
  consts_ok K -> encv D dir -> encs S s -> enc T t ->
  shade_chk K D S T = Some tt ->
  let P := Ray.P (Ray.mk ORIGIN dir) t in
  let N := norm (P - Sphere.c s)%vec in
  let L := norm (LIGHT - P)%vec in
  safe_norm (P - Sphere.c s)%vec
  && safe_norm (ORIGIN - P)%vec
  && safe_norm (LIGHT - P)%vec
  && safe_norm ((Lit.f2 * dot N L)%f32 * N - L)%vec
  && vec_finite (Lit.f0_1 * Sphere.col s
                 + F32.fmaxf (dot N L) Lit.f0 * Sphere.col s)%vec = true.
Proof.
  intros [Htwo [_ [_ [_ [Hten [HO HL]]]]]] HD [Hc [_ [_ Hcol]]] HT E P N L.
  unfold shade_chk, bind in E.
  destruct (vscale3 T D) as [TD | ] eqn:E1; [ | discriminate].
  pose proof (vscale3_sound _ _ _ _ _ E1 HT HD) as H1.
  destruct (vadd3 (k_O K) TD) as [PI | ] eqn:E2; [ | discriminate].
  pose proof (vadd3_sound _ _ _ _ _ E2 HO H1) as H2.
  change (vadd ORIGIN (vscale t dir)) with P in H2.
  destruct (vsub3 PI (s_c S)) as [V1 | ] eqn:E3; [ | discriminate].
  pose proof (vsub3_sound _ _ _ _ _ E3 H2 Hc) as H3.
  destruct (norm3 V1) as [NI | ] eqn:E4; [ | discriminate].
  destruct (norm3_sound _ _ _ E4 H3) as [H4 S1]. fold N in H4.
  destruct (vsub3 (k_O K) PI) as [V2 | ] eqn:E5; [ | discriminate].
  pose proof (vsub3_sound _ _ _ _ _ E5 HO H2) as H5.
  destruct (norm3 V2) as [VI | ] eqn:E6; [ | discriminate].
  destruct (norm3_sound _ _ _ E6 H5) as [_ S2].
  destruct (vsub3 (k_L K) PI) as [V3 | ] eqn:E7; [ | discriminate].
  pose proof (vsub3_sound _ _ _ _ _ E7 HL H2) as H7.
  destruct (norm3 V3) as [LI | ] eqn:E8; [ | discriminate].
  destruct (norm3_sound _ _ _ E8 H7) as [H8 S3]. fold L in H8.
  destruct (dot3 NI LI) as [DD | ] eqn:E9; [ | discriminate].
  pose proof (dot3_sound _ _ _ _ _ E9 H4 H8) as H9.
  destruct (imul (k_two K) DD) as [KK | ] eqn:E10; [ | discriminate].
  pose proof (imul_sound _ _ _ _ _ E10 Htwo H9) as H10.
  destruct (vscale3 KK NI) as [KN | ] eqn:E11; [ | discriminate].
  pose proof (vscale3_sound _ _ _ _ _ E11 H10 H4) as H11.
  destruct (vsub3 KN LI) as [V4 | ] eqn:E12; [ | discriminate].
  pose proof (vsub3_sound _ _ _ _ _ E12 H11 H8) as H12.
  destruct (norm3 V4) as [RI | ] eqn:E13; [ | discriminate].
  destruct (norm3_sound _ _ _ E13 H12) as [_ S4].
  destruct (vscale3 (k_tenth K) (s_col S)) as [AM | ] eqn:E14; [ | discriminate].
  pose proof (vscale3_sound _ _ _ _ _ E14 Hten Hcol) as H14.
  destruct (vscale3 (imax0 DD) (s_col S)) as [DF | ] eqn:E15; [ | discriminate].
  pose proof (vscale3_sound _ _ _ _ _ E15 (imax0_sound _ _ H9) Hcol) as H15.
  destruct (vadd3 AM DF) as [AD | ] eqn:E16; [ | discriminate].
  pose proof (vadd3_sound _ _ _ _ _ E16 H14 H15) as H16.
  rewrite S1, S2, S3, S4, (encv_finite _ _ H16). reflexivity.
Qed.

Definition check_sphere (K : consts) (D : v3) (S : sph) : bool :=
  match hit_itv D S with
  | Some None => true
  | Some (Some T) =>
      match shade_chk K D S T with Some _ => true | None => false end
  | None => false
  end.

Lemma check_sphere_sound (K : consts) (D : v3) (S : sph)
    (dir : Vec) (s : Sphere) :
  consts_ok K -> encv D dir -> encs S s ->
  check_sphere K D S = true ->
  shading_safe s (Ray.mk ORIGIN dir) = true.
Proof.
  intros HK HD HS. unfold check_sphere.
  destruct (hit_itv D S) as [R | ] eqn:Eh; [ | discriminate].
  pose proof (hit_itv_sound D S dir s R HD HS Eh) as Hhit. cbv zeta in Hhit.
  unfold shading_safe.
  destruct (intersect_sphere s (Ray.mk ORIGIN dir)) as [sg | sg | | sg m e] eqn:Et;
    try reflexivity.
  destruct Hhit as [Hinf | [T [-> HT]]]; [discriminate Hinf | ].
  destruct (shade_chk K D S T) as [[] | ] eqn:Ec; [ | discriminate].
  intros _. exact (shade_chk_sound K D S T dir s _ HK HD HS HT Ec).
Qed.

(* ================================================================== *)
(** * Tiles of pixels *)
(* ================================================================== *)

(** The numbers [float(i)] for [i] between [a] and [b]. *)
Definition index_itv (a b : int) : option itv :=
  if small a && small b
  then Some (widen (mkI (a * SC)%sint63 (b * SC)%sint63))
  else None.

Lemma index_itv_sound (a b : int) (X : itv) (i : Z) :
  index_itv a b = Some X -> tz a <= i <= tz b -> enc X (F32.of_int i).
Proof.
  unfold index_itv. destruct (small a && small b) eqn:Hs; [ | discriminate].
  apply andb_prop in Hs. destruct Hs as [Ha Hb].
  apply small_spec in Ha, Hb.
  intros E Hi. injection E as <-.
  set (J := mkI (a * SC)%sint63 (b * SC)%sint63).
  assert (El : tz (lo J) = tz a * 1048576).
  { unfold J. cbn [lo]. rewrite tz_mul; rewrite tz_SC; [reflexivity | lia]. }
  assert (Eh : tz (hi J) = tz b * 1048576).
  { unfold J. cbn [hi]. rewrite tz_mul; rewrite tz_SC; [reflexivity | lia]. }
  assert (HJ : roomy J).
  { unfold roomy. rewrite El, Eh. change (2 ^ 56) with 72057594037927936. lia. }
  assert (Hin : inR J (IZR i)).
  { unfold inR. rewrite El, Eh, !mult_IZR.
    destruct Hi as [H1 H2]. apply IZR_le in H1, H2. lra. }
  destruct (of_int_sound i (inR_abs J _ HJ Hin)) as [Ff He].
  split; [exact Ff | ]. apply (widen_sound J _ _ HJ Hin He).
Qed.

(** The screen coordinate [-1 + 2*i/1023]. *)
Definition coord_itv (K : consts) (X : itv) : option itv :=
  t <- imul (k_two K) X ;;
  q <- idiv t (k_den K) ;;
  iadd (k_m1 K) q.

Lemma coord_itv_sound (K : consts) (X U : itv) (i : Z) :
  consts_ok K -> enc X (F32.of_int i) -> coord_itv K X = Some U ->
  enc U (coord_u 1024 i).
Proof.
  intros [Htwo [Hm1 [Hden _]]] HX. unfold coord_itv, bind. intros E.
  destruct (imul (k_two K) X) as [T | ] eqn:E1; [ | discriminate].
  pose proof (imul_sound _ _ _ _ _ E1 Htwo HX) as H1.
  destruct (idiv T (k_den K)) as [Q | ] eqn:E2; [ | discriminate].
  destruct (idiv_sound _ _ _ _ _ E2 H1 Hden) as [H2 _].
  exact (iadd_sound _ _ _ _ _ E Hm1 H2).
Qed.

Definition check_tile (K : consts) (sc : list sph) (i0 i1 j0 j1 : int) : bool :=
  match
    X <- index_itv i0 i1 ;;
    Y <- index_itv j0 j1 ;;
    u <- coord_itv K X ;;
    v <- coord_itv K Y ;;
    d0 <- vsub3 (mkV u v (k_zero K)) (k_O K) ;;
    d <- norm3 d0 ;;
    Some (forallb (check_sphere K d) sc)
  with
  | Some ok => ok
  | None => false
  end.

Lemma forallb_check_sphere (K : consts) (D : v3) (dir : Vec) :
  consts_ok K -> encv D dir ->
  forall (L : list sph) (l : list Sphere),
    Forall2 encs L l ->
    forallb (check_sphere K D) L = true ->
    forallb (fun s => shading_safe s (Ray.mk ORIGIN dir)) l = true.
Proof.
  intros HK HD L l F. induction F as [ | S s L l HS _ IH]; simpl.
  - reflexivity.
  - intros H. apply andb_prop in H. destruct H as [H1 H2].
    rewrite (check_sphere_sound K D S dir s HK HD HS H1). apply IH, H2.
Qed.

Lemma check_tile_sound (K : consts) (L : list sph) (l : list Sphere)
    (i0 i1 j0 j1 : int) (i j : Z) :
  consts_ok K -> Forall2 encs L l ->
  check_tile K L i0 i1 j0 j1 = true ->
  tz i0 <= i <= tz i1 -> tz j0 <= j <= tz j1 ->
  pixel_safe l i j = true.
Proof.
  intros HK HL. unfold check_tile, bind.
  destruct (index_itv i0 i1) as [X | ] eqn:E1; [ | discriminate].
  destruct (index_itv j0 j1) as [Y | ] eqn:E2; [ | discriminate].
  destruct (coord_itv K X) as [U | ] eqn:E3; [ | discriminate].
  destruct (coord_itv K Y) as [V | ] eqn:E4; [ | discriminate].
  destruct (vsub3 (mkV U V (k_zero K)) (k_O K)) as [D0 | ] eqn:E5; [ | discriminate].
  destruct (norm3 D0) as [D | ] eqn:E6; [ | discriminate].
  intros Hall Hi Hj.
  pose proof (coord_itv_sound K X U i HK (index_itv_sound _ _ _ _ E1 Hi) E3) as HU.
  pose proof (coord_itv_sound K Y V j HK (index_itv_sound _ _ _ _ E2 Hj) E4) as HV.
  change (coord_u 1024 j) with (coord_v 1024 j) in HV.
  destruct HK as [Htwo [Hm1 [Hden [Hzero [Hten [HO HLi]]]]]].
  assert (Hw : encv (mkV U V (k_zero K))
                 (Vec.mk (coord_u 1024 i) (coord_v 1024 j) Lit.f0)).
  { repeat split; cbn [vx vy vz Vec.x Vec.y Vec.z];
      first [apply HU | apply HV | apply Hzero]. }
  pose proof (vsub3_sound _ _ _ _ _ E5 Hw HO) as H5.
  destruct (norm3_sound _ _ _ E6 H5) as [H6 S0].
  unfold pixel_safe. cbv zeta. rewrite S0. cbn [andb].
  unfold camera_ray.
  apply (forallb_check_sphere K D _
           (conj Htwo (conj Hm1 (conj Hden (conj Hzero (conj Hten (conj HO HLi))))))
           H6 L l HL Hall).
Qed.

(** A tile that does not pass as a whole is cut in four. *)
Fixpoint cover (fuel : nat) (K : consts) (sc : list sph)
    (i0 i1 j0 j1 : int) : bool :=
  if check_tile K sc i0 i1 j0 j1 then true
  else
    match fuel with
    | O => false
    | S fuel' =>
        let im := ((i0 + i1) >> 1)%sint63 in
        let jm := ((j0 + j1) >> 1)%sint63 in
        cover fuel' K sc i0 im j0 jm
        && (if (im <? i1)%sint63
            then cover fuel' K sc (im + 1)%sint63 i1 j0 jm else true)
        && (if (jm <? j1)%sint63
            then cover fuel' K sc i0 im (jm + 1)%sint63 j1 else true)
        && (if (im <? i1)%sint63 && (jm <? j1)%sint63
            then cover fuel' K sc (im + 1)%sint63 i1 (jm + 1)%sint63 j1
            else true)
    end.

Lemma tz_succ_below (a b : int) :
  (a <? b)%sint63 = true -> tz (a + 1)%sint63 = tz a + 1.
Proof.
  intros H. apply tz_ltb in H. pose proof (tz_range b).
  pose proof (tz_range a).
  rewrite tz_add; rewrite tz_1; [reflexivity | lia].
Qed.

Lemma cover_sound (K : consts) (L : list sph) (l : list Sphere) :
  consts_ok K -> Forall2 encs L l ->
  forall (fuel : nat) (i0 i1 j0 j1 : int) (i j : Z),
    cover fuel K L i0 i1 j0 j1 = true ->
    tz i0 <= i <= tz i1 -> tz j0 <= j <= tz j1 ->
    pixel_safe l i j = true.
Proof.
  intros HK HL. induction fuel as [ | fuel IH]; intros i0 i1 j0 j1 i j.
  - cbn [cover]. destruct (check_tile K L i0 i1 j0 j1) eqn:Ec; [ | discriminate].
    intros _. apply (check_tile_sound K L l i0 i1 j0 j1 i j HK HL Ec).
  - cbn [cover]. destruct (check_tile K L i0 i1 j0 j1) eqn:Ec.
    { intros _. apply (check_tile_sound K L l i0 i1 j0 j1 i j HK HL Ec). }
    set (im := ((i0 + i1) >> 1)%sint63). set (jm := ((j0 + j1) >> 1)%sint63).
    intros H Hi Hj.
    apply andb_prop in H. destruct H as [H H4].
    apply andb_prop in H. destruct H as [H H3].
    apply andb_prop in H. destruct H as [H1 H2].
    destruct (Z_le_gt_dec i (tz im)) as [Hil | Hil];
      destruct (Z_le_gt_dec j (tz jm)) as [Hjl | Hjl].
    + apply (IH _ _ _ _ i j H1); lia.
    + destruct (jm <? j1)%sint63 eqn:Ej.
      * apply (IH _ _ _ _ i j H3); [lia | ].
        rewrite (tz_succ_below _ _ Ej). lia.
      * apply tz_ltb_false in Ej. lia.
    + destruct (im <? i1)%sint63 eqn:Ei.
      * apply (IH _ _ _ _ i j H2); [ | lia].
        rewrite (tz_succ_below _ _ Ei). lia.
      * apply tz_ltb_false in Ei. lia.
    + destruct (im <? i1)%sint63 eqn:Ei; [ | apply tz_ltb_false in Ei; lia].
      destruct (jm <? j1)%sint63 eqn:Ej; [ | apply tz_ltb_false in Ej; lia].
      cbn [andb] in H4.
      apply (IH _ _ _ _ i j H4).
      * rewrite (tz_succ_below _ _ Ei). lia.
      * rewrite (tz_succ_below _ _ Ej). lia.
Qed.

Lemma cover_of_main (K : consts) (L : list sph) (i j : Z) :
  make_consts = Some K -> mapM encl_sphere main_scene = Some L ->
  cover 12 K L 0%sint63 1023%sint63 0%sint63 1023%sint63 = true ->
  0 <= i < 1024 -> 0 <= j < 1024 -> pixel_safe main_scene i j = true.
Proof.
  intros EK EL H Hi Hj.
  apply (cover_sound K L main_scene (make_consts_ok K EK)
           (mapM_encl_sphere _ _ EL) 12 _ _ _ _ i j H).
  - change (tz 0%sint63) with 0. change (tz 1023%sint63) with 1023. lia.
  - change (tz 0%sint63) with 0. change (tz 1023%sint63) with 1023. lia.
Qed.

(** The image of [main] is covered by tiles that pass the check. *)
Lemma main_cover :
  exists (K : consts) (L : list sph),
    make_consts = Some K /\
    mapM encl_sphere main_scene = Some L /\
    cover 12 K L 0%sint63 1023%sint63 0%sint63 1023%sint63 = true.
Proof.
  eexists. eexists.
  split; [vm_compute; reflexivity | ].
  split; [vm_compute; reflexivity | ].
  vm_compute. reflexivity.
Qed.

Lemma pixels_safe (i j : Z) :
  0 <= i < 1024 -> 0 <= j < 1024 -> pixel_safe main_scene i j = true.
Proof.
  destruct main_cover as [K [L [EK [EL H]]]].
  apply (cover_of_main K L i j EK EL H).
Qed.

(* ================================================================== *)
(** * No division by zero, no NaN *)
(* ================================================================== *)

(** What [safe_norm] says. *)
Lemma safe_norm_spec (w : Vec) :
  safe_norm w = true ->
  let l := F32.sqrtf (dot w w) in
  F32.is_finite l = true /\
  (l >? Lit.f0)%f32 = true /\
  F32.is_finite (Vec.x (vdiv w l)) = true /\
  F32.is_finite (Vec.y (vdiv w l)) = true /\
  F32.is_finite (Vec.z (vdiv w l)) = true.
Proof.
  unfold safe_norm, norm. cbv zeta. intros H.
  apply andb_prop in H. destruct H as [H Hz].
  apply andb_prop in H. destruct H as [H Hy].
  apply andb_prop in H. destruct H as [H Hx].
  apply andb_prop in H. destruct H as [Hf Hp].
  repeat split; assumption.
Qed.

Lemma pixel_safe_camera (sc : list Sphere) (i j : Z) :
  pixel_safe sc i j = true ->
  safe_norm (Vec.mk (coord_u 1024 i) (coord_v 1024 j) Lit.f0 - ORIGIN)%vec
  = true.
Proof.
  unfold pixel_safe. cbv zeta. intros H.
  apply andb_prop in H. exact (proj1 H).
Qed.

Lemma pixel_safe_sphere (sc : list Sphere) (i j : Z) (s : Sphere) :
  pixel_safe sc i j = true -> In s sc ->
  shading_safe s (camera_ray (coord_u 1024 i) (coord_v 1024 j)) = true.
Proof.
  unfold pixel_safe. cbv zeta. intros H Hs.
  apply andb_prop in H. destruct H as [_ H].
  exact (proj1 (forallb_forall _ _) H s Hs).
Qed.

Lemma safe_norm_split (a b c d : Vec) (e : bool) :
  safe_norm a && safe_norm b && safe_norm c && safe_norm d && e = true ->
  safe_norm a = true /\ safe_norm b = true /\ safe_norm c = true /\
  safe_norm d = true /\ e = true.
Proof.
  intros H.
  apply andb_prop in H. destruct H as [H He].
  apply andb_prop in H. destruct H as [H Hd].
  apply andb_prop in H. destruct H as [H Hc].
  apply andb_prop in H. destruct H as [Ha Hb].
  repeat split; assumption.
Qed.

(** What the shading of a hit at a finite distance may rely on. *)
Lemma shading_safe_spec (s : Sphere) (r : Ray) :
  shading_safe s r = true ->
  F32.is_finite (intersect_sphere s r) = true ->
  let P := Ray.P r (intersect_sphere s r) in
  let N := norm (P - Sphere.c s)%vec in
  let L := norm (LIGHT - P)%vec in
  safe_norm (P - Sphere.c s)%vec = true /\
  safe_norm (ORIGIN - P)%vec = true /\
  safe_norm (LIGHT - P)%vec = true /\
  safe_norm ((Lit.f2 * dot N L)%f32 * N - L)%vec = true /\
  vec_finite (Lit.f0_1 * Sphere.col s
              + F32.fmaxf (dot N L) Lit.f0 * Sphere.col s)%vec = true.
Proof.
  unfold shading_safe. intros H Hfin.
  pose proof (intersect_sphere_is_dist s r) as Ds.
  destruct (intersect_sphere s r) as [sg | sg | | sg m e];
    try discriminate Hfin; [destruct sg; discriminate Ds | ].
  cbv zeta. apply safe_norm_split. exact H.
Qed.

(** The sphere that a scan over ten spheres selects. *)
Lemma closest_hit (sc : list Sphere) (r : Ray) (best_t : float) (hit_id : Z) :
  List.length sc = 10%nat ->
  closest 10 sc r = Some (best_t, hit_id) ->
  0 <= hit_id ->
  exists s,
    nth_error sc (Z.to_nat hit_id) = Some s /\
    best_t = intersect_sphere s r /\
    F32.is_finite best_t = true.
Proof.
  intros Hlen Hscan Hid.
  destruct (closest_inv sc r 10) as [[bt id] [E I]]; [rewrite Hlen; lia | ].
  rewrite Hscan in E. injection E as <- <-.
  destruct I as [[-> _] | [_ [[s [Es Ebt]] [Hb _]]]]; [lia | ].
  exists s. split; [exact Es | ]. split; [exact Ebt | ].
  pose proof (intersect_sphere_is_dist s r) as Ds. rewrite <- Ebt in Ds.
  destruct (F32Facts.dist_lt_inf best_t Ds Hb) as [m [e ->]]. reflexivity.
Qed.

Lemma shaded_sphere_safe (sc : list Sphere) (i j : Z)
    (best_t : float) (hit_id : Z) :
  List.length sc = 10%nat ->
  pixel_safe sc i j = true ->
  let r := camera_ray (coord_u 1024 i) (coord_v 1024 j) in
  closest 10 sc r = Some (best_t, hit_id) ->
  0 <= hit_id ->
  exists s,
    nth_error sc (Z.to_nat hit_id) = Some s /\
    best_t = intersect_sphere s r /\
    let P := Ray.P r best_t in
    let N := norm (P - Sphere.c s)%vec in
    let L := norm (LIGHT - P)%vec in
    safe_norm (P - Sphere.c s)%vec = true /\
    safe_norm (ORIGIN - P)%vec = true /\
    safe_norm (LIGHT - P)%vec = true /\
    safe_norm ((Lit.f2 * dot N L)%f32 * N - L)%vec = true /\
    vec_finite (Lit.f0_1 * Sphere.col s
                + F32.fmaxf (dot N L) Lit.f0 * Sphere.col s)%vec = true.
Proof.
  intros Hlen Hsafe r Hscan Hid.
  destruct (closest_hit sc r best_t hit_id Hlen Hscan Hid) as [s [Es [Ebt Hfin]]].
  exists s. split; [exact Es | ]. split; [exact Ebt | ].
  pose proof (pixel_safe_sphere sc i j s Hsafe (nth_error_In _ _ Es)) as Hs.
  fold r in Hs. rewrite Ebt in Hfin. rewrite Ebt.
  exact (shading_safe_spec s r Hs Hfin).
Qed.

(** X10. For every pixel of the 1024x1024 image the vector
    [(u, v, 0) - ORIGIN] that gives the direction of the camera ray has a
    finite, strictly positive length, and the three components of the
    normalized direction are finite numbers: the division of [norm] is
    never by zero and yields no NaN and no infinity. *)
Theorem camera_direction_safe (i j : Z) :
  0 <= i < 1024 -> 0 <= j < 1024 ->
  let w := (Vec.mk (coord_u 1024 i) (coord_v 1024 j) Lit.f0 - ORIGIN)%vec in
  let l := F32.sqrtf (dot w w) in
  let d := Ray.B (camera_ray (coord_u 1024 i) (coord_v 1024 j)) in
  F32.is_finite l = true /\
  (l >? Lit.f0)%f32 = true /\
  F32.is_finite (Vec.x d) = true /\
  F32.is_finite (Vec.y d) = true /\
  F32.is_finite (Vec.z d) = true.
Proof.
  intros Hi Hj.
  exact (safe_norm_spec _ (pixel_safe_camera main_scene i j (pixels_safe i j Hi Hj))).
Qed.

Lemma camera_direction_safe_witness :
  0 <= 0 < 1024 /\ 0 <= 1023 < 1024 /\
  let d := Ray.B (camera_ray (coord_u 1024 0) (coord_v 1024 1023)) in
  F32.is_finite (Vec.z d) = true.
Proof.
  split; [lia | ]. split; [lia | ].
  exact (proj2 (proj2 (proj2 (proj2
           (camera_direction_safe 0 1023 ltac:(lia) ltac:(lia)))))).
Defined.

(** X11. For every pixel of the 1024x1024 image whose ray hits a sphere,
    the four vectors that the shading normalizes (the normal
    [P - centre], the view direction [ORIGIN - P], the light direction
    [LIGHT - P] and the reflection vector [2*dot(N,L)*N - L]) have a
    finite, strictly positive length and finite normalized components:
    no division by zero, no NaN. *)
Theorem shading_vectors_safe (i j : Z) (best_t : float) (hit_id : Z) :
  0 <= i < 1024 -> 0 <= j < 1024 ->
  let r := camera_ray (coord_u 1024 i) (coord_v 1024 j) in
  closest 10 main_scene r = Some (best_t, hit_id) ->
  0 <= hit_id ->
  exists s,
    nth_error main_scene (Z.to_nat hit_id) = Some s /\
    let P := Ray.P r best_t in
    let N := norm (P - Sphere.c s)%vec in
    let L := norm (LIGHT - P)%vec in
    safe_norm (P - Sphere.c s)%vec = true /\
    safe_norm (ORIGIN - P)%vec = true /\
    safe_norm (LIGHT - P)%vec = true /\
    safe_norm ((Lit.f2 * dot N L)%f32 * N - L)%vec = true.
Proof.
  intros Hi Hj r Hscan Hid.
  destruct (shaded_sphere_safe main_scene i j best_t hit_id main_scene_length
              (pixels_safe i j Hi Hj) Hscan Hid)
    as [s [Es [_ [H1 [H2 [H3 [H4 _]]]]]]].
  exists s. split; [exact Es | ]. cbv zeta.
  split; [exact H1 | ]. split; [exact H2 | ]. split; [exact H3 | exact H4].
Qed.

Lemma shading_vectors_safe_witness :
  0 <= 512 < 1024 /\
  closest 10 main_scene (camera_ray (coord_u 1024 512) (coord_v 1024 512))
  = Some (S754_finite false 9434232 (-21), 2) /\
  0 <= 2 /\
  exists s,
    nth_error main_scene (Z.to_nat 2) = Some s /\
    safe_norm (Ray.P (camera_ray (coord_u 1024 512) (coord_v 1024 512))
                 (S754_finite false 9434232 (-21)) - Sphere.c s)%vec = true.
Proof.
  assert (E : closest 10 main_scene
                (camera_ray (coord_u 1024 512) (coord_v 1024 512))
              = Some (S754_finite false 9434232 (-21), 2))
    by (vm_compute; reflexivity).
  split; [lia | ]. split; [exact E | ]. split; [lia | ].
  destruct (shading_vectors_safe 512 512 _ _ ltac:(lia) ltac:(lia) E ltac:(lia))
    as [s [Es [H1 _]]].
  exists s. split; [exact Es | exact H1].
Defined.

(** C8. For every pixel of the 1024x1024 image of [main], every vector
    that the program normalizes has a non-zero length: the direction
    [(u, v, 0) - ORIGIN] of the camera ray and, when the scan selects a
    sphere, the normal [P - centre], the view direction [ORIGIN - P], the
    light direction [LIGHT - P] and the reflection vector
    [2*dot(N,L)*N - L] at the point [P] that is shaded.  For each of them
    the length [sqrt(dot(w,w))] by which [norm] divides is a finite
    binary32 number above zero, and the three quotients are finite: no
    division by zero, no NaN. *)
Theorem normalized_vectors_nonzero (powf : float -> float -> float) (i j : Z) :
  0 <= i < 1024 -> 0 <= j < 1024 ->
  let u := coord_u 1024 i in
  let v := coord_v 1024 j in
  let r := camera_ray u v in
  let nonzero (w : Vec) :=
    let l := F32.sqrtf (dot w w) in
    F32.is_finite l = true /\
    (l >? Lit.f0)%f32 = true /\
    norm w = vdiv w l /\
    F32.is_finite (Vec.x (norm w)) = true /\
    F32.is_finite (Vec.y (norm w)) = true /\
    F32.is_finite (Vec.z (norm w)) = true in
  Ray.B r = norm (Vec.mk u v Lit.f0 - ORIGIN)%vec /\
  nonzero (Vec.mk u v Lit.f0 - ORIGIN)%vec /\
  forall best_t hit_id,
    closest 10 main_scene r = Some (best_t, hit_id) ->
    0 <= hit_id ->
    exists s,
      nth_error main_scene (Z.to_nat hit_id) = Some s /\
      let P := Ray.P r best_t in
      let N := norm (P - Sphere.c s)%vec in
      let Vc := norm (ORIGIN - P)%vec in
      let L := norm (LIGHT - P)%vec in
      let R := norm ((Lit.f2 * dot N L)%f32 * N - L)%vec in
      nonzero (P - Sphere.c s)%vec /\
      nonzero (ORIGIN - P)%vec /\
      nonzero (LIGHT - P)%vec /\
      nonzero ((Lit.f2 * dot N L)%f32 * N - L)%vec /\
      pixel_color powf 10 main_scene u v
      = Some (Lit.f0_1 * Sphere.col s
              + F32.fmaxf (dot N L) Lit.f0 * Sphere.col s
              + powf (F32.fmaxf (dot R Vc) Lit.f0) Lit.f32
                * Vec.mk Lit.f1 Lit.f1 Lit.f1)%vec.
Proof.
  intros Hi Hj u v r nonzero.
  assert (Hnz : forall w, safe_norm w = true -> nonzero w).
  { intros w Hw. destruct (safe_norm_spec w Hw) as [H1 [H2 [H3 [H4 H5]]]].
    unfold nonzero, norm. repeat split; assumption. }
  pose proof (pixels_safe i j Hi Hj) as Hsafe.
  split; [reflexivity | ].
  split; [apply Hnz; exact (pixel_safe_camera main_scene i j Hsafe) | ].
  intros best_t hit_id Hscan Hid.
  destruct (shaded_sphere_safe main_scene i j best_t hit_id main_scene_length
              Hsafe Hscan Hid)
    as [s [Es [_ [H1 [H2 [H3 [H4 _]]]]]]].
  exists s. split; [exact Es | ]. cbv zeta.
  split; [apply Hnz; exact H1 | ]. split; [apply Hnz; exact H2 | ].
  split; [apply Hnz; exact H3 | ]. split; [apply Hnz; exact H4 | ].
  unfold pixel_color. fold u v r. rewrite Hscan. cbn [bind].
  replace (0 <=? hit_id) with true by (symmetry; apply Z.leb_le; exact Hid).
  unfold shade_hit. rewrite Es. reflexivity.
Qed.

Lemma normalized_vectors_nonzero_witness :
  0 <= 512 < 1024 /\
  closest 10 main_scene (camera_ray (coord_u 1024 512) (coord_v 1024 512))
  = Some (S754_finite false 9434232 (-21), 2) /\
  (F32.sqrtf (dot (Vec.mk (coord_u 1024 512) (coord_v 1024 512) Lit.f0 - ORIGIN)%vec
                  (Vec.mk (coord_u 1024 512) (coord_v 1024 512) Lit.f0 - ORIGIN)%vec)
   >? Lit.f0)%f32 = true /\
  exists s,
    nth_error main_scene (Z.to_nat 2) = Some s /\
    (F32.sqrtf
       (dot (Ray.P (camera_ray (coord_u 1024 512) (coord_v 1024 512))
               (S754_finite false 9434232 (-21)) - Sphere.c s)%vec
            (Ray.P (camera_ray (coord_u 1024 512) (coord_v 1024 512))
               (S754_finite false 9434232 (-21)) - Sphere.c s)%vec)
     >? Lit.f0)%f32 = true.
Proof.
  assert (E : closest 10 main_scene
                (camera_ray (coord_u 1024 512) (coord_v 1024 512))
              = Some (S754_finite false 9434232 (-21), 2))
    by (vm_compute; reflexivity).
  split; [lia | ]. split; [exact E | ].
  destruct (normalized_vectors_nonzero powf_ref 512 512 ltac:(lia) ltac:(lia))
    as [_ [[_ [Hcam _]] Hhit]].
  split; [exact Hcam | ].
  destruct (Hhit _ _ E ltac:(lia)) as [s [Es [[_ [Hn _]] _]]].
  exists s. split; [exact Es | exact Hn].
Defined.

(* ================================================================== *)
(** * The run of [main] is defined *)
(* ================================================================== *)

(** Rounding a non-negative mantissa never yields NaN. *)
Lemma binary_round_aux_not_nan (sx : bool) (m e : Z) (l : location) :
  0 <= m ->
  F32.is_nan (binary_round_aux F32.prec F32.emax sx m e l) = false.
Proof.
  intros Hm. rewrite RoundFacts.binary_round_aux_core.
  pose proof (round_core_bounds m e l Hm) as Hb. cbv zeta in Hb.
  destruct (RoundFacts.round_core F32.prec F32.emax m e l) as [m3 e3].
  cbn [fst snd]. destruct Hb as [[H0 _] _].
  destruct m3 as [ | p | p]; [reflexivity | | lia].
  destruct (e3 <=? F32.emax - F32.prec); reflexivity.
Qed.

Lemma binary_normalize_not_nan (m e : Z) (sz : bool) :
  F32.is_nan (binary_normalize F32.prec F32.emax m e sz) = false.
Proof.
  destruct m as [ | p | p]; [reflexivity | | ];
    unfold binary_normalize, binary_round;
    destruct (shl_align _ _ _) as [mz ez];
    apply binary_round_aux_not_nan; lia.
Qed.

(** A finite number plus a number is a number. *)
Lemma add_finite_not_nan (a b : float) :
  F32.is_finite a = true -> F32.is_nan b = false ->
  F32.is_nan (a + b)%f32 = false.
Proof.
  intros Ha Hb.
  destruct a as [s | s | | s m e]; try discriminate Ha;
    destruct b as [s' | s' | | s' m' e']; try discriminate Hb;
    unfold F32.add, SFadd;
    first [ reflexivity | apply binary_normalize_not_nan
          | destruct s, s'; reflexivity ].
Qed.

(** A number times [1.0f] is a number. *)
Lemma mul_one_not_nan (a : float) :
  F32.is_nan a = false -> F32.is_nan (a * Lit.f1)%f32 = false.
Proof.
  intros Ha.
  destruct a as [s | s | | s m e]; try discriminate Ha; try reflexivity.
  unfold F32.mul, Lit.f1, F32.one, SFmul.
  apply binary_round_aux_not_nan. lia.
Qed.

Lemma fmaxf_zero_not_nan (x : float) : F32.is_nan (F32.fmaxf x Lit.f0) = false.
Proof.
  destruct x as [s | s | | s m e]; try reflexivity;
    unfold F32.fmaxf; destruct (F32.ltb _ Lit.f0); reflexivity.
Qed.

Definition vec_no_nan (v : Vec) : Prop :=
  F32.is_nan (Vec.x v) = false /\
  F32.is_nan (Vec.y v) = false /\
  F32.is_nan (Vec.z v) = false.

(** The base of the specular power for the pixel [(i, j)]: the number
    [fmaxf(dot(R,V), 0)] that the shading of the pixel hands to [powf],
    if the pixel is shaded at all. *)
Definition specular_base (sc : list Sphere) (i j : Z) : option float :=
  let r := camera_ray (coord_u 1024 i) (coord_v 1024 j) in
  '(best_t, hit_id) <- closest 10 sc r ;;
  if 0 <=? hit_id then
    s <- nth_error sc (Z.to_nat hit_id) ;;
    let P := Ray.P r best_t in
    let N := norm (P - Sphere.c s)%vec in
    let Vc := norm (ORIGIN - P)%vec in
    let L := norm (LIGHT - P)%vec in
    let R := norm ((Lit.f2 * dot N L)%f32 * N - L)%vec in
    Some (F32.fmaxf (dot R Vc) Lit.f0)
  else None.

Lemma specular_base_number (sc : list Sphere) (i j : Z) (x : float) :
  specular_base sc i j = Some x -> F32.is_nan x = false.
Proof.
  unfold specular_base, bind.
  destruct (closest 10 sc _) as [[bt id] | ]; [ | discriminate].
  destruct (0 <=? id); [ | discriminate].
  destruct (nth_error sc (Z.to_nat id)); [ | discriminate].
  intros E. injection E as <-. apply fmaxf_zero_not_nan.
Qed.

Lemma background_of_main (i j : Z) :
  0 <= i < 1024 -> 0 <= j < 1024 ->
  background (coord_u 1024 i) (coord_v 1024 j) = Some light_cell \/
  background (coord_u 1024 i) (coord_v 1024 j) = Some dark_cell.
Proof.
  intros Hi Hj.
  destruct (cell_of_main i Hi) as [ix [Ex Hx]].
  destruct (cell_of_main j Hj) as [iy [Ey Hy]].
  change (coord_v 1024 j) with (coord_u 1024 j).
  unfold background. rewrite Ex, Ey. cbn [bind].
  unfold F32.int_add.
  replace (F32.in_int_range (ix + iy)) with true.
  2:{ symmetry. unfold F32.in_int_range, F32.INT_MIN, F32.INT_MAX.
      apply andb_true_intro.
      split; apply Z.leb_le; change (2 ^ 31) with 2147483648; lia. }
  cbn [bind]. destruct (Z.land (ix + iy) 1 =? 0); [left | right]; reflexivity.
Qed.

Lemma quantize_defined (color : Vec) :
  vec_in_precision color -> vec_no_nan color ->
  exists rgb, quantize color = Some rgb.
Proof.
  intros [Px [Py Pz]] [Nx [Ny Nz]]. unfold quantize.
  destruct (clip_byte _ Px Nx) as [cr [-> _]].
  destruct (clip_byte _ Py Ny) as [cg [-> _]].
  destruct (clip_byte _ Pz Nz) as [cb [-> _]].
  eexists. reflexivity.
Qed.

Lemma quantize_nan (color : Vec) :
  F32.is_nan (Vec.x color) = true -> quantize color = None.
Proof.
  intros H. unfold quantize. rewrite (is_nan_eq _ H). reflexivity.
Qed.

Section Defined.

Variable powf : float -> float -> float.
Variable sc : list Sphere.
Hypothesis sc_length : List.length sc = 10%nat.

(** The colour of a shaded pixel is the finite sum of the ambient and
    diffuse terms plus [powf(base, 32) * Ks]; that of another pixel is
    one of the two colours of the checkerboard. *)
Lemma pixel_color_shape (i j : Z) :
  pixel_safe sc i j = true ->
  0 <= i < 1024 -> 0 <= j < 1024 ->
  (specular_base sc i j = None /\
   exists color,
     pixel_color powf 10 sc (coord_u 1024 i) (coord_v 1024 j) = Some color /\
     vec_no_nan color)
  \/
  (exists x a,
     specular_base sc i j = Some x /\
     vec_finite a = true /\
     pixel_color powf 10 sc (coord_u 1024 i) (coord_v 1024 j)
     = Some (a + powf x Lit.f32 * Vec.mk Lit.f1 Lit.f1 Lit.f1)%vec).
Proof.
  intros Hsafe Hi Hj. unfold pixel_color, specular_base.
  set (r := camera_ray (coord_u 1024 i) (coord_v 1024 j)).
  destruct (closest_inv sc r 10) as [[bt id] [E I]]; [rewrite sc_length; lia | ].
  rewrite E. cbn [bind].
  destruct (0 <=? id) eqn:Hid.
  - right. apply Z.leb_le in Hid.
    destruct (shaded_sphere_safe sc i j bt id sc_length Hsafe E Hid)
      as [s [Es [_ [_ [_ [_ [_ Hfin]]]]]]].
    unfold shade_hit. rewrite Es. cbn [bind].
    eexists. eexists. split; [reflexivity | ].
    split; [exact Hfin | reflexivity].
  - left. split; [reflexivity | ].
    destruct (background_of_main i j Hi Hj) as [-> | ->];
      eexists; (split; [reflexivity | repeat split]).
Qed.

Lemma shaded_no_nan (a : Vec) (spec : float) :
  vec_finite a = true -> F32.is_nan spec = false ->
  vec_no_nan (a + spec * Vec.mk Lit.f1 Lit.f1 Lit.f1)%vec.
Proof.
  intros H Hs. unfold vec_finite in H.
  apply andb_prop in H. destruct H as [H Hz].
  apply andb_prop in H. destruct H as [Hx Hy].
  unfold vec_no_nan, vadd, vscale. cbn [Vec.x Vec.y Vec.z].
  repeat split; apply add_finite_not_nan; try assumption;
    apply mul_one_not_nan; exact Hs.
Qed.

(** A pixel is quantized if [powf] answers a number for its base. *)
Lemma quantized_pixel_defined (i j : Z) :
  pixel_safe sc i j = true ->
  0 <= i < 1024 -> 0 <= j < 1024 ->
  (forall x, specular_base sc i j = Some x ->
     F32.is_nan (powf x Lit.f32) = false) ->
  exists rgb, quantized_pixel powf 1024 1024 10 sc (i, j) = Some rgb.
Proof.
  intros Hsafe Hi Hj Hpowf. unfold quantized_pixel. cbn [fst snd].
  destruct (pixel_color_shape i j Hsafe Hi Hj)
    as [[_ [color [E Hn]]] | [x [a [Ex [Ha E]]]]].
  - rewrite E. cbn [bind]. apply quantize_defined; [ | exact Hn].
    apply (pixel_color_in_precision _ _ _ _ _ _ E).
  - rewrite E. cbn [bind]. apply quantize_defined.
    + apply (pixel_color_in_precision _ _ _ _ _ _ E).
    + apply shaded_no_nan; [exact Ha | apply Hpowf; exact Ex].
Qed.

(** A pixel for whose base [powf] answers NaN cannot be quantized. *)
Lemma quantized_pixel_undefined (i j : Z) (x : float) :
  pixel_safe sc i j = true ->
  0 <= i < 1024 -> 0 <= j < 1024 ->
  specular_base sc i j = Some x ->
  F32.is_nan (powf x Lit.f32) = true ->
  quantized_pixel powf 1024 1024 10 sc (i, j) = None.
Proof.
  intros Hsafe Hi Hj Ex Hnan. unfold quantized_pixel. cbn [fst snd].
  destruct (pixel_color_shape i j Hsafe Hi Hj)
    as [[E0 _] | [x' [a [Ex' [Ha E]]]]]; [congruence | ].
  rewrite Ex in Ex'. injection Ex' as <-.
  rewrite E. cbn [bind]. apply quantize_nan.
  unfold vadd, vscale. cbn [Vec.x].
  rewrite (is_nan_eq _ Hnan), mul_nan_l, add_nan_r. reflexivity.
Qed.

End Defined.

Lemma mapM_defined {A B : Type} (f : A -> option B) (l : list A) :
  (forall a, In a l -> exists b, f a = Some b) ->
  exists bs, mapM f l = Some bs.
Proof.
  induction l as [ | a l IH]; intros H.
  - exists []. reflexivity.
  - destruct (H a (or_introl eq_refl)) as [b Eb].
    destruct IH as [bs Ebs]; [intros a' Ha'; apply H; right; exact Ha' | ].
    exists (b :: bs). simpl. rewrite Eb. simpl. rewrite Ebs. reflexivity.
Qed.

Lemma zseq_In (n : nat) :
  forall lo i, In i (zseq lo n) -> lo <= i < lo + Z.of_nat n.
Proof.
  induction n as [ | n IH]; intros lo i; simpl; [contradiction | ].
  intros [<- | H]; [lia | ]. apply IH in H. lia.
Qed.

Lemma zdown_In (n : nat) (j : Z) : In j (zdown n) -> 0 <= j < Z.of_nat n.
Proof.
  induction n as [ | n IH]; simpl; [contradiction | ].
  intros [<- | H]; [lia | ]. apply IH in H. lia.
Qed.

Lemma pixel_order_In (W H : nat) (ij : Z * Z) :
  In ij (pixel_order W H) ->
  0 <= fst ij < Z.of_nat W /\ 0 <= snd ij < Z.of_nat H.
Proof.
  unfold pixel_order. intros Hin. apply in_flat_map in Hin.
  destruct Hin as [j [Hj Hi]]. apply in_map_iff in Hi.
  destruct Hi as [i [<- Hi]]. cbn [fst snd].
  apply zseq_In in Hi. apply zdown_In in Hj. lia.
Qed.

Lemma mapM_undefined {A B : Type} (f : A -> option B) (l : list A) (a : A) :
  In a l -> f a = None -> mapM f l = None.
Proof.
  induction l as [ | a' l IH]; intros Hin Ha; [contradiction | ].
  simpl. destruct Hin as [-> | Hin].
  - rewrite Ha. reflexivity.
  - destruct (f a'); simpl; [ | reflexivity]. rewrite (IH Hin Ha). reflexivity.
Qed.

Lemma pixel_order_of_main_In (i j : Z) :
  0 <= i < 1024 -> 0 <= j < 1024 ->
  In (i, j) (pixel_order (Z.to_nat 1024) (Z.to_nat 1024)).
Proof.
  intros Hi Hj.
  pose proof (pixel_order_of_main_nth (1023 - j) i ltac:(lia) Hi) as H.
  replace (1023 - (1023 - j)) with j in H by lia.
  exact (nth_error_In _ _ H).
Qed.

(** The run of [main] when [powf] answers a number for the base of every
    shaded pixel. *)
Lemma main_defined_when (powf : float -> float -> float) (st : State) :
  scene st = [] ->
  (forall i j x, 0 <= i < 1024 -> 0 <= j < 1024 ->
     specular_base main_scene i j = Some x ->
     F32.is_nan (powf x Lit.f32) = false) ->
  exists rgbs : list (Z * Z * Z),
    main powf st
    = Some (0, mkState main_scene
                 (cout st ++ header 1024 1024 ++ lines_text rgbs)%string) /\
    Z.of_nat (List.length rgbs) = 1024 * 1024 /\
    Forall bytes rgbs.
Proof.
  intros Hsc Hpowf. rewrite (main_eq powf st Hsc).
  destruct (mapM_defined (quantized_pixel powf 1024 1024 10 main_scene)
              (pixel_order (Z.to_nat 1024) (Z.to_nat 1024))) as [rgbs E].
  { intros [i j] Hin. apply pixel_order_In in Hin. cbn [fst snd] in Hin.
    rewrite Z2Nat.id in Hin by lia.
    apply (quantized_pixel_defined powf main_scene main_scene_length i j).
    - apply pixels_safe; lia.
    - lia.
    - lia.
    - intros x. apply Hpowf; lia. }
  exists rgbs. rewrite E. cbn [bind].
  split; [reflexivity | ].
  split.
  - rewrite (mapM_length _ _ _ E). exact pixel_order_of_main_length.
  - exact (mapM_bytes _ _ _ _ _ _ _ E).
Qed.

(** X12. The run of [main] is free of undefined behaviour and writes the
    whole image, for every C library whose [powf(x, 32.0f)] is a number
    whenever [x] is: started with an empty scene, [main] returns 0 with
    the ten spheres in the scene and with the header and one line for
    each of the 1024 * 1024 pixels appended to the output. *)
Theorem main_defined (powf : float -> float -> float) (st : State) :
  (forall x, F32.is_nan x = false -> F32.is_nan (powf x Lit.f32) = false) ->
  scene st = [] ->
  exists rgbs : list (Z * Z * Z),
    main powf st
    = Some (0, mkState main_scene
                 (cout st ++ header 1024 1024 ++ lines_text rgbs)%string) /\
    Z.of_nat (List.length rgbs) = 1024 * 1024 /\
    Forall bytes rgbs.
Proof.
  intros Hpowf Hsc. apply (main_defined_when powf st Hsc).
  intros i j x _ _ Ex. apply Hpowf.
  exact (specular_base_number _ _ _ _ Ex).
Qed.

Lemma main_defined_witness :
  exists rgbs : list (Z * Z * Z),
    main (fun x _ => x) initial_state
    = Some (0, mkState main_scene
                 (header 1024 1024 ++ lines_text rgbs)%string) /\
    Z.of_nat (List.length rgbs) = 1024 * 1024.
Proof.
  destruct (main_defined (fun x _ => x) initial_state (fun x H => H) eq_refl)
    as [rgbs [E [Hl _]]].
  exists rgbs. split; [exact E | exact Hl].
Defined.

(** X17. The only undefined behaviour that a run of [main] can meet is
    the conversion to [int] of a NaN that [powf] returned: started with
    an empty scene, the run is defined if and only if [powf] answers a
    number for the base [fmaxf(dot(R,V), 0)] of every shaded pixel, with
    the exponent 32. *)
Theorem main_defined_iff (powf : float -> float -> float) (st : State) :
  scene st = [] ->
  (main powf st <> None
   <-> forall i j x, 0 <= i < 1024 -> 0 <= j < 1024 ->
         specular_base main_scene i j = Some x ->
         F32.is_nan (powf x Lit.f32) = false).
Proof.
  intros Hsc. split.
  - intros Hdef i j x Hi Hj Ex.
    destruct (F32.is_nan (powf x Lit.f32)) eqn:Hnan; [ | reflexivity].
    exfalso. apply Hdef. rewrite (main_eq powf st Hsc).
    rewrite (mapM_undefined _ _ (i, j) (pixel_order_of_main_In i j Hi Hj)
               (quantized_pixel_undefined powf main_scene main_scene_length
                  i j x (pixels_safe i j Hi Hj) Hi Hj Ex Hnan)).
    reflexivity.
  - intros Hpowf.
    destruct (main_defined_when powf st Hsc Hpowf) as [rgbs [E _]].
    rewrite E. discriminate.
Qed.

Lemma main_defined_iff_witness :
  scene initial_state = [] /\
  specular_base main_scene 512 512 <> None /\
  main (fun _ _ => S754_nan) initial_state = None.
Proof.
  split; [reflexivity | ].
  assert (E : exists x, specular_base main_scene 512 512 = Some x).
  { vm_compute. eexists. reflexivity. }
  split; [destruct E as [x ->]; discriminate | ].
  destruct E as [x Ex].
  destruct (main (fun _ _ => S754_nan) initial_state) as [p | ] eqn:Em;
    [ | reflexivity].
  exfalso.
  assert (Hdef : main (fun _ _ => S754_nan) initial_state <> None)
    by (rewrite Em; discriminate).
  pose proof (proj1 (main_defined_iff (fun _ _ => S754_nan) initial_state eq_refl)
                Hdef 512 512 x ltac:(lia) ltac:(lia) Ex) as H.
  discriminate H.
Defined.
